(** * lyn: a shallow embedding of the SSA middle-end

    The development follows the layout of the Python sources:
    - [compiler/ir.py]: enumerations, blocks, instructions and the use-def
      bookkeeping, over an arena of objects addressed by index;
    - [compiler/ssa_constr.py]: the on-the-fly SSA builder;
    - [compiler/opt/lvn.py], [compiler/opt/dia.py]: constant folding, local
      value numbering and dead instruction elimination;
    - [compiler/opt/manager.py]: the pass manager.

    Python objects are mutable and compared in two ways: [is] (identity)
    and [==] (the classes' [__eq__], structural).  Objects live in an arena
    and are named by their index, so [is] is equality of indices and [==]
    is a function that walks the arena. *)

From Stdlib Require Import ZArith DecimalString DecimalZ DecimalPos Ascii String.
From stdpp Require Import base list gmap strings.

Open Scope string_scope.
Open Scope list_scope.
Open Scope Z_scope.

(** ** Outcomes of running Python code *)

Inductive exn :=
  | AssertionError | ValueError | KeyError | TypeError | AttributeError
  | ZeroDivisionError | RuntimeError | Exception.

(** [Stuck] is not a Python outcome: the embedding ran out of fuel, or was
    given an index that names no object of the arena. *)
Inductive result (A : Type) :=
  | Ok (a : A)
  | Raise (e : exn)
  | Stuck.
Arguments Ok {A} a.
Arguments Raise {A} e.
Arguments Stuck {A}.

Definition M (S A : Type) : Type := S -> result (A * S).

Definition ret {S A} (a : A) : M S A := fun s => Ok (a, s).
Definition bind {S A B} (m : M S A) (k : A -> M S B) : M S B :=
  fun s => match m s with
           | Ok (a, s') => k a s'
           | Raise e => Raise e
           | Stuck => Stuck
           end.
Definition raise {S A} (e : exn) : M S A := fun _ => Raise e.
Definition stuck {S A} : M S A := fun _ => Stuck.
Definition get {S} : M S S := fun s => Ok (s, s).
Definition put {S} (s : S) : M S unit := fun _ => Ok (tt, s).
Definition assert {S} (b : bool) : M S unit :=
  if b then ret tt else raise AssertionError.
(** Reading a [result] computed without state inside a stateful run. *)
Definition pure {S A} (r : result A) : M S A :=
  fun s => match r with
           | Ok a => Ok (a, s)
           | Raise e => Raise e
           | Stuck => Stuck
           end.

Declare Scope py_scope.
Delimit Scope py_scope with py.
Notation "x <- m ;; k" := (bind m (fun x => k))
  (at level 100, m at next level, right associativity) : py_scope.
Notation "m ;;; k" := (bind m (fun _ => k))
  (at level 100, right associativity) : py_scope.
Open Scope py_scope.

(** [for x in l: body x], over a list that the body does not mutate. *)
Fixpoint for_each {S A} (l : list A) (body : A -> M S unit) : M S unit :=
  match l with
  | [] => ret tt
  | x :: l' => body x ;;; for_each l' body
  end.

(** ** [ir.py]: enumerations *)

Inductive Op := ADD | SUB | MUL | DIV | MOD | LSH | RSH | LT | GT | LE | GE | EQ | NQ.

Inductive IrType :=
  | I1 | I8 | I16 | I32 | I64 | I128 | I256
  | U8 | U16 | U32 | U64 | U128 | U256
  | F32 | F64 | STRING | VOID.

#[export] Instance Op_eq_dec : EqDecision Op.
Proof. solve_decision. Defined.
#[export] Instance IrType_eq_dec : EqDecision IrType.
Proof. solve_decision. Defined.

Module OpM.
(** [Op.__str__]: the lower-cased member name. *)
Definition str (o : Op) : string :=
  match o with
  | ADD => "add" | SUB => "sub" | MUL => "mul" | DIV => "div" | MOD => "mod"
  | LSH => "lsh" | RSH => "rsh" | LT => "lt" | GT => "gt" | LE => "le"
  | GE => "ge" | EQ => "eq" | NQ => "nq"
  end.

Definition is_commutative (o : Op) : bool :=
  match o with ADD | MUL | EQ => true | _ => false end.
End OpM.

Module TypeM.
(** The second component of the member's value; [None] for STRING and VOID. *)
Definition bits (t : IrType) : option Z :=
  match t with
  | I1 => Some 1 | I8 => Some 8 | I16 => Some 16 | I32 => Some 32
  | I64 => Some 64 | I128 => Some 128 | I256 => Some 256
  | U8 => Some 8 | U16 => Some 16 | U32 => Some 32 | U64 => Some 64
  | U128 => Some 128 | U256 => Some 256
  | F32 => Some 32 | F64 => Some 64
  | STRING => None | VOID => None
  end.

(** The third component, as the source has it: [False] on the [I*]
    members and [True] on the [U*] members. *)
Definition is_signed (t : IrType) : bool :=
  match t with
  | U8 | U16 | U32 | U64 | U128 | U256 => true
  | _ => false
  end.

Definition str (t : IrType) : string :=
  match t with
  | I1 => "i1" | I8 => "i8" | I16 => "i16" | I32 => "i32" | I64 => "i64"
  | I128 => "i128" | I256 => "i256"
  | U8 => "u8" | U16 => "u16" | U32 => "u32" | U64 => "u64"
  | U128 => "u128" | U256 => "u256"
  | F32 => "f32" | F64 => "f64" | STRING => "string" | VOID => "void"
  end.
End TypeM.

(** ** Python built-ins used by the sources *)

(** [int.bit_length()]: the number of bits of the absolute value. *)
Definition bit_length (v : Z) : Z :=
  if v =? 0 then 0 else Z.log2 (Z.abs v) + 1.

(** [str(n)] for an [int]. *)
Definition py_str (v : Z) : string := NilZero.string_of_int (Z.to_int v).

Definition is_space (c : ascii) : bool :=
  let n := nat_of_ascii c in
  ((9 <=? n)%nat && (n <=? 13)%nat) || (n =? 32)%nat.

Definition digit_of (c : ascii) : option Z :=
  let n := nat_of_ascii c in
  if ((48 <=? n)%nat && (n <=? 57)%nat) then Some (Z.of_nat (n - 48)) else None.

Fixpoint lstrip (s : string) : string :=
  match s with
  | String c r => if is_space c then lstrip r else s
  | EmptyString => EmptyString
  end.

(** Drops trailing blanks: the result ends in a non-blank or is empty. *)
Fixpoint rstrip (s : string) : string :=
  match s with
  | EmptyString => EmptyString
  | String c r =>
      match rstrip r with
      | EmptyString => if is_space c then EmptyString else String c EmptyString
      | r' => String c r'
      end
  end.

(** Decimal digits, single underscores allowed between two digits. *)
Fixpoint digits_value (acc : Z) (after_digit : bool) (s : string) : option Z :=
  match s with
  | EmptyString => if after_digit then Some acc else None
  | String c r =>
      match digit_of c with
      | Some d => digits_value (10 * acc + d) true r
      | None =>
          if (nat_of_ascii c =? 95)%nat && after_digit
          then digits_value acc false r
          else None
      end
  end.

(** [int(s)] for a [str] in base 10; [None] is [ValueError]. *)
Definition py_int (s : string) : option Z :=
  match rstrip (lstrip s) with
  | String c r =>
      if (nat_of_ascii c =? 45)%nat then Z.opp <$> digits_value 0 false r
      else if (nat_of_ascii c =? 43)%nat then digits_value 0 false r
      else digits_value 0 false (String c r)
  | EmptyString => None
  end.

(** ** [lvn.py]: wrapping and the table of foldable operations *)

(** [wrap(value, bits, signed)]. *)
Definition wrap (value bits : Z) (signed : bool) : Z :=
  let base := Z.shiftl 1 bits in
  let value := value mod base in
  if signed && (bit_length value =? bits) then value - base else value.

(** The arithmetic of [operator.add] ... [operator.rshift] on [int]:
    [%] by zero and a negative shift count raise. *)
Definition py_operator (o : Op) (x y : Z) : result Z :=
  match o with
  | ADD => Ok (x + y)
  | SUB => Ok (x - y)
  | MUL => Ok (x * y)
  | MOD => if y =? 0 then Raise ZeroDivisionError else Ok (x mod y)
  | LSH => if y <? 0 then Raise ValueError else Ok (Z.shiftl x y)
  | RSH => if y <? 0 then Raise ValueError else Ok (Z.shiftr x y)
  | _ => Stuck
  end.

(** [instr.op in ops]. *)
Definition in_ops (o : Op) : bool :=
  match o with ADD | SUB | MUL | MOD | LSH | RSH => true | _ => false end.

(** [ops[op](x, y, bits, signed)], that is [wrapper(func)]: [func] first,
    then [wrap], whose [1 << bits] raises on [bits = None]. *)
Definition ops (o : Op) (x y : Z) (bits : option Z) (signed : bool) : result Z :=
  match py_operator o x y with
  | Ok v => match bits with
            | Some b => Ok (wrap v b signed)
            | None => Raise TypeError
            end
  | Raise e => Raise e
  | Stuck => Stuck
  end.

(** ** [ir.py]: instructions and blocks

    [iref] and [bref] are indices into the arena of instructions and into
    the arena of blocks. *)

Abbreviation iref := nat (only parsing).
Abbreviation bref := nat (only parsing).

(** The concrete instruction classes with their typed operand fields.
    [GlobalConst], which neither the builder nor a pass creates, is left
    out. *)
Inductive payload :=
  | Const (value : string)
  | BinOp (op : Op) (x y : iref)
  | Cast (value : iref)
  | Id (value : iref)
  | FunctionCall (callee : string) (params : list iref)
  | ProcedureCall (callee : string) (params : list iref)
  | Phi (inputs : list iref)
  | Ubr (to_block : bref)
  | Cbr (cond : iref) (true_block false_block : bref)
  | Return (value : iref).

(** The attributes set by [Instruction.__init__] and
    [AssignmentInstruction.__init__]; [i_name], [i_type] and [i_ssa_id] are
    read on assignment instructions only ([Return] has an [instr_type] of
    its own, kept in [i_type]). *)
Record Instruction := mkInstruction {
  i_block : option bref;
  i_users : list iref;
  i_used_vars : list iref;
  i_name : string;
  i_type : IrType;
  i_ssa_id : option nat;
  i_body : payload
}.

Record Block := mkBlock {
  b_name : string;
  b_instrs : list iref;
  b_phis : list iref;
  b_preds : list bref;
  b_succs : list bref
}.

Definition set_block (v : option bref) (i : Instruction) : Instruction :=
  mkInstruction v (i_users i) (i_used_vars i) (i_name i) (i_type i) (i_ssa_id i) (i_body i).
Definition set_users (v : list iref) (i : Instruction) : Instruction :=
  mkInstruction (i_block i) v (i_used_vars i) (i_name i) (i_type i) (i_ssa_id i) (i_body i).
Definition set_used_vars (v : list iref) (i : Instruction) : Instruction :=
  mkInstruction (i_block i) (i_users i) v (i_name i) (i_type i) (i_ssa_id i) (i_body i).
Definition set_ssa_id (v : option nat) (i : Instruction) : Instruction :=
  mkInstruction (i_block i) (i_users i) (i_used_vars i) (i_name i) (i_type i) v (i_body i).
Definition set_body (v : payload) (i : Instruction) : Instruction :=
  mkInstruction (i_block i) (i_users i) (i_used_vars i) (i_name i) (i_type i) (i_ssa_id i) v.

Definition set_instrs (v : list iref) (b : Block) : Block :=
  mkBlock (b_name b) v (b_phis b) (b_preds b) (b_succs b).
Definition set_phis (v : list iref) (b : Block) : Block :=
  mkBlock (b_name b) (b_instrs b) v (b_preds b) (b_succs b).
Definition set_preds (v : list bref) (b : Block) : Block :=
  mkBlock (b_name b) (b_instrs b) (b_phis b) v (b_succs b).
Definition set_succs (v : list bref) (b : Block) : Block :=
  mkBlock (b_name b) (b_instrs b) (b_phis b) (b_preds b) v.

(** [isinstance(x, AssignmentInstruction)], [isinstance(x, Call)],
    [isinstance(x, Phi)], [isinstance(x, Const)]. *)
Definition is_assignment (p : payload) : bool :=
  match p with
  | Const _ | BinOp _ _ _ | Cast _ | Id _ | FunctionCall _ _ | Phi _ => true
  | _ => false
  end.
Definition is_call (p : payload) : bool :=
  match p with FunctionCall _ _ | ProcedureCall _ _ => true | _ => false end.
Definition is_phi (p : payload) : bool :=
  match p with Phi _ => true | _ => false end.

(** [a and b] on outcomes: [b] is not evaluated when [a] is false. *)
Notation "a &&& b" :=
  (match a with Ok true => b | Ok false => Ok false | Raise e => Raise e | Stuck => Stuck end)
  (at level 40, left associativity, only parsing).

(** [list.insert(i, x)]. *)
Definition list_insert_at {A} (i : nat) (x : A) (l : list A) : list A :=
  take i l ++ x :: drop i l.

(** *** The [__eq__] methods *)

Section Equality.
Variable bs : list Block.
Variable ins : list Instruction.

(** [l1 == l2] on lists: lengths first, then item by item, identical
    items being equal without a call to [__eq__]. *)
Fixpoint list_eq (eq : iref -> iref -> result bool) (l1 l2 : list iref) : result bool :=
  match l1, l2 with
  | [], [] => Ok true
  | a :: r1, b :: r2 =>
      (if bool_decide (a = b) then Ok true else eq a b) &&& list_eq eq r1 r2
  | _, _ => Ok false
  end.

Definition py_list_eq (eq : iref -> iref -> result bool) (l1 l2 : list iref) : result bool :=
  if bool_decide (length l1 = length l2) then list_eq eq l1 l2 else Ok false.

Definition block_name_eq (b1 b2 : bref) : result bool :=
  match bs !! b1, bs !! b2 with
  | Some x, Some y => Ok (bool_decide (b_name x = b_name y))
  | _, _ => Stuck
  end.

(** [AssignmentInstruction.__eq__] once the class test has passed. *)
Definition assignment_eq (a b : Instruction) : bool :=
  bool_decide (i_name a = i_name b) && bool_decide (i_type a = i_type b).

(** [a == b]: the [__eq__] of the class of [a].  The fuel bounds the depth
    of the nested [__eq__] calls, which follow operand references and need
    not end on a cyclic graph. *)
Fixpoint py_eq (fuel : nat) (a b : iref) : result bool :=
  match fuel with
  | O => Stuck
  | S fuel' =>
      match ins !! a, ins !! b with
      | Some ia, Some ib =>
          match i_body ia, i_body ib with
          | Const v, Const w =>
              Ok (assignment_eq ia ib && bool_decide (v = w))
          | BinOp o x y, BinOp o' x' y' =>
              Ok (assignment_eq ia ib) &&& Ok (bool_decide (o = o'))
                &&& py_eq fuel' x x' &&& py_eq fuel' y y'
          | Cast v, Cast w => Ok (assignment_eq ia ib) &&& py_eq fuel' v w
          | Id v, Id w => Ok (assignment_eq ia ib) &&& py_eq fuel' v w
          | FunctionCall c ps, FunctionCall c' ps' =>
              Ok (bool_decide (c = c')) &&& py_list_eq (py_eq fuel') ps ps'
                &&& Ok (assignment_eq ia ib)
          | ProcedureCall c ps, ProcedureCall c' ps' =>
              Ok (bool_decide (c = c')) &&& py_list_eq (py_eq fuel') ps ps'
          | Phi l, Phi l' =>
              Ok (assignment_eq ia ib) &&& py_list_eq (py_eq fuel') l l'
          | Ubr t, Ubr t' => block_name_eq t t'
          | Cbr c t f, Cbr c' t' f' =>
              py_eq fuel' c c' &&& block_name_eq t t' &&& block_name_eq f f'
          | Return v, Return w =>
              Ok (bool_decide (i_type ia = i_type ib)) &&& py_eq fuel' v w
          | _, _ => Ok false
          end
      | _, _ => Stuck
      end
  end.

Variable depth : nat.

(** The comparison made by [in], [list.index] and [list.remove]. *)
Definition item_eq (el x : iref) : result bool :=
  if bool_decide (el = x) then Ok true else py_eq depth el x.

(** The first position of [l] whose item is, or equals, [x]. *)
Fixpoint py_find (l : list iref) (x : iref) : result (option nat) :=
  match l with
  | [] => Ok None
  | el :: r =>
      match item_eq el x with
      | Ok true => Ok (Some O)
      | Ok false =>
          match py_find r x with
          | Ok (Some i) => Ok (Some (S i))
          | o => o
          end
      | Raise e => Raise e
      | Stuck => Stuck
      end
  end.

(** [x in l]. *)
Definition py_in (l : list iref) (x : iref) : result bool :=
  match py_find l x with
  | Ok o => Ok (bool_decide (is_Some o))
  | Raise e => Raise e
  | Stuck => Stuck
  end.

(** [l.index(x)]. *)
Definition py_index (l : list iref) (x : iref) : result nat :=
  match py_find l x with
  | Ok (Some i) => Ok i
  | Ok None => Raise ValueError
  | Raise e => Raise e
  | Stuck => Stuck
  end.

(** [l.remove(x)], returning the list as it is afterwards. *)
Definition py_remove (l : list iref) (x : iref) : result (list iref) :=
  match py_find l x with
  | Ok (Some i) => Ok (delete i l)
  | Ok None => Raise ValueError
  | Raise e => Raise e
  | Stuck => Stuck
  end.

(** [Block.__eq__]: name, then instruction list, then phi list. *)
Definition block_eq (b1 b2 : bref) : result bool :=
  match bs !! b1, bs !! b2 with
  | Some x, Some y =>
      Ok (bool_decide (b_name x = b_name y))
        &&& py_list_eq (py_eq depth) (b_instrs x) (b_instrs y)
        &&& py_list_eq (py_eq depth) (b_phis x) (b_phis y)
  | _, _ => Stuck
  end.

(** [b in l] for a list of blocks. *)
Fixpoint block_in (l : list bref) (b : bref) : result bool :=
  match l with
  | [] => Ok false
  | el :: r =>
      match (if bool_decide (el = b) then Ok true else block_eq el b) with
      | Ok true => Ok true
      | Ok false => block_in r b
      | Raise e => Raise e
      | Stuck => Stuck
      end
  end.
End Equality.

(** *** The methods of [Instruction] and of its subclasses

    They read and write instruction objects only; block names are read by
    the [__eq__] of branches. *)

(** What [get_operand_at] can return. *)
Inductive operand :=
  | OStr (s : string)
  | OOp (o : Op)
  | OInstr (i : iref)
  | OBlock (b : bref).

Section InstructionMethods.
Variable bs : list Block.
Variable depth : nat.

Local Abbreviation I := (M (list Instruction)).

Definition load (i : iref) : I Instruction :=
  fun ins => match ins !! i with Some v => Ok (v, ins) | None => Stuck end.
Definition modify (i : iref) (f : Instruction -> Instruction) : I unit :=
  fun ins => match ins !! i with Some v => Ok (tt, <[i := f v]> ins) | None => Stuck end.
Definition contains (l : list iref) (x : iref) : I bool :=
  fun ins => pure (py_in bs ins depth l x) ins.
Definition index_of (l : list iref) (x : iref) : I nat :=
  fun ins => pure (py_index bs ins depth l x) ins.
Definition without (l : list iref) (x : iref) : I (list iref) :=
  fun ins => pure (py_remove bs ins depth l x) ins.

(** [is_used]: [bool(len(self.users))]. *)
Definition is_used (i : Instruction) : bool :=
  negb (bool_decide (length (i_users i) = 0%nat)).

Definition add_user (self instr : iref) : I unit :=
  s <- load self ;;
  present <- contains (i_users s) instr ;;
  if present then ret tt
  else modify self (fun s => set_users (i_users s ++ [instr]) s).

Definition remove_user (self instr : iref) : I unit :=
  s <- load self ;;
  present <- contains (i_users s) instr ;;
  assert present ;;;
  l <- without (i_users s) instr ;;
  modify self (set_users l).

(** [add_used_vars], called with the unpacked argument list. *)
Definition add_used_vars (self : iref) (variables : list iref) : I unit :=
  for_each variables (fun var =>
    s <- load self ;;
    present <- contains (i_used_vars s) var ;;
    (if present then ret tt
     else modify self (fun s => set_used_vars (i_used_vars s ++ [var]) s)) ;;;
    add_user var self).

(** [remove_used_vars]; the argument tuple is built before the loop
    runs, so a caller unpacking [self.used_vars] passes a copy. *)
Definition remove_used_vars (self : iref) (variables : list iref) : I unit :=
  for_each variables (fun var =>
    v <- load var ;;
    assert (is_assignment (i_body v)) ;;;
    s <- load self ;;
    present <- contains (i_used_vars s) var ;;
    assert present ;;;
    l <- without (i_used_vars s) var ;;
    modify self (set_used_vars l) ;;;
    remove_user var self).

(** [for var in self.used_vars: if var is old: self.remove_used_vars(var)]:
    the list is read again at each step, at the next position.  It never
    grows in the loop, so [n], its length on entry, bounds the number of
    steps. *)
Fixpoint replace_use_scan (n : nat) (self old : iref) (pos : nat) : I unit :=
  match n with
  | O => ret tt
  | S n' =>
      s <- load self ;;
      match i_used_vars s !! pos with
      | None => ret tt
      | Some var =>
          (if bool_decide (var = old) then remove_used_vars self [var] else ret tt) ;;;
          replace_use_scan n' self old (S pos)
      end
  end.

(** [Instruction.replace_use]; [new] is [None] when the caller passes
    Python's [None]. *)
Definition base_replace_use (self old : iref) (new : option iref) : I unit :=
  o <- load old ;;
  assert (is_assignment (i_body o)) ;;;
  match new with
  | None => raise AssertionError
  | Some n =>
      nw <- load n ;;
      assert (is_assignment (i_body nw)) ;;;
      s <- load self ;;
      assert (existsb (fun v => bool_decide (v = old)) (i_used_vars s)) ;;;
      replace_use_scan (length (i_used_vars s)) self old 0 ;;;
      add_used_vars self [n]
  end.

(** [replace_use] as overridden by each class. *)
Definition replace_use (self old : iref) (new : option iref) : I unit :=
  s <- load self ;;
  match i_body s with
  | Const _ | Ubr _ => raise Exception
  | _ =>
      base_replace_use self old new ;;;
      match new with
      | None => raise AssertionError
      | Some n =>
          s <- load self ;;
          let swap v := if bool_decide (v = old) then n else v in
          match i_body s with
          | BinOp o x y => modify self (set_body (BinOp o (swap x) (swap y)))
          | Cast _ => modify self (set_body (Cast n))
          | Id _ => modify self (set_body (Id n))
          | Return _ => modify self (set_body (Return n))
          | Cbr _ t f => modify self (set_body (Cbr n t f))
          | FunctionCall c ps => modify self (set_body (FunctionCall c (swap <$> ps)))
          | ProcedureCall c ps => modify self (set_body (ProcedureCall c (swap <$> ps)))
          | Phi l =>
              i <- index_of l old ;;
              let l1 := list_insert_at i n l in
              modify self (set_body (Phi l1)) ;;;
              l2 <- without l1 old ;;
              modify self (set_body (Phi l2))
          | Const _ | Ubr _ => stuck
          end
      end
  end.

(** [replace_by]: the loop runs over the copy [self.users[:]]. *)
Definition replace_by (self : iref) (value : option iref) : I unit :=
  s <- load self ;;
  for_each (i_users s) (fun use => replace_use use self value) ;;;
  s <- load self ;;
  remove_used_vars self (i_used_vars s).

Definition operand_num (p : payload) : nat :=
  match p with
  | Const _ | Cast _ | Id _ | Ubr _ | Return _ => 1
  | BinOp _ _ _ | Cbr _ _ _ => 3
  | FunctionCall _ ps | ProcedureCall _ ps => length ps + 1
  | Phi l => length l
  end.

Definition check {A} (b : bool) (a : result A) : result A :=
  if b then a else Raise AssertionError.

Definition nth_item (l : list iref) (i : nat) : result operand :=
  match l !! i with Some v => Ok (OInstr v) | None => Stuck end.

Definition get_operand_at (p : payload) (idx : nat) : result operand :=
  match p with
  | Const v => check (bool_decide (idx = 0%nat)) (Ok (OStr v))
  | BinOp o x y =>
      check (idx <? 3)%nat
        (Ok (match idx with O => OOp o | 1%nat => OInstr x | _ => OInstr y end))
  | Cast v | Id v | Return v => check (bool_decide (idx = 0%nat)) (Ok (OInstr v))
  | FunctionCall c ps | ProcedureCall c ps =>
      check (idx <=? length ps)%nat
        (match idx with O => Ok (OStr c) | S k => nth_item ps k end)
  | Phi l => check (Z.of_nat idx <? Z.of_nat (length l) - 1) (nth_item l idx)
  | Ubr t => check (bool_decide (idx = 0%nat)) (Ok (OBlock t))
  | Cbr c t f =>
      check (idx <? 3)%nat
        (Ok (match idx with O => OInstr c | 1%nat => OBlock t | _ => OBlock f end))
  end.

(** [set_operand_at(idx, new)] with an instruction for [new], which is
    how the optimiser calls it.  Storing an instruction in a field that
    holds an opcode, a string or a block has no counterpart here. *)
Definition set_operand_at (self : iref) (idx : nat) (new : iref) : I unit :=
  s <- load self ;;
  match i_body s with
  | Const _ | Ubr _ => assert (bool_decide (idx = 0%nat)) ;;; stuck
  | BinOp _ x y =>
      assert (idx <? 3)%nat ;;;
      match idx with
      | O => stuck
      | 1%nat => replace_use self x (Some new)
      | _ => replace_use self y (Some new)
      end
  | Cast v | Id v | Return v =>
      assert (bool_decide (idx = 0%nat)) ;;; replace_use self v (Some new)
  | FunctionCall _ ps | ProcedureCall _ ps =>
      assert (idx <=? length ps)%nat ;;;
      match idx with
      | O => stuck
      | S k => match ps !! k with
               | Some p => replace_use self p (Some new)
               | None => stuck
               end
      end
  | Phi l =>
      assert (Z.of_nat idx <? Z.of_nat (length l) - 1) ;;;
      match l !! idx with
      | Some p => replace_use self p (Some new)
      | None => stuck
      end
  | Cbr c _ _ =>
      assert (idx <? 3)%nat ;;;
      match idx with O => replace_use self c (Some new) | _ => stuck end
  end.

(** Object creation: [Instruction.__init__] leaves the object detached,
    unused and using nothing; the subclasses register their operands. *)
Definition alloc (name : string) (ty : IrType) (body : payload) : I iref :=
  fun ins => Ok (length ins, ins ++ [mkInstruction None [] [] name ty None body]).

Definition assert_assignment (v : iref) : I unit :=
  o <- load v ;; assert (is_assignment (i_body o)).

Definition new_Const (name : string) (ty : IrType) (value : string) : I iref :=
  alloc name ty (Const value).

Definition new_BinOp (name : string) (ty : IrType) (o : Op) (x y : iref) : I iref :=
  assert_assignment x ;;; assert_assignment y ;;;
  self <- alloc name ty (BinOp o x y) ;;
  add_used_vars self [x; y] ;;; ret self.

Definition new_Cast (name : string) (ty : IrType) (value : iref) : I iref :=
  assert_assignment value ;;;
  self <- alloc name ty (Cast value) ;;
  add_used_vars self [value] ;;; ret self.

Definition new_Id (name : string) (ty : IrType) (value : iref) : I iref :=
  assert_assignment value ;;;
  self <- alloc name ty (Id value) ;;
  add_used_vars self [value] ;;; ret self.


Definition new_ProcedureCall (callee : string) (params : list iref) : I iref :=
  for_each params assert_assignment ;;;
  self <- alloc "" VOID (ProcedureCall callee params) ;;
  add_used_vars self params ;;; ret self.

Definition new_Phi (name : string) (ty : IrType) : I iref :=
  alloc name ty (Phi []).

Definition new_Ubr (to_block : bref) : I iref :=
  alloc "" VOID (Ubr to_block).

Definition new_Cbr (cond : iref) (true_block false_block : bref) : I iref :=
  assert_assignment cond ;;;
  self <- alloc "" VOID (Cbr cond true_block false_block) ;;
  add_used_vars self [cond] ;;; ret self.

Definition new_Return (ty : IrType) (value : iref) : I iref :=
  assert_assignment value ;;;
  self <- alloc "" ty (Return value) ;;
  add_used_vars self [value] ;;; ret self.

(** [Phi.add_input]; [None] stands for Python's [None]. *)
Definition add_input (self : iref) (value : option iref) : I unit :=
  match value with
  | None => raise AssertionError
  | Some v =>
      o <- load v ;;
      assert (is_assignment (i_body o)) ;;;
      assert (bool_decide (is_Some (i_block o))) ;;;
      s <- load self ;;
      match i_body s with
      | Phi l => modify self (set_body (Phi (l ++ [v]))) ;;; add_used_vars self [v]
      | _ => stuck
      end
  end.
End InstructionMethods.

(** *** The methods of [Block] *)

Record Heap := mkHeap {
  h_instrs : list Instruction;
  h_blocks : list Block
}.

Section BlockMethods.
Variable depth : nat.

Local Abbreviation H := (M Heap).

(** An instruction method run on the heap: the blocks are read, not
    written. *)
Definition on_instrs {A} (m : list Block -> M (list Instruction) A) : H A :=
  fun h => match m (h_blocks h) (h_instrs h) with
           | Ok (a, ins) => Ok (a, mkHeap ins (h_blocks h))
           | Raise e => Raise e
           | Stuck => Stuck
           end.

Definition instr (i : iref) : H Instruction := on_instrs (fun _ => load i).
Definition update (i : iref) (f : Instruction -> Instruction) : H unit :=
  on_instrs (fun _ => modify i f).
Definition load_block (b : bref) : H Block :=
  fun h => match h_blocks h !! b with Some v => Ok (v, h) | None => Stuck end.
Definition modify_block (b : bref) (f : Block -> Block) : H unit :=
  fun h => match h_blocks h !! b with
           | Some v => Ok (tt, mkHeap (h_instrs h) (<[b := f v]> (h_blocks h)))
           | None => Stuck
           end.
Definition new_Block (name : string) : H bref :=
  fun h => Ok (length (h_blocks h),
               mkHeap (h_instrs h) (h_blocks h ++ [mkBlock name [] [] [] []])).

Definition listed (l : list iref) (x : iref) : H bool :=
  on_instrs (fun bs => contains bs depth l x).
Definition block_listed (l : list bref) (b : bref) : H bool :=
  fun h => pure (block_in (h_blocks h) (h_instrs h) depth l b) h.

Definition add_phi_instr (self : bref) (phi : iref) : H iref :=
  p <- instr phi ;;
  assert (is_phi (i_body p)) ;;;
  update phi (set_block (Some self)) ;;;
  modify_block self (fun b => set_phis (b_phis b ++ [phi]) b) ;;;
  ret phi.

Definition add_instr (self : bref) (i : iref) : H iref :=
  update i (set_block (Some self)) ;;;
  modify_block self (fun b => set_instrs (b_instrs b ++ [i]) b) ;;;
  ret i.

Definition insert_instr (self : bref) (i : iref) (loc : nat) : H iref :=
  update i (set_block (Some self)) ;;;
  modify_block self (fun b => set_instrs (list_insert_at loc i (b_instrs b)) b) ;;;
  ret i.

Definition replace_instr (self : bref) (old_instr new_instr : iref) : H unit :=
  b <- load_block self ;;
  present <- listed (b_instrs b) old_instr ;;
  assert present ;;;
  n <- instr new_instr ;;
  assert (negb (is_used n)) ;;;
  assert (negb (bool_decide (is_Some (i_block n)))) ;;;
  update new_instr (set_block (Some self)) ;;;
  pos <- on_instrs (fun bs => index_of bs depth (b_instrs b) old_instr) ;;
  modify_block self (fun b => set_instrs (list_insert_at pos new_instr (b_instrs b)) b) ;;;
  on_instrs (fun bs => replace_by bs depth old_instr (Some new_instr)) ;;;
  b <- load_block self ;;
  l <- on_instrs (fun bs => without bs depth (b_instrs b) old_instr) ;;
  modify_block self (set_instrs l).

Definition remove_instr (self : bref) (i : iref) : H unit :=
  b <- load_block self ;;
  present <- listed (b_instrs b) i ;;
  assert present ;;;
  v <- instr i ;;
  assert (negb (is_used v)) ;;;
  update i (set_block None) ;;;
  on_instrs (fun bs => remove_used_vars bs depth i (i_used_vars v)) ;;;
  b <- load_block self ;;
  l <- on_instrs (fun bs => without bs depth (b_instrs b) i) ;;
  modify_block self (set_instrs l).

(** [remove_phi_instr] hands the list [phi.used_vars] to
    [remove_used_vars] as its one argument; the loop there meets the list
    itself, which is no assignment instruction. *)
Definition remove_phi_instr (self : bref) (phi : iref) : H unit :=
  p <- instr phi ;;
  assert (is_phi (i_body p)) ;;;
  b <- load_block self ;;
  present <- listed (b_phis b) phi ;;
  assert present ;;;
  assert (negb (is_used p)) ;;;
  update phi (set_block None) ;;;
  raise AssertionError.

(** [add_pred] and [add_succ] call each other; the fuel bounds the depth
    of these calls. *)
Fixpoint add_pred (fuel : nat) (self block : bref) : H unit :=
  match fuel with
  | O => stuck
  | S fuel' =>
      modify_block self (fun b => set_preds (b_preds b ++ [block]) b) ;;;
      other <- load_block block ;;
      present <- block_listed (b_succs other) self ;;
      if present then ret tt else add_succ fuel' block self
  end
with add_succ (fuel : nat) (self block : bref) : H unit :=
  match fuel with
  | O => stuck
  | S fuel' =>
      modify_block self (fun b => set_succs (b_succs b ++ [block]) b) ;;;
      other <- load_block block ;;
      present <- block_listed (b_preds other) self ;;
      if present then ret tt else add_pred fuel' block self
  end.
End BlockMethods.

(** ** [ssa_constr.py]: the SSA builder *)

(** [SSADef]: the counter and the current definition per block name; a
    current definition can be Python's [None]. *)
Record SSADef := mkSSADef {
  count : nat;
  current_def : gmap string (option iref)
}.

(** The attributes of an [SSA] object.  The inner dictionaries of
    [incomplete_phis] are iterated, so they keep their insertion order. *)
Record SSA := mkSSA {
  variables : gmap string SSADef;
  incomplete_phis : gmap string (list (string * iref));
  sealed_blocks : gset string
}.

(** The IR together with the builder that constructs it. *)
Record World := mkWorld {
  ir : Heap;
  builder : SSA
}.

Definition set_variables (v : gmap string SSADef) (s : SSA) : SSA :=
  mkSSA v (incomplete_phis s) (sealed_blocks s).
Definition set_incomplete_phis (v : gmap string (list (string * iref))) (s : SSA) : SSA :=
  mkSSA (variables s) v (sealed_blocks s).
Definition set_sealed_blocks (v : gset string) (s : SSA) : SSA :=
  mkSSA (variables s) (incomplete_phis s) v.

(** [d[k] = v] on an insertion-ordered dictionary. *)
Fixpoint dict_set {V} (k : string) (v : V) (d : list (string * V)) : list (string * V) :=
  match d with
  | [] => [(k, v)]
  | (k', v') :: r => if bool_decide (k' = k) then (k, v) :: r else (k', v') :: dict_set k v r
  end.

Fixpoint dict_get {V} (k : string) (d : list (string * V)) : option V :=
  match d with
  | [] => None
  | (k', v') :: r => if bool_decide (k' = k) then Some v' else dict_get k r
  end.

Section SSAMethods.
Variable depth : nat.

Local Abbreviation W := (M World).

Definition on_ir {A} (m : M Heap A) : W A :=
  fun w => match m (ir w) with
           | Ok (a, h) => Ok (a, mkWorld h (builder w))
           | Raise e => Raise e
           | Stuck => Stuck
           end.
Definition on_builder (f : SSA -> SSA) : W unit :=
  fun w => Ok (tt, mkWorld (ir w) (f (builder w))).

Definition new_variable (i : iref) (block : bref) : W iref :=
  v <- on_ir (instr i) ;;
  assert (is_assignment (i_body v)) ;;;
  blk <- on_ir (load_block block) ;;
  w <- get ;;
  match variables (builder w) !! i_name v with
  | None =>
      on_builder (fun s => set_variables
        (<[i_name v := mkSSADef 0 {[b_name blk := Some i]}]> (variables s)) s) ;;;
      on_ir (update i (set_ssa_id (Some 0%nat))) ;;;
      ret i
  | Some d =>
      let c := S (count d) in
      on_ir (update i (set_ssa_id (Some c))) ;;;
      on_builder (fun s => set_variables
        (<[i_name v := mkSSADef c (<[b_name blk := Some i]> (current_def d))]> (variables s)) s) ;;;
      ret i
  end.

(** The scan of [remove_trivial_phi] over [phi.inputs].  [same] is
    [None] while Python's [same] is [None].  The answer is [None] when
    the phi merges two values, and [Some same] when it is trivial. *)
Fixpoint trivial_scan (inputs : list iref) (phi : iref) (same : option iref)
    : M Heap (option (option iref)) :=
  match inputs with
  | [] => ret (Some same)
  | param :: rest =>
      is_same <- match same with
                 | None => ret false
                 | Some s => fun h => pure (py_eq (h_blocks h) (h_instrs h) depth param s) h
                 end ;;
      skip <- (if is_same : bool then ret true
               else fun h => pure (py_eq (h_blocks h) (h_instrs h) depth param phi) h) ;;
      if skip : bool then trivial_scan rest phi same
      else match same with
           | Some _ => ret None
           | None => trivial_scan rest phi (Some param)
           end
  end.

(** The part of [remove_trivial_phi] after the scan has found the phi
    trivial: the phi leaves the phi list of its block, its users are
    handed to [same] by [replace_by], the current definitions that are
    the phi become [same], and the users that are phis are examined in
    turn by [recur]. *)
Definition remove_as_trivial (recur : iref -> W (option iref))
    (phi : iref) (p : Instruction) (same : option iref) : W (option iref) :=
  match i_block p with
  | None => raise AttributeError
  | Some b =>
      blk <- on_ir (load_block b) ;;
      l <- on_ir (on_instrs (fun bs => without bs depth (b_phis blk) phi)) ;;
      on_ir (modify_block b (set_phis l)) ;;;
      let users := filter (fun u => u ≠ phi) (i_users p) in
      on_ir (on_instrs (fun bs => replace_by bs depth phi same)) ;;;
      w <- get ;;
      match variables (builder w) !! i_name p with
      | None => raise KeyError
      | Some d =>
          let redirect v := if bool_decide (v = Some phi) then same else v in
          on_builder (fun s => set_variables
            (<[i_name p := mkSSADef (count d) (redirect <$> current_def d)]>
               (variables s)) s) ;;;
          for_each users (fun use =>
            u <- on_ir (instr use) ;;
            if is_phi (i_body u) then recur use ;;; ret tt else ret tt) ;;;
          ret same
      end
  end.

(** [remove_trivial_phi] calls itself on the phi users of a removed phi;
    the fuel bounds the depth of these calls. *)
Fixpoint remove_trivial_phi (fuel : nat) (phi : iref) : W (option iref) :=
  match fuel with
  | O => stuck
  | S fuel' =>
      p <- on_ir (instr phi) ;;
      match i_body p with
      | Phi inputs =>
          scan <- on_ir (trivial_scan inputs phi None) ;;
          match scan with
          | None => ret (Some phi)
          | Some same => remove_as_trivial (remove_trivial_phi fuel') phi p same
          end
      | _ => stuck
      end
  end.

(** The three methods that call one another; the fuel bounds the depth of
    these calls. *)
Fixpoint get_reaching_def (fuel : nat) (variable : string) (block : bref)
    : W (option iref) :=
  match fuel with
  | O => stuck
  | S fuel' =>
      w <- get ;;
      match variables (builder w) !! variable with
      | None => raise KeyError
      | Some d =>
          blk <- on_ir (load_block block) ;;
          match current_def d !! b_name blk with
          | Some r => ret r
          | None => get_reaching_def_recursive fuel' variable block
          end
      end
  end
with get_reaching_def_recursive (fuel : nat) (variable : string) (block : bref)
    : W (option iref) :=
  match fuel with
  | O => stuck
  | S fuel' =>
      blk <- on_ir (load_block block) ;;
      w <- get ;;
      if bool_decide (b_name blk ∈ sealed_blocks (builder w)) then
        match b_preds blk with
        | [pred] => get_reaching_def fuel' variable pred
        | _ =>
            phi <- on_ir (on_instrs (fun _ => new_Phi variable VOID)) ;;
            match variables (builder w) !! variable with
            | None => raise KeyError
            | Some d =>
                on_ir (update phi (set_ssa_id (Some (count d)))) ;;;
                on_ir (add_phi_instr block phi) ;;;
                new_variable phi block ;;;
                add_phi_operands fuel' variable phi
            end
        end
      else
        phi <- on_ir (on_instrs (fun _ => new_Phi variable VOID)) ;;
        on_ir (add_phi_instr block phi) ;;;
        new_variable phi block ;;;
        on_builder (fun s => set_incomplete_phis
          (<[b_name blk :=
               dict_set variable phi (default [] (incomplete_phis s !! b_name blk))]>
             (incomplete_phis s)) s) ;;;
        ret (Some phi)
  end
with add_phi_operands (fuel : nat) (variable : string) (phi : iref)
    : W (option iref) :=
  match fuel with
  | O => stuck
  | S fuel' =>
      p <- on_ir (instr phi) ;;
      match i_block p with
      | None => raise AttributeError
      | Some b =>
          blk <- on_ir (load_block b) ;;
          for_each (b_preds blk) (fun pred =>
            r <- get_reaching_def fuel' variable pred ;;
            on_ir (on_instrs (fun bs => add_input bs depth phi r))) ;;;
          remove_trivial_phi fuel' phi
      end
  end.

(** [add_sealed_block]: the loop runs over the dictionary
    [incomplete_phis[block.name]]; a dictionary that has changed size
    makes the next step of its iterator raise. *)
Definition add_sealed_block (fuel : nat) (block : bref) : W unit :=
  blk <- on_ir (load_block block) ;;
  w <- get ;;
  let entries := default [] (incomplete_phis (builder w) !! b_name blk) in
  let unchanged : W unit :=
    w <- get ;;
    if bool_decide (length (default [] (incomplete_phis (builder w) !! b_name blk))
                    = length entries)
    then ret tt else raise RuntimeError in
  for_each entries.*1 (fun variable =>
    unchanged ;;;
    w <- get ;;
    match dict_get variable (default [] (incomplete_phis (builder w) !! b_name blk)) with
    | Some phi => add_phi_operands fuel variable phi ;;; ret tt
    | None => raise KeyError
    end) ;;;
  unchanged ;;;
  on_builder (fun s => set_sealed_blocks ({[b_name blk]} ∪ sealed_blocks s) s).
End SSAMethods.

(** ** [opt/dia.py]: dead instruction elimination *)

(** The list object a generator expression of [DIA.run_pass] reads:
    [block.instrs], or the [used_vars] list of a removed instruction (the
    local [used_vars] is that very list, not a copy). *)
Inductive source :=
  | InstrsOf (b : bref)
  | UsedVarsOf (i : iref).

Section DIA.
Variable depth : nat.

Definition read_source (src : source) : M Heap (list iref) :=
  match src with
  | InstrsOf b => blk <- load_block b ;; ret (b_instrs blk)
  | UsedVarsOf i => v <- instr i ;; ret (i_used_vars v)
  end.

(** The condition of the generator expression over [src]. *)
Definition dead (src : source) (v : Instruction) : bool :=
  match src with
  | InstrsOf _ => is_assignment (i_body v) && negb (is_call (i_body v)) && negb (is_used v)
  | UsedVarsOf _ => negb (is_call (i_body v)) && negb (is_used v)
  end.

(** [remove_dead_instrs(instrs)] with the generator [instrs] at position
    [pos] of its list: the generator is advanced, and its condition
    evaluated, when the loop asks for the next item.  One unit of fuel
    per item looked at. *)
Fixpoint remove_dead_instrs (fuel : nat) (src : source) (pos : nat) : M Heap unit :=
  match fuel with
  | O => stuck
  | S fuel' =>
      l <- read_source src ;;
      match l !! pos with
      | None => ret tt
      | Some i =>
          v <- instr i ;;
          if dead src v then
            match i_block v with
            | None => raise AttributeError
            | Some b =>
                remove_instr depth b i ;;;
                remove_dead_instrs fuel' (UsedVarsOf i) 0 ;;;
                remove_dead_instrs fuel' src (S pos)
            end
          else remove_dead_instrs fuel' src (S pos)
      end
  end.

Definition DIA_run_pass (fuel : nat) (block : bref) : M Heap unit :=
  remove_dead_instrs fuel (InstrsOf block) 0.
End DIA.

(** ** [opt/lvn.py]: constant folding and local value numbering *)

(** The objects [LVN.run_pass] hands to the second and third parameter of
    [Value.__init__]. *)
Inductive pyval :=
  | PyBool (b : bool)
  | PyType (t : IrType).

(** Truth value: an enumeration member is true. *)
Definition truthy (v : pyval) : bool :=
  match v with PyBool b => b | PyType _ => true end.

Definition pyval_eq (a b : pyval) : bool :=
  match a, b with
  | PyBool x, PyBool y => bool_decide (x = y)
  | PyType s, PyType t => bool_decide (s = t)
  | _, _ => false
  end.

(** An item of the operand list of a [Value]: a value number, a constant's
    payload, an opcode, or a call instruction. *)
Inductive vparam :=
  | VNum (n : Z)
  | VStr (s : string)
  | VOp (o : Op)
  | VInstr (i : iref).

Record Value := mkValue {
  v_opcode_name : string;
  v_instr_type : pyval;
  v_params : list vparam
}.

Definition opcode_name (p : payload) : string :=
  match p with
  | Const _ => "const"
  | BinOp o _ _ => OpM.str o
  | Cast _ => "cast"
  | Id _ => "id"
  | FunctionCall _ _ => "fcall"
  | ProcedureCall _ _ => "pcall"
  | Phi _ => "phi"
  | Ubr _ => "ubr"
  | Cbr _ _ _ => "cbr"
  | Return _ => "return"
  end.

Definition ssa_str (o : option nat) : string :=
  match o with None => "None" | Some n => py_str (Z.of_nat n) end.

Definition var_str (ins : list Instruction) (i : iref) : result string :=
  match ins !! i with
  | Some v => Ok (String.concat "" ["%"; i_name v; "."; ssa_str (i_ssa_id v)])
  | None => Stuck
  end.

Fixpoint map_r {A B} (f : A -> result B) (l : list A) : result (list B) :=
  match l with
  | [] => Ok []
  | a :: r =>
      match f a with
      | Ok b => match map_r f r with
                | Ok bs => Ok (b :: bs)
                | Raise e => Raise e
                | Stuck => Stuck
                end
      | Raise e => Raise e
      | Stuck => Stuck
      end
  end.

(** [str(x)] for an item of the operand list; an instruction there is a
    [FunctionCall], printed by [FunctionCall.__str__]. *)
Definition vparam_str (ins : list Instruction) (x : vparam) : result string :=
  match x with
  | VNum n => Ok (py_str n)
  | VStr s => Ok s
  | VOp o => Ok (OpM.str o)
  | VInstr i =>
      match ins !! i with
      | Some v =>
          match i_body v with
          | FunctionCall c ps =>
              match var_str ins i, map_r (var_str ins) ps with
              | Ok self, Ok args =>
                  Ok (String.concat ""
                        [self; ": "; TypeM.str (i_type v); " = fcall "; c; "(";
                         String.concat ", " args; ")"])
              | _, _ => Stuck
              end
          | _ => Stuck
          end
      | None => Stuck
      end
  end.

(** [sorted(l, key=...)] on items paired with their keys: a stable sort
    by [<] on strings. *)
Fixpoint insert_by_key {A} (x : string * A) (l : list (string * A)) : list (string * A) :=
  match l with
  | [] => [x]
  | y :: r => if String.ltb (fst y) (fst x) then y :: insert_by_key x r else x :: y :: r
  end.

Definition sort_by_key {A} (l : list (string * A)) : list (string * A) :=
  foldr insert_by_key [] l.

Definition py_sorted_by_str (ins : list Instruction) (l : list vparam) : result (list vparam) :=
  match map_r (vparam_str ins) l with
  | Ok keys => Ok (sort_by_key (zip keys l)).*2
  | Raise e => Raise e
  | Stuck => Stuck
  end.

(** [Value.__init__(self, opcode_name, is_commutative, instr_type, params)]. *)
Definition Value_init (ins : list Instruction) (opcode : string)
    (is_commutative instr_type : pyval) (params : list vparam) : result Value :=
  if negb (truthy is_commutative) then Ok (mkValue opcode instr_type params)
  else match py_sorted_by_str ins params with
       | Ok l => Ok (mkValue opcode instr_type l)
       | Raise e => Raise e
       | Stuck => Stuck
       end.

(** Equality of two items of operand lists of hashed values; these hold no
    instruction (see [hashable]). *)
Definition vparam_eq (a b : vparam) : bool :=
  match a, b with
  | VNum m, VNum n => bool_decide (m = n)
  | VStr s, VStr t => bool_decide (s = t)
  | VOp o, VOp p => bool_decide (o = p)
  | _, _ => false
  end.

Fixpoint vparams_eq (l1 l2 : list vparam) : bool :=
  match l1, l2 with
  | [], [] => true
  | a :: r1, b :: r2 => vparam_eq a b && vparams_eq r1 r2
  | _, _ => false
  end.

(** [Value.__eq__]. *)
Definition Value_eq (a b : Value) : bool :=
  bool_decide (v_opcode_name a = v_opcode_name b)
  && pyval_eq (v_instr_type a) (v_instr_type b)
  && vparams_eq (v_params a) (v_params b).

(** [Value.__hash__] hashes the operand list item by item; [FunctionCall]
    defines [__eq__] and no [__hash__], so hashing one raises. *)
Definition hashable (v : Value) : bool :=
  forallb (fun x => match x with VInstr _ => false | _ => true end) (v_params v).

(** [value_table.get(self)] and [value_table[value] = number]. *)
Fixpoint table_get (v : Value) (t : list (Value * Z)) : option Z :=
  match t with
  | [] => None
  | (k, n) :: r => if Value_eq k v then Some n else table_get v r
  end.

Fixpoint table_set (v : Value) (n : Z) (t : list (Value * Z)) : list (Value * Z) :=
  match t with
  | [] => [(v, n)]
  | (k, m) :: r => if Value_eq k v then (k, n) :: r else (k, m) :: table_set v n r
  end.

Definition lookup_in (v : Value) (t : list (Value * Z)) : result (option Z) :=
  if hashable v then Ok (table_get v t) else Raise TypeError.

(** The dictionaries local to one run of [LVN.run_pass], and the counter
    kept in the [LVN] object. *)
Record Tables := mkTables {
  numberings : gmap (string * option nat) Z;
  value_table : list (Value * Z);
  name : gmap Z iref;
  num_count : Z
}.

Section LVN.
Variable depth : nat.

Fixpoint map_m {S A B} (f : A -> M S B) (l : list A) : M S (list B) :=
  match l with
  | [] => ret []
  | a :: r => b <- f a ;; bs <- map_m f r ;; ret (b :: bs)
  end.

(** [fold_instr(instr)]; [None] is the implicit [return None]. *)
Definition fold_instr (i : iref) : M Heap (option iref) :=
  v <- instr i ;;
  match i_body v with
  | BinOp o x y =>
      if in_ops o then
        vx <- instr x ;;
        vy <- instr y ;;
        match i_body vx, i_body vy with
        | Const sx, Const sy =>
            if bool_decide (is_Some (TypeM.bits (i_type vx)))
               && bool_decide (is_Some (TypeM.bits (i_type vy)))
            then
              match py_int sx with
              | None => raise ValueError
              | Some nx =>
                  match py_int sy with
                  | None => raise ValueError
                  | Some ny =>
                      folded <- pure (ops o nx ny (TypeM.bits (i_type v))
                                        (TypeM.is_signed (i_type v))) ;;
                      new_instr <- on_instrs (fun _ =>
                        new_Const (i_name v) (i_type v) (py_str folded)) ;;
                      update new_instr (set_ssa_id (i_ssa_id v)) ;;;
                      ret (Some new_instr)
                  end
              end
            else ret None
        | _, _ => ret None
        end
      else ret None
  | _ => ret None
  end.

(** [list(instr.operands)]. *)
Definition operands (p : payload) : result (list operand) :=
  map_r (get_operand_at p) (seq 0 (operand_num p)).

Definition as_name (v : Instruction) : string * option nat :=
  (i_name v, i_ssa_id v).

(** One item of the list handed to [Value]: the value number of an
    operand that is a non-call assignment instruction, else the operand. *)
Definition number_of (t : Tables) (x : operand) : M Heap vparam :=
  match x with
  | OInstr j =>
      vj <- instr j ;;
      if is_assignment (i_body vj) && negb (is_call (i_body vj)) then
        match numberings t !! as_name vj with
        | Some n => ret (VNum n)
        | None => raise KeyError
        end
      else ret (VInstr j)
  | OStr s => ret (VStr s)
  | OOp o => ret (VOp o)
  | OBlock _ => stuck
  end.

(** The loop over [enumerate(instr.operands)] of the branch that
    registers a new value: operand [idx] is read when the loop reaches
    it, [n] operands remain. *)
Fixpoint redirect_operands (t : Tables) (i : iref) (idx n : nat) : M Heap unit :=
  match n with
  | O => ret tt
  | S n' =>
      v <- instr i ;;
      param <- pure (get_operand_at (i_body v) idx) ;;
      match param with
      | OInstr p =>
          vp <- instr p ;;
          if is_assignment (i_body vp) then
            match numberings t !! as_name vp with
            | None => raise KeyError
            | Some k =>
                match name t !! k with
                | None => raise KeyError
                | Some new_instr =>
                    on_instrs (fun bs => set_operand_at bs depth i idx new_instr)
                end
            end
          else ret tt
      | _ => ret tt
      end ;;;
      redirect_operands t i (S idx) n'
  end.

(** The [Value] built for an instruction: [run_pass] passes the
    instruction's type where [Value.__init__] expects [is_commutative],
    and the commutativity test where it expects [instr_type]. *)
Definition fingerprint (t : Tables) (i : iref) : M Heap Value :=
  v <- instr i ;;
  xs <- pure (operands (i_body v)) ;;
  ps <- map_m (number_of t) xs ;;
  fun h => pure (Value_init (h_instrs h)
             (opcode_name (i_body v))
             (PyType (i_type v))
             (PyBool (match i_body v with
                      | BinOp o _ _ => OpM.is_commutative o
                      | _ => false
                      end))
             ps) h.

(** [if number:] on the answer of [lookup_in]: [None] and [0] are false. *)
Definition found (number : option Z) : option Z :=
  match number with
  | Some n => if bool_decide (n = 0) then None else Some n
  | None => None
  end.

(** The body of the loop of [run_pass] for one item of [block.instrs]. *)
Definition visit (block : bref) (t : Tables) (i0 : iref) : M Heap Tables :=
  v0 <- instr i0 ;;
  if is_assignment (i_body v0) then
    folded <- fold_instr i0 ;;
    i <- match folded with
         | Some f =>
             match i_block v0 with
             | None => raise AttributeError
             | Some b => replace_instr depth b i0 f ;;; ret f
             end
         | None => ret i0
         end ;;
    value <- fingerprint t i ;;
    v <- instr i ;;
    number <- pure (lookup_in value (value_table t)) ;;
    match found number with
    | Some n =>
        match name t !! n with
        | None => raise KeyError
        | Some canonical =>
            new_instr <- on_instrs (fun bs =>
              new_Id bs depth (i_name v) (i_type v) canonical) ;;
            update new_instr (set_ssa_id (i_ssa_id v)) ;;;
            replace_instr depth block i new_instr ;;;
            ret (mkTables (<[as_name v := n]> (numberings t))
                   (value_table t) (name t) (num_count t))
        end
    | None =>
        let n := num_count t + 1 in
        let t' := mkTables (numberings t) (table_set value n (value_table t))
                    (<[n := i]> (name t)) n in
        redirect_operands t' i 0 (operand_num (i_body v)) ;;;
        ret (mkTables (<[as_name v := n]> (numberings t'))
               (value_table t') (name t') (num_count t'))
    end
  else ret t.

(** [for instr in block.instrs]: the list is read again at each step.
    Replacing an instruction keeps its length, so [n], the length on
    entry, bounds the number of steps. *)
Fixpoint scan_block (n : nat) (block : bref) (pos : nat) (t : Tables) : M Heap Tables :=
  match n with
  | O => ret t
  | S n' =>
      blk <- load_block block ;;
      match b_instrs blk !! pos with
      | None => ret t
      | Some i => t' <- visit block t i ;; scan_block n' block (S pos) t'
      end
  end.

(** [LVN.run_pass(block)] on an [LVN] object whose counter is
    [counter]; the answer is the counter afterwards. *)
Definition LVN_run_pass (fuel : nat) (counter : Z) (block : bref) : M Heap Z :=
  blk <- load_block block ;;
  t <- scan_block (length (b_instrs blk)) block 0 (mkTables ∅ [] ∅ counter) ;;
  DIA_run_pass depth fuel block ;;;
  ret (num_count t).

(** [LVN.__init__]. *)
Definition LVN_init : Z := -1.
End LVN.

(** ** [opt/manager.py]: the pass manager *)

Module Manager.
(** The pass classes of the repository, and [object] for anything else. *)
Inductive class :=
  | Pass | ModulePass | FunctionPass | BlockPass | InstructionPass
  | LVN | DIA | object.

(** What a caller can hand to [register_pass]: a class, or an instance of
    a class. *)
Inductive pyobj :=
  | Class (c : class)
  | Instance (c : class).

Definition base (c : class) : option class :=
  match c with
  | Pass => Some object
  | ModulePass | FunctionPass | BlockPass | InstructionPass => Some Pass
  | LVN | DIA => Some BlockPass
  | object => None
  end.

#[export] Instance class_eq_dec : EqDecision class.
Proof. solve_decision. Defined.

(** [issubclass(c, k)] on two classes: the hierarchy is three levels
    deep. *)
Definition subclass (c k : class) : bool :=
  bool_decide (c = k)
  || match base c with
     | Some c1 =>
         bool_decide (c1 = k)
         || match base c1 with
            | Some c2 =>
                bool_decide (c2 = k)
                || match base c2 with
                   | Some c3 => bool_decide (c3 = k)
                   | None => false
                   end
            | None => false
            end
     | None => false
     end.

(** [issubclass(p, k)]: a first argument that is no class raises. *)
Definition issubclass (p : pyobj) (k : class) : result bool :=
  match p with
  | Class c => Ok (subclass c k)
  | Instance _ => Raise TypeError
  end.

(** [isinstance(p, k)]: a class object is an instance of [type], which
    is none of the pass classes. *)
Definition isinstance (p : pyobj) (k : class) : bool :=
  match p with
  | Instance c => subclass c k
  | Class _ => bool_decide (k = object)
  end.

Record PassManager := mkPassManager {
  _module_passes : list pyobj;
  _function_passes : list pyobj;
  _basic_block_passes : list pyobj;
  _instruction_passes : list pyobj
}.

(** [PassManager.__init__]. *)
Definition init : PassManager := mkPassManager [] [] [] [].

Definition register_pass (pm : PassManager) (p : pyobj) : result PassManager :=
  match issubclass p Pass with
  | Ok true =>
      if isinstance p ModulePass then
        Ok (mkPassManager (_module_passes pm ++ [p]) (_function_passes pm)
              (_basic_block_passes pm) (_instruction_passes pm))
      else if isinstance p FunctionPass then
        Ok (mkPassManager (_module_passes pm) (_function_passes pm ++ [p])
              (_basic_block_passes pm) (_instruction_passes pm))
      else if isinstance p BlockPass then
        Ok (mkPassManager (_module_passes pm) (_function_passes pm)
              (_basic_block_passes pm ++ [p]) (_instruction_passes pm))
      else if isinstance p InstructionPass then
        Ok (mkPassManager (_module_passes pm) (_function_passes pm)
              (_basic_block_passes pm) (_instruction_passes pm ++ [p]))
      else Ok pm
  | Ok false => Raise AssertionError
  | Raise e => Raise e
  | Stuck => Stuck
  end.

(** A [Module] as [run_passes] sees it: its subroutines, each with the
    blocks it owns. *)
Record Module := mkModule {
  m_name : string;
  subroutines : list (string * list bref)
}.

(** What a pass was run on. *)
Inductive item :=
  | OnModule (m : string)
  | OnSubroutine (s : string)
  | OnBlock (b : bref)
  | OnInstruction (i : iref).

(** [p(x)] for a registered [p]: a pass class takes no argument when
    called, and a pass instance cannot be called. *)
Definition call (p : pyobj) (x : item) : result unit :=
  match p with
  | Class _ => Raise TypeError
  | Instance _ => Raise TypeError
  end.

(** The runs made so far, and how the code went on. *)
Definition traced (A : Type) : Type := list (pyobj * item) * result A.

(** [for p in ps: p(x)], after the runs [tr]. *)
Fixpoint call_all (ps : list pyobj) (x : item) (tr : list (pyobj * item)) : traced unit :=
  match ps with
  | [] => (tr, Ok tt)
  | p :: r => match call p x with
              | Ok _ => call_all r x (tr ++ [(p, x)])
              | Raise e => (tr, Raise e)
              | Stuck => (tr, Stuck)
              end
  end.

(** [module.functions]: a [Module] has [name] and [subroutines], and no
    attribute of that name. *)
Definition functions (m : Module) : result (list (string * list bref)) :=
  Raise AttributeError.

(** [for x in xs: body x], threading the runs. *)
Fixpoint for_traced {A} (xs : list A) (body : A -> list (pyobj * item) -> traced unit)
    (tr : list (pyobj * item)) : traced unit :=
  match xs with
  | [] => (tr, Ok tt)
  | x :: r => match body x tr with
              | (tr', Ok _) => for_traced r body tr'
              | other => other
              end
  end.

(** [run_passes(module)]: the module passes, then per function the
    function passes, then per block the block passes.  The instruction
    passes are not reached: iterating the dictionary [function.blocks]
    gives block names, and a name has no [instrs]. *)
Definition run_passes (pm : PassManager) (m : Module) : traced unit :=
  match call_all (_module_passes pm) (OnModule (m_name m)) [] with
  | (tr, Ok _) =>
      match functions m with
      | Ok fs =>
          for_traced fs (fun f tr =>
            match call_all (_function_passes pm) (OnSubroutine (fst f)) tr with
            | (tr, Ok _) =>
                for_traced (snd f) (fun b tr =>
                  match call_all (_basic_block_passes pm) (OnBlock b) tr with
                  | (tr, Ok _) => (tr, Raise AttributeError)
                  | other => other
                  end) tr
            | other => other
            end) tr
      | Raise e => (tr, Raise e)
      | Stuck => (tr, Stuck)
      end
  | other => other
  end.

(** A sequence of [register_pass] calls on one manager. *)
Fixpoint register_all (pm : PassManager) (ps : list pyobj) : result PassManager :=
  match ps with
  | [] => Ok pm
  | p :: r => match register_pass pm p with
              | Ok pm' => register_all pm' r
              | Raise e => Raise e
              | Stuck => Stuck
              end
  end.
End Manager.

(** ** Programs used as examples

    Each is written with the constructors and methods above, the way a
    front end calls them. *)

(** Depth allowed to the [__eq__] calls of the examples. *)
Definition eq_depth : nat := 32.

Definition empty_heap : Heap := mkHeap [] [].
Definition fresh_world : World := mkWorld empty_heap (mkSSA ∅ ∅ ∅).

(** The state a program leaves, when it ends without raising. *)
Definition final {S A} (m : M S A) (s : S) : S :=
  match m s with Ok (_, s') => s' | _ => s end.

(** [block.add_instr(ssa.new_variable(<new instruction>, block))]. *)
Definition emit (block : bref) (mk : list Block -> M (list Instruction) iref)
    : M World iref :=
  i <- on_ir (on_instrs mk) ;;
  i <- new_variable i block ;;
  on_ir (add_instr block i).

(** [i = const 1 : i32; j = const 0 : i32; k = mod i j : i32]; the answer
    is [k]. *)
Definition mod_by_zero : M Heap iref :=
  i <- on_instrs (fun _ => new_Const "i" I32 "1") ;;
  j <- on_instrs (fun _ => new_Const "j" I32 "0") ;;
  on_instrs (fun bs => new_BinOp bs eq_depth "k" I32 MOD i j).

(** [i = const 100 : u8; j = const 100 : u8; k = add i j : u8]. *)
Definition add_u8 : M Heap iref :=
  i <- on_instrs (fun _ => new_Const "i" U8 "100") ;;
  j <- on_instrs (fun _ => new_Const "j" U8 "100") ;;
  on_instrs (fun bs => new_BinOp bs eq_depth "k" U8 ADD i j).

(** ** The claims' reference notions *)

(** The operation of a foldable opcode on unbounded integers. *)
Definition exact_op (o : Op) (x y : Z) : Z :=
  match o with
  | ADD => x + y
  | SUB => x - y
  | MUL => x * y
  | MOD => x mod y
  | LSH => x * 2 ^ y
  | RSH => x / 2 ^ y
  | _ => 0
  end.

(** Reduction modulo [base = 1 << bits], then subtraction of [base] when
    the type is signed and the top bit of the low [bits] bits is set. *)
Definition two_complement (v bits : Z) (signed : bool) : Z :=
  let base := 2 ^ bits in
  let low := v mod base in
  if signed && Z.testbit low (bits - 1) then low - base else low.

(** Two blocks [a] and [b], and [b.add_pred(a)] twice. *)
Definition dup_pred : M Heap unit :=
  a <- new_Block "a" ;;
  b <- new_Block "b" ;;
  add_pred eq_depth 2 b a ;;;
  add_pred eq_depth 2 b a.

(** A block holding [a = const 1], and [replace_instr] of it by a new
    [a = const 2]; the answer is the pair of the old and the new
    instruction. *)
Definition replace_const : M Heap (iref * iref) :=
  bb <- new_Block "bb0" ;;
  a <- on_instrs (fun _ => new_Const "a" I32 "1") ;;
  add_instr bb a ;;;
  n <- on_instrs (fun _ => new_Const "a" I32 "2") ;;
  replace_instr eq_depth bb a n ;;;
  ret (a, n).

(** A block holding [x = const 1] and, in its phi list, a phi for [x]
    whose one input is that constant; the answer is the phi. *)
Definition lone_phi : M World iref :=
  bb <- on_ir (new_Block "bb0") ;;
  a <- emit bb (fun _ => new_Const "x" I32 "1") ;;
  phi <- on_ir (on_instrs (fun _ => new_Phi "x" VOID)) ;;
  on_ir (add_phi_instr bb phi) ;;;
  new_variable phi bb ;;;
  on_ir (on_instrs (fun bs => add_input bs eq_depth phi (Some a))) ;;;
  ret phi.

(** Two phis for [x] in one block, each with the input [x = const 1]; the
    answer is the second. *)
Definition twin_phis : M World iref :=
  bb <- on_ir (new_Block "bb0") ;;
  a <- emit bb (fun _ => new_Const "x" I32 "1") ;;
  p1 <- on_ir (on_instrs (fun _ => new_Phi "x" VOID)) ;;
  on_ir (add_phi_instr bb p1) ;;;
  new_variable p1 bb ;;;
  on_ir (on_instrs (fun bs => add_input bs eq_depth p1 (Some a))) ;;;
  p2 <- on_ir (on_instrs (fun _ => new_Phi "x" VOID)) ;;
  on_ir (add_phi_instr bb p2) ;;;
  new_variable p2 bb ;;;
  on_ir (on_instrs (fun bs => add_input bs eq_depth p2 (Some a))) ;;;
  ret p2.

(** [a = const 1; b = id a], nothing reading [b]; the answer is the
    block. *)
Definition dead_chain : M World bref :=
  bb <- on_ir (new_Block "bb0") ;;
  a <- emit bb (fun _ => new_Const "a" I32 "1") ;;
  emit bb (fun bs => new_Id bs eq_depth "b" I32 a) ;;;
  ret bb.

(** [a = const 1; b = const 2], nothing reading either. *)
Definition dead_pair : M World bref :=
  bb <- on_ir (new_Block "bb0") ;;
  emit bb (fun _ => new_Const "a" I32 "1") ;;;
  emit bb (fun _ => new_Const "b" I32 "2") ;;;
  ret bb.

(** [x = const 1; y = const 1; pcall f(x, y)]. *)
Definition twin_consts : M World bref :=
  bb <- on_ir (new_Block "bb0") ;;
  x <- emit bb (fun _ => new_Const "x" I32 "1") ;;
  y <- emit bb (fun _ => new_Const "y" I32 "1") ;;
  p <- on_ir (on_instrs (fun bs => new_ProcedureCall bs eq_depth "f" [x; y])) ;;
  on_ir (add_instr bb p) ;;;
  ret bb.

(** [a = const 1; b = const 2; x = cast a; y = cast b; c = sub x y;
    d = sub y x; pcall f(c, d)]. *)
Definition swapped_sub : M World bref :=
  bb <- on_ir (new_Block "bb0") ;;
  a <- emit bb (fun _ => new_Const "a" I32 "1") ;;
  b <- emit bb (fun _ => new_Const "b" I32 "2") ;;
  x <- emit bb (fun bs => new_Cast bs eq_depth "x" I64 a) ;;
  y <- emit bb (fun bs => new_Cast bs eq_depth "y" I64 b) ;;
  c <- emit bb (fun bs => new_BinOp bs eq_depth "c" I64 SUB x y) ;;
  d <- emit bb (fun bs => new_BinOp bs eq_depth "d" I64 SUB y x) ;;
  p <- on_ir (on_instrs (fun bs => new_ProcedureCall bs eq_depth "f" [c; d])) ;;
  on_ir (add_instr bb p) ;;;
  ret bb.

(** What the examples are asked about the IR they leave. *)
Definition instrs_of (h : Heap) (b : bref) : option (list iref) :=
  b_instrs <$> h_blocks h !! b.
Definition phis_of (h : Heap) (b : bref) : option (list iref) :=
  b_phis <$> h_blocks h !! b.
Definition preds_of (h : Heap) (b : bref) : option (list bref) :=
  b_preds <$> h_blocks h !! b.
Definition succs_of (h : Heap) (b : bref) : option (list bref) :=
  b_succs <$> h_blocks h !! b.
Definition body_of (h : Heap) (i : iref) : option payload :=
  i_body <$> h_instrs h !! i.
Definition block_of (h : Heap) (i : iref) : option (option bref) :=
  i_block <$> h_instrs h !! i.
Definition users_of (h : Heap) (i : iref) : option (list iref) :=
  i_users <$> h_instrs h !! i.

(** ** CFG edges: sequences of [add_pred] and [add_succ] calls *)

Inductive edge_call :=
  | AddPred (self block : nat)
  | AddSucc (self block : nat).

Definition run_edge_call (depth fuel : nat) (c : edge_call) : M Heap unit :=
  match c with
  | AddPred self block => add_pred depth fuel self block
  | AddSucc self block => add_succ depth fuel self block
  end.

Definition in_range (h : Heap) (c : edge_call) : Prop :=
  match c with
  | AddPred self block | AddSucc self block =>
      (self < length (h_blocks h))%nat /\ (block < length (h_blocks h))%nat
  end.

Definition edges_symmetric (bs : list Block) : Prop :=
  forall a b x y, bs !! a = Some x -> bs !! b = Some y ->
    (a ∈ b_preds y <-> b ∈ b_succs x).

Definition edges_closed (bs : list Block) : Prop :=
  forall b x, bs !! b = Some x ->
    Forall (fun p => (p < length bs)%nat) (b_preds x)
    /\ Forall (fun s => (s < length bs)%nat) (b_succs x).

Definition names_distinct (bs : list Block) : Prop := NoDup (b_name <$> bs).

Definition with_pred (self block : nat) (bs : list Block) : list Block :=
  alter (fun b => set_preds (b_preds b ++ [block]) b) self bs.
Definition with_succ (self block : nat) (bs : list Block) : list Block :=
  alter (fun b => set_succs (b_succs b ++ [block]) b) self bs.

(** The blocks after [self.add_pred(block)]. *)
Definition after_add_pred (self block : nat) (bs : list Block) : list Block :=
  match bs !! block with
  | Some other =>
      if bool_decide (self ∈ b_succs other) then with_pred self block bs
      else with_succ block self (with_pred self block bs)
  | None => bs
  end.

Definition after_add_succ (self block : nat) (bs : list Block) : list Block :=
  match bs !! block with
  | Some other =>
      if bool_decide (self ∈ b_preds other) then with_succ self block bs
      else with_pred block self (with_succ self block bs)
  | None => bs
  end.

(** The blocks after one call. *)
Definition after_call (bs : list Block) (c : edge_call) : list Block :=
  match c with
  | AddPred self block => after_add_pred self block bs
  | AddSucc self block => after_add_succ self block bs
  end.

Definition is_add_pred (c : edge_call) : Prop :=
  match c with AddPred _ _ => True | AddSucc _ _ => False end.

Definition succs_nodup (bs : list Block) : Prop :=
  forall b x, bs !! b = Some x -> NoDup (b_succs x).

(** Two detached blocks [a] and [b] without edges. *)
Definition two_blocks : Heap :=
  final (new_Block "a" ;;; new_Block "b") empty_heap.

(** ** Notions used to state what the builder preserves *)

(** From [w] to [w']: the sealed set, the blocks' names and predecessor
    lists are the same, and the phi list of a block selected by [P] has
    lost items at most. *)
Definition frame (P : nat -> Prop) (w w' : World) : Prop :=
  sealed_blocks (builder w') = sealed_blocks (builder w)
  /\ forall b blk, h_blocks (ir w) !! b = Some blk ->
       exists blk', h_blocks (ir w') !! b = Some blk'
         /\ b_name blk' = b_name blk /\ b_preds blk' = b_preds blk
         /\ (P b -> b_phis blk' `sublist_of` b_phis blk).

Abbreviation anywhere := (fun _ : nat => True).

Definition sealed_single (block : nat) (w : World) : Prop :=
  exists blk, h_blocks (ir w) !! block = Some blk
    /\ b_name blk ∈ sealed_blocks (builder w)
    /\ length (b_preds blk) = 1%nat.

Abbreviation only b := (fun k : nat => k = b).

(** bb0 holds [i = const 1] and is sealed; bb1 has the one predecessor
    bb0 and is sealed. *)
Definition linear : World :=
  final (bb0 <- on_ir (new_Block "bb0") ;;
         bb1 <- on_ir (new_Block "bb1") ;;
         add_sealed_block eq_depth 4 bb0 ;;;
         emit bb0 (fun _ => new_Const "i" I32 "1") ;;;
         on_ir (add_pred eq_depth 2 bb1 bb0) ;;;
         add_sealed_block eq_depth 4 bb1) fresh_world.

(** bb1 holds [x = const 1], bb2 holds [x = const v]; bb3 has a phi for
    [x] with these two inputs, read by [l = id x] in bb3.  The answer is
    the phi. *)
Definition merge_of (v : string) : M World nat :=
  bb1 <- on_ir (new_Block "bb1") ;;
  bb2 <- on_ir (new_Block "bb2") ;;
  bb3 <- on_ir (new_Block "bb3") ;;
  c1 <- emit bb1 (fun _ => new_Const "x" I32 "1") ;;
  c2 <- emit bb2 (fun _ => new_Const "x" I32 v) ;;
  phi <- on_ir (on_instrs (fun _ => new_Phi "x" VOID)) ;;
  on_ir (add_phi_instr bb3 phi) ;;;
  new_variable phi bb3 ;;;
  on_ir (on_instrs (fun bs => add_input bs eq_depth phi (Some c1))) ;;;
  on_ir (on_instrs (fun bs => add_input bs eq_depth phi (Some c2))) ;;;
  emit bb3 (fun bs => new_Id bs eq_depth "l" I32 phi) ;;;
  ret phi.

(** [replace_use(old, new)] on the operand fields of a class other than
    [Phi]: [BinOp] and the calls replace the fields that are [old], the
    classes with one instruction operand store [new]. *)
Definition redirect (old new : nat) (p : payload) : payload :=
  let swap v := if bool_decide (v = old) then new else v in
  match p with
  | BinOp o x y => BinOp o (swap x) (swap y)
  | Cast _ => Cast new
  | Id _ => Id new
  | Return _ => Return new
  | Cbr _ t f => Cbr new t f
  | FunctionCall c ps => FunctionCall c (swap <$> ps)
  | ProcedureCall c ps => ProcedureCall c (swap <$> ps)
  | Const _ | Ubr _ | Phi _ => p
  end.

(** Same objects, same value of the field (or fields) that [proj] reads. *)
Definition same_on {X} (proj : Instruction -> X) (ins ins' : list Instruction) : Prop :=
  length ins' = length ins
  /\ forall k v, ins !! k = Some v -> exists v', ins' !! k = Some v' /\ proj v' = proj v.

(** The IR and builder that [merge_of "1"] leaves, and what
    [remove_trivial_phi] makes of them. *)
Definition merged : World := final (merge_of "1") fresh_world.

Definition merged_then_removed : World := final (remove_trivial_phi eq_depth 3 2) merged.

(** Blocks [a], [b] and a second block named [b]; [add_pred(a)] on the
    first [b], then on the second. *)
Definition twin_blocks : M Heap unit :=
  a <- new_Block "a" ;;
  b <- new_Block "b" ;;
  b' <- new_Block "b" ;;
  add_pred eq_depth 2 b a ;;;
  add_pred eq_depth 2 b' a.

(** A phi that merges two values, as the scan of [remove_trivial_phi]
    meets them: a first input [p] that is not equal ([==]) to the phi,
    after inputs that all equal the phi; then a later input [q] equal
    neither to [p] nor to the phi, every input between the two being equal
    to [p], or else to the phi. *)
Definition merges_two (depth : nat) (h : Heap) (phi : iref) (inputs : list iref) : Prop :=
  let eq := py_eq (h_blocks h) (h_instrs h) depth in
  exists l0 p l1 q rest,
    inputs = l0 ++ p :: l1 ++ q :: rest
    /\ Forall (fun x => eq x phi = Ok true) l0
    /\ eq p phi = Ok false
    /\ Forall (fun x => eq x p = Ok true \/ (eq x p = Ok false /\ eq x phi = Ok true)) l1
    /\ eq q p = Ok false
    /\ eq q phi = Ok false.

(** bb1 and bb2 hold [x = const 1]; bb3 has the phi of the two; bb4 and
    bb5 each hold a copy [l = id x] of the phi.  The answer is the phi. *)
Definition equal_readers : M World iref :=
  bb1 <- on_ir (new_Block "bb1") ;;
  bb2 <- on_ir (new_Block "bb2") ;;
  bb3 <- on_ir (new_Block "bb3") ;;
  bb4 <- on_ir (new_Block "bb4") ;;
  bb5 <- on_ir (new_Block "bb5") ;;
  c1 <- emit bb1 (fun _ => new_Const "x" I32 "1") ;;
  c2 <- emit bb2 (fun _ => new_Const "x" I32 "1") ;;
  phi <- on_ir (on_instrs (fun _ => new_Phi "x" VOID)) ;;
  on_ir (add_phi_instr bb3 phi) ;;;
  new_variable phi bb3 ;;;
  on_ir (on_instrs (fun bs => add_input bs eq_depth phi (Some c1))) ;;;
  on_ir (on_instrs (fun bs => add_input bs eq_depth phi (Some c2))) ;;;
  emit bb4 (fun bs => new_Id bs eq_depth "l" I32 phi) ;;;
  emit bb5 (fun bs => new_Id bs eq_depth "l" I32 phi) ;;;
  ret phi.

(** ** Further examples and notions *)





(** * Properties *)

(** ** Stepping through monadic code *)

Lemma bind_unfold {S A B} (m : M S A) (k : A -> M S B) (s : S) :
  bind m k s = match m s with
               | Ok (a, s') => k a s'
               | Raise e => Raise e
               | Stuck => Stuck
               end.
Proof. reflexivity. Qed.

Lemma instr_lookup (i : nat) (h : Heap) :
  instr i h = match h_instrs h !! i with Some v => Ok (v, h) | None => Stuck end.
Proof. destruct h. unfold instr, on_instrs, load. cbn. by destruct (_ !! _). Qed.

Lemma update_lookup (i : nat) (f : Instruction -> Instruction) (h : Heap) :
  update i f h = match h_instrs h !! i with
                 | Some v => Ok (tt, mkHeap (<[i := f v]> (h_instrs h)) (h_blocks h))
                 | None => Stuck
                 end.
Proof. unfold update, on_instrs, modify. cbn. by destruct (_ !! _). Qed.

(** ** Constant folding *)

Lemma bit_length_top (r b : Z) :
  0 < b -> 0 <= r < 2 ^ b -> (bit_length r =? b) = Z.testbit r (b - 1).
Proof.
  intros Hb [Hr0 Hr1]. unfold bit_length.
  destruct (Z.eqb_spec r 0) as [->|Hne].
  - rewrite Z.bits_0. apply Z.eqb_neq. lia.
  - assert (Hpos : 0 < r) by lia.
    rewrite Z.abs_eq by lia.
    assert (Hlog : Z.log2 r < b) by (apply Z.log2_lt_pow2; lia).
    destruct (Z.testbit r (b - 1)) eqn:Hbit.
    + apply Z.eqb_eq.
      assert (b - 1 <= Z.log2 r); [|lia].
      apply Z.nlt_ge. intros Hlt.
      rewrite Z.bits_above_log2 in Hbit; [discriminate|lia|lia].
    + apply Z.eqb_neq. intros Heq.
      assert (Hl : Z.log2 r = b - 1) by lia.
      rewrite <- Hl in Hbit. rewrite Z.bit_log2 in Hbit; [discriminate|lia].
Qed.

(** [wrap] is the two's-complement reduction, at any positive width. *)
Lemma wrap_two_complement (v b : Z) (signed : bool) :
  0 < b -> wrap v b signed = two_complement v b signed.
Proof.
  intros Hb. unfold wrap, two_complement. rewrite Z.shiftl_1_l. cbn zeta.
  assert (0 < 2 ^ b) by (apply Z.pow_pos_nonneg; lia).
  rewrite bit_length_top; [done|lia|]. apply Z.mod_pos_bound. lia.
Qed.


Lemma bits_positive (t : IrType) (b : Z) : TypeM.bits t = Some b -> 0 < b.
Proof. destruct t; simpl; intros [= <-]; lia. Qed.

Lemma py_operator_exact (o : Op) (x y : Z) :
  in_ops o = true -> (o = MOD -> y <> 0) -> (o = LSH \/ o = RSH -> 0 <= y) ->
  py_operator o x y = Ok (exact_op o x y).
Proof.
  intros Hin Hmod Hsh. destruct o; try discriminate; simpl; try done.
  - destruct (Z.eqb_spec y 0); [exfalso; by apply Hmod|done].
  - assert (0 <= y) by (apply Hsh; by left).
    destruct (Z.ltb_spec y 0); [lia|]. by rewrite Z.shiftl_mul_pow2 by lia.
  - assert (0 <= y) by (apply Hsh; by right).
    destruct (Z.ltb_spec y 0); [lia|]. by rewrite Z.shiftr_div_pow2 by lia.
Qed.

(** C2 (as stated, refuted): [k = mod i j] with [i = const 1] and
    [j = const 0], both of type [i32], is a [BinOp] with a foldable opcode
    and two [Const] operands of a type with a bit-width; folding it raises
    [ZeroDivisionError] and yields no [Const]. *)
Lemma fold_mod_by_zero_raises :
  (k <- mod_by_zero ;; fold_instr k) empty_heap = Raise ZeroDivisionError.
Proof. vm_compute. reflexivity. Qed.

(** C2 (amended): a [BinOp] with a foldable opcode, whose operands are
    [Const]s of types with a bit-width and integer payloads on which the
    operation is defined (non-zero divisor for MOD, non-negative count for
    the shifts), and whose own type has a bit-width [b], folds to a new
    detached [Const] that has the name, type and [ssa_id] of the [BinOp];
    its payload is the decimal string of the exact result reduced modulo
    [2^b], less [2^b] when the type's [is_signed] flag is set and bit
    [b - 1] of the reduced value is set. *)
Theorem fold_instr_wraps (h : Heap) (i x y : nat) (v vx vy : Instruction)
    (o : Op) (sx sy : string) (nx ny b : Z) :
  h_instrs h !! i = Some v -> i_body v = BinOp o x y -> in_ops o = true ->
  h_instrs h !! x = Some vx -> i_body vx = Const sx -> is_Some (TypeM.bits (i_type vx)) ->
  h_instrs h !! y = Some vy -> i_body vy = Const sy -> is_Some (TypeM.bits (i_type vy)) ->
  py_int sx = Some nx -> py_int sy = Some ny ->
  (o = MOD -> ny <> 0) -> (o = LSH \/ o = RSH -> 0 <= ny) ->
  TypeM.bits (i_type v) = Some b ->
  fold_instr i h =
    Ok (Some (length (h_instrs h)),
        mkHeap (h_instrs h ++
                  [mkInstruction None [] [] (i_name v) (i_type v) (i_ssa_id v)
                     (Const (py_str (two_complement (exact_op o nx ny) b
                                       (TypeM.is_signed (i_type v)))))])
               (h_blocks h)).
Proof.
  intros Hi Hb Hin Hx Hbx Hkx Hy Hby Hky Hnx Hny Hmod Hsh Hbits.
  unfold fold_instr.
  rewrite bind_unfold, instr_lookup, Hi, Hb, Hin.
  rewrite bind_unfold, instr_lookup, Hx.
  rewrite bind_unfold, instr_lookup, Hy, Hbx, Hby.
  rewrite !bool_decide_eq_true_2 by done. cbn [andb].
  rewrite Hnx, Hny, bind_unfold. unfold ops.
  rewrite py_operator_exact, Hbits by done. cbn [pure].
  rewrite wrap_two_complement by (by eapply bits_positive).
  destruct h as [ins bs]. cbn in *.
  unfold update, on_instrs, modify, new_Const, alloc, bind, ret. cbn.
  rewrite lookup_app_r by lia. rewrite Nat.sub_diag. cbn.
  do 3 f_equal.
  rewrite insert_app_r_alt by lia. rewrite Nat.sub_diag. done.
Qed.

(** [add_u8]: 100 + 100 on the type [u8], whose flag is set, folds to -56. *)
Lemma fold_instr_wraps_witness :
  fold_instr 2 (final add_u8 empty_heap) =
    Ok (Some 3%nat,
        mkHeap (h_instrs (final add_u8 empty_heap) ++
                  [mkInstruction None [] [] "k" U8 None (Const "-56")]) []).
Proof.
  apply (fold_instr_wraps (final add_u8 empty_heap) 2 0 1
           (mkInstruction None [] [0; 1]%nat "k" U8 None (BinOp ADD 0 1))
           (mkInstruction None [2%nat] [] "i" U8 None (Const "100"))
           (mkInstruction None [2%nat] [] "j" U8 None (Const "100"))
           ADD "100" "100" 100 100 8);
    try reflexivity; try (by eexists); [intros; discriminate | intros [|]; discriminate].
Defined.

(** ** The pass manager *)

(** No test of [register_pass] holds of a class, and an instance does not
    reach the tests: the manager is left as it was, or the call raises. *)
Lemma register_pass_inert (pm : Manager.PassManager) (p : Manager.pyobj) :
  Manager.register_pass pm p = Ok pm
  \/ exists e, Manager.register_pass pm p = Raise e.
Proof.
  destruct p as [c|c]; [|right; by eexists].
  unfold Manager.register_pass. cbn.
  destruct (Manager.subclass c Manager.Pass); [by left|right; by eexists].
Qed.

(** C9 (the code at the failing input and beyond): whatever passes are
    registered on a new manager without raising, the manager holds none of
    them, and [run_passes] runs no pass on any module and raises
    [AttributeError]. *)
Theorem registered_passes_never_run (ps : list Manager.pyobj) (m : Manager.Module) :
  match Manager.register_all Manager.init ps with
  | Ok pm => pm = Manager.init /\ Manager.run_passes pm m = ([], Raise AttributeError)
  | Raise _ => True
  | Stuck => False
  end.
Proof.
  induction ps as [|p ps IH]; cbn; [done|].
  destruct (register_pass_inert Manager.init p) as [->|[e ->]]; [exact IH|done].
Qed.

(** Registering the class [LVN], as its only caller would, leaves the
    manager empty. *)
Lemma register_LVN_registers_nothing :
  Manager.register_all Manager.init [Manager.Class Manager.LVN] = Ok Manager.init
  /\ Manager.register_pass Manager.init (Manager.Instance Manager.LVN) = Raise TypeError.
Proof. split; reflexivity. Qed.

(** ** The optimisation passes on the examples *)

(** C1 (the code at the failing input): on [x = const 1; y = const 1;
    pcall f(x, y)] a new [LVN] gives [x] the value number 0; the lookup
    for [y] finds 0, which [if number:] takes for a miss.  After
    [run_pass] the block still lists [x], [y] and the call, [y] is the
    [Const] it was and not an [Id] copy of [x], and the two constants have
    equal [Value] fingerprints. *)
Theorem lvn_keeps_twin_of_number_zero :
  exists w, (bb <- twin_consts ;; on_ir (LVN_run_pass eq_depth 8 LVN_init bb)) fresh_world
            = Ok (1, w)
    /\ instrs_of (ir w) 0 = Some [0; 1; 2]%nat
    /\ body_of (ir w) 0 = Some (Const "1")
    /\ body_of (ir w) 1 = Some (Const "1")
    /\ exists vx vy,
         fingerprint (mkTables ∅ [] ∅ 0) 0 (ir w) = Ok (vx, ir w)
         /\ fingerprint (mkTables ∅ [] ∅ 0) 1 (ir w) = Ok (vy, ir w)
         /\ Value_eq vx vy = true.
Proof.
  eexists. split; [vm_compute; reflexivity|].
  repeat split; try (vm_compute; reflexivity).
  do 2 eexists. split; [vm_compute; reflexivity|].
  split; vm_compute; reflexivity.
Qed.

(** C7 (the code at the failing input): on [c = sub x y; d = sub y x],
    with [x] and [y] numbered 2 and 3, the fingerprints of [c] and [d] are
    equal, their operand lists both sorted; [run_pass] replaces [d] by
    [d = id c]. *)
Theorem lvn_merges_swapped_sub :
  exists w0 w,
    swapped_sub fresh_world = Ok (0%nat, w0)
    /\ (let t := mkTables (list_to_map [(("a", Some 0%nat), 0); (("b", Some 0%nat), 1);
                                        (("x", Some 0%nat), 2); (("y", Some 0%nat), 3)])
                   [] ∅ 3 in
        exists vc vd,
          fingerprint t 4 (ir w0) = Ok (vc, ir w0)
          /\ fingerprint t 5 (ir w0) = Ok (vd, ir w0)
          /\ v_params vc = [VNum 2; VNum 3; VOp SUB]
          /\ v_params vd = [VNum 2; VNum 3; VOp SUB]
          /\ Value_eq vc vd = true)
    /\ on_ir (LVN_run_pass eq_depth 8 LVN_init 0) w0 = Ok (4, w)
    /\ body_of (ir w0) 4 = Some (BinOp SUB 2 3)
    /\ body_of (ir w0) 5 = Some (BinOp SUB 3 2)
    /\ instrs_of (ir w0) 0 = Some [0; 1; 2; 3; 4; 5; 6]%nat
    /\ instrs_of (ir w) 0 = Some [0; 1; 2; 3; 4; 7; 6]%nat
    /\ body_of (ir w) 7 = Some (Id 4).
Proof.
  do 2 eexists. split; [vm_compute; reflexivity|].
  split.
  { do 2 eexists. split; [vm_compute; reflexivity|].
    split; [vm_compute; reflexivity|]. repeat split; vm_compute; reflexivity. }
  split; [vm_compute; reflexivity|].
  repeat split; vm_compute; reflexivity.
Qed.

(** C8 (the code at the failing input): on [a = const 1; b = id a] with
    [b] unused, [DIA.run_pass] removes [b]; the list it then walks for the
    former used-vars of [b] is the list [remove_instr] has just emptied,
    so [a], now without users, stays in the block. *)
Theorem dia_leaves_unused_operand :
  exists w, (bb <- dead_chain ;; on_ir (DIA_run_pass eq_depth 8 bb)) fresh_world = Ok (tt, w)
    /\ instrs_of (ir w) 0 = Some [0%nat]
    /\ body_of (ir w) 0 = Some (Const "1")
    /\ users_of (ir w) 0 = Some [].
Proof.
  eexists. split; [vm_compute; reflexivity|].
  repeat split; vm_compute; reflexivity.
Qed.

(** The loop of [DIA.run_pass] also walks [block.instrs] while removing
    from it: of two unused constants the second is skipped. *)
Lemma dia_skips_after_removal :
  exists w, (bb <- dead_pair ;; on_ir (DIA_run_pass eq_depth 8 bb)) fresh_world = Ok (tt, w)
    /\ instrs_of (ir w) 0 = Some [1%nat]
    /\ body_of (ir w) 1 = Some (Const "2")
    /\ users_of (ir w) 1 = Some [].
Proof.
  eexists. split; [vm_compute; reflexivity|].
  repeat split; vm_compute; reflexivity.
Qed.

(** ** The [block] field *)

(** C6 (the code at the failing input): after [replace_instr] the old
    instruction is no longer listed in the block and its [block] field
    still names the block; after [remove_trivial_phi] the same holds of the
    removed phi. *)
Theorem removed_instructions_keep_their_block :
  (exists h, replace_const empty_heap = Ok ((0, 1)%nat, h)
     /\ instrs_of h 0 = Some [1%nat]
     /\ phis_of h 0 = Some []
     /\ block_of h 0 = Some (Some 0%nat))
  /\ (exists w, (phi <- lone_phi ;; remove_trivial_phi eq_depth 4 phi) fresh_world
                = Ok (Some 0%nat, w)
        /\ instrs_of (ir w) 0 = Some [0%nat]
        /\ phis_of (ir w) 0 = Some []
        /\ block_of (ir w) 1 = Some (Some 0%nat)).
Proof.
  split; eexists; (split; [vm_compute; reflexivity|]);
    repeat split; vm_compute; reflexivity.
Qed.

(** ** CFG edges *)

Lemma block_eq_distinct bs ins depth a b :
  names_distinct bs -> a <> b -> (a < length bs)%nat -> (b < length bs)%nat ->
  block_eq bs ins depth a b = Ok false.
Proof.
  intros Hnd Hne Ha Hb. unfold block_eq.
  destruct (lookup_lt_is_Some_2 bs a Ha) as [x Hx].
  destruct (lookup_lt_is_Some_2 bs b Hb) as [y Hy].
  rewrite Hx, Hy.
  rewrite bool_decide_eq_false_2; [done|].
  intros Heq. apply Hne.
  eapply (NoDup_lookup _ a b (b_name x)); [exact Hnd| |].
  - by rewrite list_lookup_fmap, Hx.
  - by rewrite list_lookup_fmap, Hy, Heq.
Qed.

Lemma block_in_member bs ins depth l b :
  names_distinct bs -> Forall (fun p => (p < length bs)%nat) l -> (b < length bs)%nat ->
  block_in bs ins depth l b = Ok (bool_decide (b ∈ l)).
Proof.
  intros Hnd Hl Hb. induction Hl as [|el l Hel Hl IH]; cbn.
  - done.
  - destruct (decide (el = b)) as [->|Hne].
    + rewrite bool_decide_eq_true_2 by done.
      by rewrite bool_decide_eq_true_2 by apply list_elem_of_here.
    + rewrite (bool_decide_eq_false_2 (el = b)) by done.
      rewrite block_eq_distinct by done. rewrite IH.
      f_equal. apply bool_decide_ext. rewrite elem_of_cons.
      split; [tauto | intros [Heq|]; [congruence|done]].
Qed.

Lemma insert_alter {A} (f : A -> A) (l : list A) (i : nat) (v : A) :
  l !! i = Some v -> <[i := f v]> l = alter f i l.
Proof.
  revert i. induction l as [|a l IH]; intros [|i] Hi; cbn in *; try done.
  - by injection Hi as ->.
  - f_equal. by apply IH.
Qed.

Lemma modify_block_alter (b : nat) (f : Block -> Block) (h : Heap) :
  (b < length (h_blocks h))%nat ->
  modify_block b f h = Ok (tt, mkHeap (h_instrs h) (alter f b (h_blocks h))).
Proof.
  intros Hb. unfold modify_block.
  destruct (lookup_lt_is_Some_2 _ _ Hb) as [v Hv]. rewrite Hv.
  by rewrite (insert_alter f _ _ _ Hv).
Qed.

Lemma lookup_with_pred self block bs k :
  with_pred self block bs !! k =
    (fun x => if decide (k = self) then set_preds (b_preds x ++ [block]) x else x) <$> bs !! k.
Proof.
  unfold with_pred. destruct (decide (k = self)) as [->|Hne].
  - by rewrite list_lookup_alter_eq.
  - rewrite list_lookup_alter_ne by done. by destruct (bs !! k).
Qed.

Lemma lookup_with_succ self block bs k :
  with_succ self block bs !! k =
    (fun x => if decide (k = self) then set_succs (b_succs x ++ [block]) x else x) <$> bs !! k.
Proof.
  unfold with_succ. destruct (decide (k = self)) as [->|Hne].
  - by rewrite list_lookup_alter_eq.
  - rewrite list_lookup_alter_ne by done. by destruct (bs !! k).
Qed.

Lemma names_alter (f : Block -> Block) (i : nat) (bs : list Block) :
  (forall x, b_name (f x) = b_name x) -> b_name <$> alter f i bs = b_name <$> bs.
Proof.
  intros Hf. revert i. induction bs as [|a bs IH]; intros [|i]; cbn; try done.
  - by rewrite Hf.
  - by rewrite IH.
Qed.

Lemma closed_with_pred self block bs :
  (block < length bs)%nat -> edges_closed bs -> edges_closed (with_pred self block bs).
Proof.
  intros Hb Hc k x'. rewrite lookup_with_pred. unfold with_pred. rewrite length_alter.
  destruct (bs !! k) as [x|] eqn:Hk; [|done]. cbn. intros [= <-].
  destruct (Hc k x Hk) as [Hp Hs].
  destruct (decide (k = self)); cbn; [|done].
  split; [|done]. apply Forall_app. split; [done|]. by apply Forall_singleton.
Qed.

Lemma closed_with_succ self block bs :
  (block < length bs)%nat -> edges_closed bs -> edges_closed (with_succ self block bs).
Proof.
  intros Hb Hc k x'. rewrite lookup_with_succ. unfold with_succ. rewrite length_alter.
  destruct (bs !! k) as [x|] eqn:Hk; [|done]. cbn. intros [= <-].
  destruct (Hc k x Hk) as [Hp Hs].
  destruct (decide (k = self)); cbn; [|done].
  split; [done|]. apply Forall_app. split; [done|]. by apply Forall_singleton.
Qed.

Lemma add_pred_run depth fuel self block ins bs :
  names_distinct bs -> edges_closed bs ->
  (self < length bs)%nat -> (block < length bs)%nat ->
  add_pred depth (S (S fuel)) self block (mkHeap ins bs)
  = Ok (tt, mkHeap ins (after_add_pred self block bs)).
Proof.
  intros Hnd Hc Hs Hb.
  assert (Hc1 := closed_with_pred self block bs Hb Hc).
  assert (Hl1 : length (with_pred self block bs) = length bs) by apply length_alter.
  assert (Hn1 : names_distinct (with_pred self block bs)).
  { unfold names_distinct, with_pred. by rewrite names_alter. }
  destruct (lookup_lt_is_Some_2 _ _ Hb) as [other Ho].
  unfold after_add_pred. rewrite Ho.
  cbn [add_pred]. rewrite bind_unfold, modify_block_alter by done. cbn [h_instrs h_blocks].
  fold (with_pred self block bs).
  rewrite bind_unfold. unfold load_block at 1. cbn [h_blocks].
  destruct (with_pred self block bs !! block) as [other1|] eqn:Ho1;
    [|apply lookup_ge_None in Ho1; lia].
  assert (Hsucc : b_succs other1 = b_succs other).
  { rewrite lookup_with_pred, Ho in Ho1. cbn in Ho1. injection Ho1 as <-.
    by destruct (decide (block = self)). }
  rewrite bind_unfold. unfold block_listed. cbn [h_blocks h_instrs].
  rewrite block_in_member; [|done|by apply (Hc1 block other1)|lia].
  cbn [pure]. rewrite Hsucc.
  destruct (bool_decide (self ∈ b_succs other)) eqn:Hin; [done|].
  (* the reverse edge is registered by add_succ *)
  assert (Hc2 : edges_closed (with_succ block self (with_pred self block bs)))
    by (apply closed_with_succ; [lia|done]).
  assert (Hn2 : names_distinct (with_succ block self (with_pred self block bs))).
  { unfold names_distinct, with_succ. by rewrite names_alter. }
  cbn [add_succ]. rewrite bind_unfold, modify_block_alter by (cbn; lia).
  cbn [h_instrs h_blocks]. fold (with_succ block self (with_pred self block bs)).
  rewrite bind_unfold. unfold load_block at 1. cbn [h_blocks].
  destruct (with_succ block self (with_pred self block bs) !! self) as [me|] eqn:Hme;
    [|apply lookup_ge_None in Hme; unfold with_succ in Hme; rewrite length_alter in Hme; lia].
  rewrite bind_unfold. unfold block_listed. cbn [h_blocks h_instrs].
  rewrite block_in_member; [|done|by apply (Hc2 self me)|
    unfold with_succ; rewrite length_alter; lia].
  cbn [pure].
  rewrite bool_decide_eq_true_2; [done|].
  rewrite lookup_with_succ, lookup_with_pred in Hme.
  destruct (bs !! self) as [x|] eqn:Hx; [|done]. cbn in Hme.
  destruct (decide (self = self)) as [_|]; [|done]. injection Hme as <-.
  destruct (decide (self = block)); cbn; apply elem_of_app; right; apply list_elem_of_here.
Qed.

Lemma add_succ_run depth fuel self block ins bs :
  names_distinct bs -> edges_closed bs ->
  (self < length bs)%nat -> (block < length bs)%nat ->
  add_succ depth (S (S fuel)) self block (mkHeap ins bs)
  = Ok (tt, mkHeap ins (after_add_succ self block bs)).
Proof.
  intros Hnd Hc Hs Hb.
  assert (Hc1 := closed_with_succ self block bs Hb Hc).
  assert (Hl1 : length (with_succ self block bs) = length bs) by apply length_alter.
  assert (Hn1 : names_distinct (with_succ self block bs)).
  { unfold names_distinct, with_succ. by rewrite names_alter. }
  destruct (lookup_lt_is_Some_2 _ _ Hb) as [other Ho].
  unfold after_add_succ. rewrite Ho.
  cbn [add_succ]. rewrite bind_unfold, modify_block_alter by done. cbn [h_instrs h_blocks].
  fold (with_succ self block bs).
  rewrite bind_unfold. unfold load_block at 1. cbn [h_blocks].
  destruct (with_succ self block bs !! block) as [other1|] eqn:Ho1;
    [|apply lookup_ge_None in Ho1; lia].
  assert (Hpred : b_preds other1 = b_preds other).
  { rewrite lookup_with_succ, Ho in Ho1. cbn in Ho1. injection Ho1 as <-.
    by destruct (decide (block = self)). }
  rewrite bind_unfold. unfold block_listed. cbn [h_blocks h_instrs].
  rewrite block_in_member; [|done|by apply (Hc1 block other1)|lia].
  cbn [pure]. rewrite Hpred.
  destruct (bool_decide (self ∈ b_preds other)) eqn:Hin; [done|].
  assert (Hc2 : edges_closed (with_pred block self (with_succ self block bs)))
    by (apply closed_with_pred; [lia|done]).
  assert (Hn2 : names_distinct (with_pred block self (with_succ self block bs))).
  { unfold names_distinct, with_pred. by rewrite names_alter. }
  cbn [add_pred]. rewrite bind_unfold, modify_block_alter by (cbn; lia).
  cbn [h_instrs h_blocks]. fold (with_pred block self (with_succ self block bs)).
  rewrite bind_unfold. unfold load_block at 1. cbn [h_blocks].
  destruct (with_pred block self (with_succ self block bs) !! self) as [me|] eqn:Hme;
    [|apply lookup_ge_None in Hme; unfold with_pred in Hme; rewrite length_alter in Hme; lia].
  rewrite bind_unfold. unfold block_listed. cbn [h_blocks h_instrs].
  rewrite block_in_member; [|done|by apply (Hc2 self me)|
    unfold with_pred; rewrite length_alter; lia].
  cbn [pure].
  rewrite bool_decide_eq_true_2; [done|].
  rewrite lookup_with_pred, lookup_with_succ in Hme.
  destruct (bs !! self) as [x|] eqn:Hx; [|done]. cbn in Hme.
  destruct (decide (self = self)) as [_|]; [|done]. injection Hme as <-.
  destruct (decide (self = block)); cbn; apply elem_of_app; right; apply list_elem_of_here.
Qed.

(** How a block's lists change: the names stay, the predecessor list of
    [self] gains [block], the successor list of [block] gains [self]
    unless it is there. *)
Lemma lookup_after_add_pred self block bs k x' :
  (block < length bs)%nat ->
  after_add_pred self block bs !! k = Some x' ->
  exists x, bs !! k = Some x /\ b_name x' = b_name x
    /\ (forall a, a ∈ b_preds x' <-> a ∈ b_preds x \/ (k = self /\ a = block))
    /\ (forall a, a ∈ b_succs x' <-> a ∈ b_succs x \/ (k = block /\ a = self)).
Proof.
  intros Hlt. unfold after_add_pred. destruct (bs !! block) as [other|] eqn:Ho.
  - destruct (bool_decide (self ∈ b_succs other)) eqn:Hin.
    + apply bool_decide_eq_true in Hin.
      rewrite lookup_with_pred. destruct (bs !! k) as [x|] eqn:Hk; [|done].
      cbn. intros [= <-]. exists x. split; [done|].
      assert (Hkey : k = block -> self ∈ b_succs x) by (intros ->; congruence).
      destruct (decide (k = self)) as [Hs|Hns]; cbn;
        (split; [done|]); split; intros a;
        rewrite ?elem_of_app, ?list_elem_of_singleton;
        intuition (subst; auto).
    + rewrite lookup_with_succ, lookup_with_pred.
      destruct (bs !! k) as [x|] eqn:Hk; [|done].
      cbn. intros [= <-]. exists x. split; [done|].
      destruct (decide (k = block)) as [Hb|Hnb]; destruct (decide (k = self)) as [Hs|Hns];
        cbn; (split; [done|]); split; intros a;
        rewrite ?elem_of_app, ?list_elem_of_singleton; intuition (subst; auto).
  - apply lookup_ge_None in Ho. lia.
Qed.

Lemma lookup_after_add_succ self block bs k x' :
  (block < length bs)%nat ->
  after_add_succ self block bs !! k = Some x' ->
  exists x, bs !! k = Some x /\ b_name x' = b_name x
    /\ (forall a, a ∈ b_succs x' <-> a ∈ b_succs x \/ (k = self /\ a = block))
    /\ (forall a, a ∈ b_preds x' <-> a ∈ b_preds x \/ (k = block /\ a = self)).
Proof.
  intros Hlt. unfold after_add_succ. destruct (bs !! block) as [other|] eqn:Ho.
  - destruct (bool_decide (self ∈ b_preds other)) eqn:Hin.
    + apply bool_decide_eq_true in Hin.
      rewrite lookup_with_succ. destruct (bs !! k) as [x|] eqn:Hk; [|done].
      cbn. intros [= <-]. exists x. split; [done|].
      assert (Hkey : k = block -> self ∈ b_preds x) by (intros ->; congruence).
      destruct (decide (k = self)) as [Hs|Hns]; cbn;
        (split; [done|]); split; intros a;
        rewrite ?elem_of_app, ?list_elem_of_singleton;
        intuition (subst; auto).
    + rewrite lookup_with_pred, lookup_with_succ.
      destruct (bs !! k) as [x|] eqn:Hk; [|done].
      cbn. intros [= <-]. exists x. split; [done|].
      destruct (decide (k = block)) as [Hb|Hnb]; destruct (decide (k = self)) as [Hs|Hns];
        cbn; (split; [done|]); split; intros a;
        rewrite ?elem_of_app, ?list_elem_of_singleton; intuition (subst; auto).
  - apply lookup_ge_None in Ho. lia.
Qed.

Lemma length_after_add_pred self block bs :
  length (after_add_pred self block bs) = length bs.
Proof.
  unfold after_add_pred, with_succ, with_pred.
  destruct (bs !! block); [|done]. destruct (bool_decide _); by rewrite ?length_alter.
Qed.

Lemma length_after_add_succ self block bs :
  length (after_add_succ self block bs) = length bs.
Proof.
  unfold after_add_succ, with_succ, with_pred.
  destruct (bs !! block); [|done]. destruct (bool_decide _); by rewrite ?length_alter.
Qed.

Lemma names_after_add_pred self block bs :
  b_name <$> after_add_pred self block bs = b_name <$> bs.
Proof.
  unfold after_add_pred, with_succ, with_pred.
  destruct (bs !! block); [|done]. destruct (bool_decide _); by rewrite ?names_alter.
Qed.

Lemma names_after_add_succ self block bs :
  b_name <$> after_add_succ self block bs = b_name <$> bs.
Proof.
  unfold after_add_succ, with_succ, with_pred.
  destruct (bs !! block); [|done]. destruct (bool_decide _); by rewrite ?names_alter.
Qed.

Lemma closed_after_add_pred self block bs :
  (self < length bs)%nat -> (block < length bs)%nat ->
  edges_closed bs -> edges_closed (after_add_pred self block bs).
Proof.
  intros Hs Hb Hc. unfold after_add_pred.
  destruct (bs !! block); [|done]. destruct (bool_decide _).
  - by apply closed_with_pred.
  - apply closed_with_succ; [unfold with_pred; rewrite length_alter; lia|].
    by apply closed_with_pred.
Qed.

Lemma closed_after_add_succ self block bs :
  (self < length bs)%nat -> (block < length bs)%nat ->
  edges_closed bs -> edges_closed (after_add_succ self block bs).
Proof.
  intros Hs Hb Hc. unfold after_add_succ.
  destruct (bs !! block); [|done]. destruct (bool_decide _).
  - by apply closed_with_succ.
  - apply closed_with_pred; [unfold with_succ; rewrite length_alter; lia|].
    by apply closed_with_succ.
Qed.

Lemma symmetric_after_add_pred self block bs :
  (block < length bs)%nat ->
  edges_symmetric bs -> edges_symmetric (after_add_pred self block bs).
Proof.
  intros Hb Hsym a b x' y' Hx' Hy'.
  destruct (lookup_after_add_pred _ _ _ _ _ Hb Hx') as (x & Hx & _ & _ & Hxs).
  destruct (lookup_after_add_pred _ _ _ _ _ Hb Hy') as (y & Hy & _ & Hyp & _).
  rewrite Hyp, Hxs, (Hsym a b x y Hx Hy). tauto.
Qed.

Lemma symmetric_after_add_succ self block bs :
  (block < length bs)%nat ->
  edges_symmetric bs -> edges_symmetric (after_add_succ self block bs).
Proof.
  intros Hb Hsym a b x' y' Hx' Hy'.
  destruct (lookup_after_add_succ _ _ _ _ _ Hb Hx') as (x & Hx & _ & Hxs & _).
  destruct (lookup_after_add_succ _ _ _ _ _ Hb Hy') as (y & Hy & _ & _ & Hyp).
  rewrite Hyp, Hxs, (Hsym a b x y Hx Hy). tauto.
Qed.

Lemma succs_nodup_after_add_pred self block bs :
  succs_nodup bs -> succs_nodup (after_add_pred self block bs).
Proof.
  intros Hnd k x'. unfold after_add_pred.
  destruct (bs !! block) as [other|] eqn:Ho; [|apply Hnd].
  destruct (bool_decide (self ∈ b_succs other)) eqn:Hin.
  - rewrite lookup_with_pred. destruct (bs !! k) as [x|] eqn:Hk; [|done].
    cbn. intros [= <-]. specialize (Hnd k x Hk). by destruct (decide (k = self)).
  - apply bool_decide_eq_false in Hin.
    rewrite lookup_with_succ, lookup_with_pred.
    destruct (bs !! k) as [x|] eqn:Hk; [|done].
    cbn. intros [= <-]. specialize (Hnd k x Hk).
    destruct (decide (k = block)) as [->|Hnb]; destruct (decide (_ = self)); cbn; try done.
    all: assert (x = other) as -> by congruence.
    all: apply NoDup_app; split; [done|]; split; [|apply NoDup_singleton].
    all: intros a Ha ->%list_elem_of_singleton; done.
Qed.

Lemma edge_calls_run depth fuel cs ins bs :
  names_distinct bs -> edges_closed bs ->
  Forall (in_range (mkHeap ins bs)) cs ->
  for_each cs (run_edge_call depth (S (S fuel))) (mkHeap ins bs)
  = Ok (tt, mkHeap ins (foldl after_call bs cs)).
Proof.
  revert bs. induction cs as [|c cs IH]; intros bs Hnd Hc Hr; cbn [for_each foldl]; [done|].
  apply Forall_cons in Hr as [Hc0 Hr]. rewrite bind_unfold.
  destruct c as [self block|self block]; cbn [run_edge_call in_range h_blocks after_call] in *;
    destruct Hc0 as [Hs Hb].
  - rewrite add_pred_run by done. apply IH.
    + unfold names_distinct. by rewrite names_after_add_pred.
    + by apply closed_after_add_pred.
    + eapply Forall_impl; [exact Hr|]. intros [s b|s b]; cbn;
        by rewrite length_after_add_pred.
  - rewrite add_succ_run by done. apply IH.
    + unfold names_distinct. by rewrite names_after_add_succ.
    + by apply closed_after_add_succ.
    + eapply Forall_impl; [exact Hr|]. intros [s b|s b]; cbn;
        by rewrite length_after_add_succ.
Qed.

Lemma length_after_calls cs bs : length (foldl after_call bs cs) = length bs.
Proof.
  revert bs. induction cs as [|c cs IH]; intros bs; cbn [foldl]; [done|].
  rewrite IH. destruct c; cbn; [apply length_after_add_pred|apply length_after_add_succ].
Qed.

Lemma symmetric_after_calls cs bs :
  Forall (fun c => match c with
                   | AddPred self block | AddSucc self block =>
                       (self < length bs)%nat /\ (block < length bs)%nat
                   end) cs ->
  edges_symmetric bs -> edges_symmetric (foldl after_call bs cs).
Proof.
  revert bs. induction cs as [|c cs IH]; intros bs Hr Hsym; cbn [foldl]; [done|].
  apply Forall_cons in Hr as [Hc0 Hr]. apply IH.
  - eapply Forall_impl; [exact Hr|].
    intros [s b|s b]; destruct c; cbn;
      by rewrite ?length_after_add_pred, ?length_after_add_succ.
  - destruct c as [self block|self block]; cbn; destruct Hc0 as [Hs Hb].
    + by apply symmetric_after_add_pred.
    + by apply symmetric_after_add_succ.
Qed.

Lemma succs_nodup_after_calls cs bs :
  Forall is_add_pred cs -> succs_nodup bs -> succs_nodup (foldl after_call bs cs).
Proof.
  revert bs. induction cs as [|c cs IH]; intros bs Hall Hnd; cbn [foldl]; [done|].
  apply Forall_cons in Hall as [Hc Hall]. apply IH; [done|].
  destruct c; [|done]. by apply succs_nodup_after_add_pred.
Qed.

Lemma after_add_pred_lists self block bs :
  (self < length bs)%nat -> (block < length bs)%nat ->
  exists x0 y0 x y,
    bs !! self = Some x0 /\ bs !! block = Some y0
    /\ after_add_pred self block bs !! self = Some x
    /\ after_add_pred self block bs !! block = Some y
    /\ b_preds x = b_preds x0 ++ [block]
    /\ b_succs y = if bool_decide (self ∈ b_succs y0) then b_succs y0
                   else b_succs y0 ++ [self].
Proof.
  intros Hs Hb.
  destruct (lookup_lt_is_Some_2 _ _ Hs) as [x0 Hx0].
  destruct (lookup_lt_is_Some_2 _ _ Hb) as [y0 Hy0].
  unfold after_add_pred. rewrite Hy0.
  destruct (bool_decide (self ∈ b_succs y0)) eqn:Hin.
  - exists x0, y0. do 2 eexists. split; [done|]. split; [done|].
    rewrite !lookup_with_pred, Hx0, Hy0. cbn.
    split; [done|]. split; [done|].
    destruct (decide (self = self)) as [_|]; [|done]. split; [done|].
    rewrite Hin. by destruct (decide (block = self)).
  - exists x0, y0. do 2 eexists. split; [done|]. split; [done|].
    rewrite !lookup_with_succ, !lookup_with_pred, Hx0, Hy0. cbn.
    split; [done|]. split; [done|].
    destruct (decide (self = self)) as [_|]; [|done].
    destruct (decide (block = block)) as [_|]; [|done].
    rewrite Hin. split.
    + by destruct (decide (self = block)).
    + by destruct (decide (block = self)).
Qed.

Lemma after_add_succ_lists self block bs :
  (self < length bs)%nat -> (block < length bs)%nat ->
  exists x0 y0 x y,
    bs !! self = Some x0 /\ bs !! block = Some y0
    /\ after_add_succ self block bs !! self = Some x
    /\ after_add_succ self block bs !! block = Some y
    /\ b_succs x = b_succs x0 ++ [block]
    /\ b_preds y = if bool_decide (self ∈ b_preds y0) then b_preds y0
                   else b_preds y0 ++ [self].
Proof.
  intros Hs Hb.
  destruct (lookup_lt_is_Some_2 _ _ Hs) as [x0 Hx0].
  destruct (lookup_lt_is_Some_2 _ _ Hb) as [y0 Hy0].
  unfold after_add_succ. rewrite Hy0.
  destruct (bool_decide (self ∈ b_preds y0)) eqn:Hin.
  - exists x0, y0. do 2 eexists. split; [done|]. split; [done|].
    rewrite !lookup_with_succ, Hx0, Hy0. cbn.
    split; [done|]. split; [done|].
    destruct (decide (self = self)) as [_|]; [|done]. split; [done|].
    rewrite Hin. by destruct (decide (block = self)).
  - exists x0, y0. do 2 eexists. split; [done|]. split; [done|].
    rewrite !lookup_with_pred, !lookup_with_succ, Hx0, Hy0. cbn.
    split; [done|]. split; [done|].
    destruct (decide (self = self)) as [_|]; [|done].
    destruct (decide (block = block)) as [_|]; [|done].
    rewrite Hin. split.
    + by destruct (decide (self = block)).
    + by destruct (decide (block = self)).
Qed.

(** C5 (amended): on blocks of pairwise distinct names whose edge lists
    are symmetric and name existing blocks, any sequence of [add_pred] and
    [add_succ] calls runs to the end, writes no instruction, and leaves
    the blocks that [after_call] computes call by call; the lists are
    symmetric again: [a] is in [b]'s predecessor list iff [b] is in [a]'s
    successor list.  A call [self.add_pred(block)] appends [block] to the
    predecessor list of [self], whether or not it is there, and appends
    [self] to the successor list of [block] exactly when it is not there
    ([add_succ] likewise, the two lists exchanged).  So [add_pred] calls
    alone never duplicate an entry of a successor list. *)
Theorem edges_stay_symmetric (depth fuel : nat) (cs : list edge_call) (h : Heap) :
  (2 <= fuel)%nat ->
  names_distinct (h_blocks h) -> edges_closed (h_blocks h) ->
  Forall (in_range h) cs ->
  edges_symmetric (h_blocks h) ->
  for_each cs (run_edge_call depth fuel) h
  = Ok (tt, mkHeap (h_instrs h) (foldl after_call (h_blocks h) cs))
  /\ edges_symmetric (foldl after_call (h_blocks h) cs)
  /\ (Forall is_add_pred cs -> succs_nodup (h_blocks h) ->
      succs_nodup (foldl after_call (h_blocks h) cs))
  /\ (forall pre self block, cs = pre ++ [AddPred self block] ->
      exists x0 y0 x y,
        foldl after_call (h_blocks h) pre !! self = Some x0
        /\ foldl after_call (h_blocks h) pre !! block = Some y0
        /\ foldl after_call (h_blocks h) cs !! self = Some x
        /\ foldl after_call (h_blocks h) cs !! block = Some y
        /\ b_preds x = b_preds x0 ++ [block]
        /\ b_succs y = if bool_decide (self ∈ b_succs y0) then b_succs y0
                       else b_succs y0 ++ [self])
  /\ (forall pre self block, cs = pre ++ [AddSucc self block] ->
      exists x0 y0 x y,
        foldl after_call (h_blocks h) pre !! self = Some x0
        /\ foldl after_call (h_blocks h) pre !! block = Some y0
        /\ foldl after_call (h_blocks h) cs !! self = Some x
        /\ foldl after_call (h_blocks h) cs !! block = Some y
        /\ b_succs x = b_succs x0 ++ [block]
        /\ b_preds y = if bool_decide (self ∈ b_preds y0) then b_preds y0
                       else b_preds y0 ++ [self]).
Proof.
  intros Hfuel Hnd Hc Hr Hsym. destruct fuel as [|[|fuel]]; [lia|lia|]. clear Hfuel.
  destruct h as [ins bs]. cbn [h_blocks h_instrs] in *.
  split; [by apply edge_calls_run|]. split.
  { apply symmetric_after_calls; [|done].
    eapply Forall_impl; [exact Hr|]. by intros [s b|s b]. }
  split; [apply succs_nodup_after_calls|].
  split; intros pre self block ->; rewrite foldl_app; cbn [foldl after_call];
    apply Forall_app in Hr as [_ Hlast]; rewrite Forall_singleton in Hlast;
    unfold in_range in Hlast; cbn [h_blocks] in Hlast; destruct Hlast as [Hs Hb].
  - apply after_add_pred_lists; by rewrite length_after_calls.
  - apply after_add_succ_lists; by rewrite length_after_calls.
Qed.

(** C5 (as stated, refuted): [b.add_pred(a)] twice leaves [a] twice in the
    predecessor list of [b].  And with two blocks that are equal under
    [Block.__eq__] (same name, no instructions) the lists are not even
    symmetric: after [add_pred(a)] on both, [a] is a predecessor of the
    second while [a.succs] holds the first only, the membership test of
    [add_pred] having taken the first for the second. *)
Lemma add_pred_twice_duplicates :
  (exists h, dup_pred empty_heap = Ok (tt, h)
     /\ preds_of h 1 = Some [0; 0]%nat
     /\ succs_of h 0 = Some [1%nat])
  /\ (exists h, twin_blocks empty_heap = Ok (tt, h)
        /\ preds_of h 2 = Some [0%nat]
        /\ succs_of h 0 = Some [1%nat]).
Proof.
  split; eexists; (split; [vm_compute; reflexivity|]); split; vm_compute; reflexivity.
Qed.

(** [b.add_pred(a)] twice on [two_blocks]: [a] is twice a predecessor of
    [b], and [b] once a successor of [a]. *)
Lemma edges_stay_symmetric_witness :
  for_each [AddPred 1 0; AddPred 1 0] (run_edge_call eq_depth 2) two_blocks
  = Ok (tt, mkHeap [] [mkBlock "a" [] [] [] [1%nat]; mkBlock "b" [] [] [0; 0]%nat []])
  /\ edges_symmetric [mkBlock "a" [] [] [] [1%nat]; mkBlock "b" [] [] [0; 0]%nat []].
Proof.
  destruct (edges_stay_symmetric eq_depth 2 [AddPred 1 0; AddPred 1 0] two_blocks)
    as (Hrun & Hsym & _).
  - lia.
  - apply (bool_decide_unpack _). by vm_compute.
  - intros [|[|b]] x; vm_compute; intros [= <-] || intros [=]; split; constructor.
  - repeat constructor; vm_compute; lia.
  - intros [|[|a]] [|[|b]] x y; vm_compute; try (intros [=]; fail);
      intros [= <-] [= <-]; split; intros H; inversion H.
  - split; [exact Hrun|exact Hsym].
Defined.

(** ** Inverting runs that end in [Ok] *)

Lemma bind_Ok_inv {S A B} (m : M S A) (k : A -> M S B) (s : S) (r : B) (s' : S) :
  bind m k s = Ok (r, s') -> exists a s1, m s = Ok (a, s1) /\ k a s1 = Ok (r, s').
Proof.
  unfold bind. destruct (m s) as [[a s1]| |]; [|done|done]. intros H. by exists a, s1.
Qed.

Lemma ret_Ok_inv {S A} (a r : A) (s s' : S) : ret a s = Ok (r, s') -> r = a /\ s' = s.
Proof. by intros [= <- <-]. Qed.

Lemma assert_Ok_inv {S} (b : bool) (s s' : S) (u : unit) :
  assert b s = Ok (u, s') -> b = true /\ s' = s.
Proof. destruct b; [by intros [= _ <-]|done]. Qed.

Lemma pure_Ok_inv {S A} (x : result A) (a : A) (s s' : S) :
  pure x s = Ok (a, s') -> x = Ok a /\ s' = s.
Proof. destruct x; [by intros [= <- <-]|done|done]. Qed.

Lemma on_ir_Ok_inv {A} (m : M Heap A) (w w' : World) (a : A) :
  on_ir m w = Ok (a, w') -> exists h', m (ir w) = Ok (a, h') /\ w' = mkWorld h' (builder w).
Proof.
  unfold on_ir. destruct (m (ir w)) as [[a0 h']| |]; [|done|done].
  intros [= <- <-]. by exists h'.
Qed.

Lemma on_instrs_Ok_inv {A} (m : list Block -> M (list Instruction) A) (h h' : Heap) (a : A) :
  on_instrs m h = Ok (a, h') ->
  exists ins', m (h_blocks h) (h_instrs h) = Ok (a, ins') /\ h' = mkHeap ins' (h_blocks h).
Proof.
  unfold on_instrs. destruct (m _ _) as [[a0 ins']| |]; [|done|done].
  intros [= <- <-]. by exists ins'.
Qed.

Lemma instr_Ok_inv (i : nat) (h h' : Heap) (v : Instruction) :
  instr i h = Ok (v, h') -> h_instrs h !! i = Some v /\ h' = h.
Proof. rewrite instr_lookup. destruct (_ !! _); [by intros [= <- <-]|done]. Qed.

Lemma update_Ok_inv (i : nat) (f : Instruction -> Instruction) (h h' : Heap) (u : unit) :
  update i f h = Ok (u, h') ->
  exists v, h_instrs h !! i = Some v
    /\ h' = mkHeap (<[i := f v]> (h_instrs h)) (h_blocks h).
Proof.
  rewrite update_lookup. destruct (_ !! _) as [v|]; [|done]. intros [= _ <-]. by exists v.
Qed.

Lemma load_block_Ok_inv (b : nat) (h h' : Heap) (blk : Block) :
  load_block b h = Ok (blk, h') -> h_blocks h !! b = Some blk /\ h' = h.
Proof. unfold load_block. destruct (_ !! _); [by intros [= <- <-]|done]. Qed.

Lemma modify_block_Ok_inv (b : nat) (f : Block -> Block) (h h' : Heap) (u : unit) :
  modify_block b f h = Ok (u, h') ->
  exists blk, h_blocks h !! b = Some blk
    /\ h' = mkHeap (h_instrs h) (<[b := f blk]> (h_blocks h)).
Proof.
  unfold modify_block. destruct (_ !! _) as [blk|]; [|done]. intros [= _ <-]. by exists blk.
Qed.

Lemma for_each_Ok_ind {S A} (R : S -> S -> Prop) (l : list A) (body : A -> M S unit)
    (s s' : S) (u : unit) :
  (forall s, R s s) -> (forall s1 s2 s3, R s1 s2 -> R s2 s3 -> R s1 s3) ->
  (forall x s1 s2 u, x ∈ l -> body x s1 = Ok (u, s2) -> R s1 s2) ->
  for_each l body s = Ok (u, s') -> R s s'.
Proof.
  intros Hrefl Htrans Hbody. revert s. induction l as [|x l IH]; intros s; cbn.
  - intros [= _ <-]. apply Hrefl.
  - intros (u1 & s1 & H1 & H2)%bind_Ok_inv.
    eapply Htrans; [eapply Hbody; [apply list_elem_of_here|exact H1]|].
    apply IH; [|done]. intros y s2 s3 u2 Hy. apply Hbody. by apply list_elem_of_further.
Qed.

(** ** What the builder leaves alone *)

Lemma frame_refl P w : frame P w w.
Proof. split; [done|]. intros b blk Hb. by exists blk. Qed.

Lemma frame_trans P w1 w2 w3 : frame P w1 w2 -> frame P w2 w3 -> frame P w1 w3.
Proof.
  intros [Hs1 H1] [Hs2 H2]. split; [congruence|].
  intros b blk Hb.
  destruct (H1 b blk Hb) as (blk1 & Hb1 & Hn1 & Hp1 & Hl1).
  destruct (H2 b blk1 Hb1) as (blk2 & Hb2 & Hn2 & Hp2 & Hl2).
  exists blk2. repeat split; [done|congruence|congruence|].
  intros HP. etrans; [by apply Hl2|by apply Hl1].
Qed.

Lemma frame_weaken (P Q : nat -> Prop) w w' :
  (forall b, Q b -> P b) -> frame P w w' -> frame Q w w'.
Proof.
  intros HPQ [Hs H]. split; [done|]. intros b blk Hb.
  destruct (H b blk Hb) as (blk' & ? & ? & ? & Hl). exists blk'. naive_solver.
Qed.

Lemma frame_same_blocks P w w' :
  h_blocks (ir w') = h_blocks (ir w) ->
  sealed_blocks (builder w') = sealed_blocks (builder w) -> frame P w w'.
Proof.
  intros Hb Hs. split; [done|]. intros b blk Hl. exists blk. by rewrite Hb.
Qed.

Lemma frame_on_instrs P {A} (m : list Block -> M (list Instruction) A) w a w' :
  on_ir (on_instrs m) w = Ok (a, w') -> frame P w w'.
Proof.
  intros (h' & (ins' & _ & ->)%on_instrs_Ok_inv & ->)%on_ir_Ok_inv.
  by apply frame_same_blocks.
Qed.

Lemma frame_on_builder P (f : SSA -> SSA) w u w' :
  (forall s, sealed_blocks (f s) = sealed_blocks s) ->
  on_builder f w = Ok (u, w') -> frame P w w'.
Proof. intros Hf [= _ <-]. apply frame_same_blocks; [done|apply Hf]. Qed.

Lemma frame_load_block b w blk w' :
  on_ir (load_block b) w = Ok (blk, w') -> h_blocks (ir w) !! b = Some blk /\ w' = w.
Proof.
  intros (h' & [Hb ->]%load_block_Ok_inv & ->)%on_ir_Ok_inv. split; [done|]. by destruct w.
Qed.

Lemma frame_instr i w v w' :
  on_ir (instr i) w = Ok (v, w') -> h_instrs (ir w) !! i = Some v /\ w' = w.
Proof.
  intros (h' & [Hb ->]%instr_Ok_inv & ->)%on_ir_Ok_inv. split; [done|]. by destruct w.
Qed.

Lemma frame_update P i f w u w' :
  on_ir (update i f) w = Ok (u, w') -> frame P w w'.
Proof. unfold update. apply frame_on_instrs. Qed.

Lemma frame_get (w : World) r w' : get w = Ok (r, w') -> r = w /\ w' = w.
Proof. by intros [= <- <-]. Qed.

Lemma frame_set_phis P b l w u w' :
  on_ir (modify_block b (set_phis l)) w = Ok (u, w') ->
  (forall blk, h_blocks (ir w) !! b = Some blk -> P b -> l `sublist_of` b_phis blk) ->
  frame P w w'.
Proof.
  intros (h' & (blk & Hb & ->)%modify_block_Ok_inv & ->)%on_ir_Ok_inv Hl.
  split; [done|]. intros k blk0 Hk. cbn.
  destruct (decide (k = b)) as [->|Hne].
  - rewrite list_lookup_insert_eq by (by eapply lookup_lt_Some).
    assert (blk0 = blk) as -> by congruence.
    eexists. split; [done|]. cbn. repeat split. by apply Hl.
  - rewrite list_lookup_insert_ne by done. by exists blk0.
Qed.

Lemma frame_add_phi_instr P b phi w r w' :
  on_ir (add_phi_instr b phi) w = Ok (r, w') -> ~ P b -> frame P w w'.
Proof.
  intros (h' & Hrun & ->)%on_ir_Ok_inv HP. unfold add_phi_instr in Hrun.
  apply bind_Ok_inv in Hrun as (p & h1 & [_ ->]%instr_Ok_inv & Hrun).
  apply bind_Ok_inv in Hrun as (u1 & h2 & [_ ->]%assert_Ok_inv & Hrun).
  apply bind_Ok_inv in Hrun as (u2 & h3 & (v & _ & ->)%update_Ok_inv & Hrun).
  apply bind_Ok_inv in Hrun as (u3 & h4 & (blk & Hb & ->)%modify_block_Ok_inv & Hrun).
  apply ret_Ok_inv in Hrun as [_ ->]. cbn in *.
  split; [done|]. intros k blk0 Hk. cbn.
  destruct (decide (k = b)) as [->|Hne].
  - rewrite list_lookup_insert_eq by (by eapply lookup_lt_Some).
    assert (blk0 = blk) as -> by congruence.
    eexists. split; [done|]. cbn. repeat split. done.
  - rewrite list_lookup_insert_ne by done. by exists blk0.
Qed.

Lemma frame_new_variable P i b w r w' :
  new_variable i b w = Ok (r, w') -> frame P w w'.
Proof.
  unfold new_variable. intros Hrun.
  apply bind_Ok_inv in Hrun as (v & w1 & [_ ->]%frame_instr & Hrun).
  apply bind_Ok_inv in Hrun as (u1 & w2 & [_ ->]%assert_Ok_inv & Hrun).
  apply bind_Ok_inv in Hrun as (blk & w3 & [_ ->]%frame_load_block & Hrun).
  apply bind_Ok_inv in Hrun as (w4 & w5 & [-> ->]%frame_get & Hrun).
  destruct (variables (builder w) !! i_name v) as [d|].
  - apply bind_Ok_inv in Hrun as (u2 & w6 & H2 & Hrun). apply (frame_update P) in H2.
    apply bind_Ok_inv in Hrun as (u3 & w7 & H3 & Hrun).
    apply (frame_on_builder P) in H3; [|done].
    apply ret_Ok_inv in Hrun as [_ ->].
    by eapply frame_trans.
  - apply bind_Ok_inv in Hrun as (u2 & w6 & H2 & Hrun).
    apply (frame_on_builder P) in H2; [|done].
    apply bind_Ok_inv in Hrun as (u3 & w7 & H3 & Hrun). apply (frame_update P) in H3.
    apply ret_Ok_inv in Hrun as [_ ->].
    by eapply frame_trans.
Qed.

Lemma trivial_scan_state depth l phi same h r h' :
  trivial_scan depth l phi same h = Ok (r, h') -> h' = h.
Proof.
  revert same h. induction l as [|param rest IH]; intros same h; cbn [trivial_scan].
  - by intros [_ ->]%ret_Ok_inv.
  - intros (is_same & h1 & H1 & Hrun)%bind_Ok_inv.
    assert (h1 = h) as ->.
    { destruct same; [apply pure_Ok_inv in H1 as [_ ->]|apply ret_Ok_inv in H1 as [_ ->]]; done. }
    apply bind_Ok_inv in Hrun as (skip & h2 & H2 & Hrun).
    assert (h2 = h) as ->.
    { destruct is_same; [apply ret_Ok_inv in H2 as [_ ->]|apply pure_Ok_inv in H2 as [_ ->]]; done. }
    destruct skip; [by eapply IH|].
    destruct same; [apply ret_Ok_inv in Hrun as [_ ->]; done|by eapply IH].
Qed.

Lemma py_remove_sublist bs ins depth l x l' :
  py_remove bs ins depth l x = Ok l' -> l' `sublist_of` l.
Proof.
  unfold py_remove. destruct (py_find _ _ _ _ _) as [[i|]| |]; try done.
  intros [= <-]. apply sublist_delete.
Qed.

Lemma remove_as_trivial_frame depth recur phi p same w r w' :
  (forall u w1 r1 w2, recur u w1 = Ok (r1, w2) -> frame anywhere w1 w2) ->
  remove_as_trivial depth recur phi p same w = Ok (r, w') -> frame anywhere w w'.
Proof.
  intros Hrec. unfold remove_as_trivial. destruct (i_block p) as [b|]; [|done].
  intros (blk & w1 & [Hb ->]%frame_load_block & Hrun)%bind_Ok_inv.
  apply bind_Ok_inv in Hrun as (l & w2 & H2 & Hrun).
  assert (l `sublist_of` b_phis blk /\ w2 = w) as [Hl ->].
  { apply on_ir_Ok_inv in H2 as (h' & (ins' & H2 & ->)%on_instrs_Ok_inv & ->).
    apply pure_Ok_inv in H2 as [H2 ->]. split; [by eapply py_remove_sublist|].
    by destruct w as [[] ?]. }
  apply bind_Ok_inv in Hrun as (u3 & w3 & H3 & Hrun).
  apply (frame_set_phis anywhere) in H3; [|intros blk0 Hb0 _; congruence].
  apply bind_Ok_inv in Hrun as (u4 & w4 & H4 & Hrun).
  apply (frame_on_instrs anywhere) in H4.
  apply bind_Ok_inv in Hrun as (w5 & w6 & [-> ->]%frame_get & Hrun).
  destruct (variables (builder w4) !! i_name p) as [d|]; [|done].
  apply bind_Ok_inv in Hrun as (u7 & w7 & H7 & Hrun).
  apply (frame_on_builder anywhere) in H7; [|done].
  apply bind_Ok_inv in Hrun as (u8 & w8 & H8 & Hrun).
  apply ret_Ok_inv in Hrun as [_ ->].
  apply (for_each_Ok_ind (frame anywhere)) in H8.
  - eauto using frame_trans.
  - apply frame_refl.
  - apply frame_trans.
  - intros use s1 s2 u _ Hbody.
    apply bind_Ok_inv in Hbody as (vu & s3 & [_ ->]%frame_instr & Hbody).
    destruct (is_phi (i_body vu)).
    + apply bind_Ok_inv in Hbody as (r1 & s4 & Hr & [_ ->]%ret_Ok_inv). by eapply Hrec.
    + apply ret_Ok_inv in Hbody as [_ ->]. apply frame_refl.
Qed.

Lemma remove_trivial_phi_frame depth fuel phi w r w' :
  remove_trivial_phi depth fuel phi w = Ok (r, w') -> frame anywhere w w'.
Proof.
  revert phi w r w'. induction fuel as [|fuel IH]; intros phi w r w'; [done|].
  cbn [remove_trivial_phi].
  intros (p & w1 & [_ ->]%frame_instr & Hrun)%bind_Ok_inv.
  destruct (i_body p) as [| | | | | |inputs| | |]; try done.
  apply bind_Ok_inv in Hrun as (scan & w2 & H2 & Hrun).
  assert (w2 = w) as ->.
  { apply on_ir_Ok_inv in H2 as (h' & ->%trivial_scan_state & ->). by destruct w. }
  destruct scan as [same|].
  - eapply remove_as_trivial_frame; [|exact Hrun]. intros u w1 r1 w2. apply IH.
  - apply ret_Ok_inv in Hrun as [_ ->]. apply frame_refl.
Qed.

(** ** [get_reaching_def] below a sealed block with one predecessor *)

Lemma sealed_single_frame block P w w' :
  frame P w w' -> sealed_single block w -> sealed_single block w'.
Proof.
  intros [Hs H] (blk & Hb & Hn & Hp).
  destruct (H block blk Hb) as (blk' & Hb' & Hn' & Hp' & _).
  exists blk'. rewrite Hs, Hn', Hp'. done.
Qed.

Lemma reaching_def_frame depth block fuel :
  (forall v b w r w', get_reaching_def depth fuel v b w = Ok (r, w') ->
     sealed_single block w -> frame (only block) w w')
  /\ (forall v b w r w', get_reaching_def_recursive depth fuel v b w = Ok (r, w') ->
     sealed_single block w -> frame (only block) w w')
  /\ (forall v phi w r w', add_phi_operands depth fuel v phi w = Ok (r, w') ->
     sealed_single block w -> frame (only block) w w').
Proof.
  induction fuel as [|fuel (IHg & IHr & IHa)]; [done|].
  split; [|split].
  - intros v b w r w'. cbn [get_reaching_def].
    intros (w0 & w1 & [-> ->]%frame_get & Hrun)%bind_Ok_inv Hg.
    destruct (variables (builder w) !! v) as [d|]; [|done].
    apply bind_Ok_inv in Hrun as (blk & w2 & [Hb ->]%frame_load_block & Hrun).
    destruct (current_def d !! b_name blk) as [r0|].
    + apply ret_Ok_inv in Hrun as [_ ->]. apply frame_refl.
    + by eapply IHr.
  - intros v b w r w'. cbn [get_reaching_def_recursive].
    intros (blk & w1 & [Hb ->]%frame_load_block & Hrun)%bind_Ok_inv Hg.
    apply bind_Ok_inv in Hrun as (w0 & w2 & [-> ->]%frame_get & Hrun).
    assert (Hother : (b_name blk ∉ sealed_blocks (builder w) \/ length (b_preds blk) <> 1%nat)
                     -> ~ only block b).
    { intros Hcase ->. destruct Hg as (blk0 & Hb0 & Hn0 & Hp0).
      assert (blk0 = blk) as -> by congruence. tauto. }
    destruct (bool_decide (b_name blk ∈ sealed_blocks (builder w))) eqn:Hsealed.
    + assert (Hmulti : forall w3 r3,
                (phi0 <- on_ir (on_instrs (fun _ => new_Phi v VOID)) ;;
                 match variables (builder w) !! v with
                 | None => raise KeyError
                 | Some d =>
                     on_ir (update phi0 (set_ssa_id (Some (count d)))) ;;;
                     on_ir (add_phi_instr b phi0) ;;;
                     new_variable phi0 b ;;;
                     add_phi_operands depth fuel v phi0
                 end) w = Ok (r3, w3) ->
                length (b_preds blk) <> 1%nat -> frame (only block) w w3).
      { intros w3 r3 Hm Hlen.
        apply bind_Ok_inv in Hm as (phi & w4 & H4 & Hm).
        apply (frame_on_instrs (only block)) in H4.
        destruct (variables (builder w) !! v) as [d|]; [|done].
        apply bind_Ok_inv in Hm as (u5 & w5 & H5 & Hm).
        apply (frame_update (only block)) in H5.
        apply bind_Ok_inv in Hm as (u6 & w6 & H6 & Hm).
        apply (frame_add_phi_instr (only block)) in H6; [|apply Hother; by right].
        apply bind_Ok_inv in Hm as (u7 & w7 & H7 & Hm).
        apply (frame_new_variable (only block)) in H7.
        assert (Hf : frame (only block) w w7) by eauto using frame_trans.
        eapply frame_trans; [exact Hf|]. eapply IHa; [exact Hm|].
        by eapply sealed_single_frame. }
      destruct (b_preds blk) as [|pred [|pred2 rest]] eqn:Hpreds.
      * eapply Hmulti; [exact Hrun|done].
      * by eapply IHg.
      * eapply Hmulti; [exact Hrun|done].
    + apply bool_decide_eq_false in Hsealed.
      apply bind_Ok_inv in Hrun as (phi & w4 & H4 & Hrun).
      apply (frame_on_instrs (only block)) in H4.
      apply bind_Ok_inv in Hrun as (u5 & w5 & H5 & Hrun).
      apply (frame_add_phi_instr (only block)) in H5; [|apply Hother; by left].
      apply bind_Ok_inv in Hrun as (u6 & w6 & H6 & Hrun).
      apply (frame_new_variable (only block)) in H6.
      apply bind_Ok_inv in Hrun as (u7 & w7 & H7 & Hrun).
      apply (frame_on_builder (only block)) in H7; [|done].
      apply ret_Ok_inv in Hrun as [_ ->].
      eauto using frame_trans.
  - intros v phi w r w'. cbn [add_phi_operands].
    intros (p & w1 & [_ ->]%frame_instr & Hrun)%bind_Ok_inv Hg.
    destruct (i_block p) as [b|]; [|done].
    apply bind_Ok_inv in Hrun as (blk & w2 & [Hb ->]%frame_load_block & Hrun).
    apply bind_Ok_inv in Hrun as (u3 & w3 & H3 & Hrun).
    assert (Hloop : sealed_single block w -> frame (only block) w w3).
    { eapply (for_each_Ok_ind
                (fun s s' => sealed_single block s -> frame (only block) s s'));
        [| | |exact H3].
      - intros s _. apply frame_refl.
      - intros s1 s2 s3 H12 H23 Hg1. specialize (H12 Hg1).
        eapply frame_trans; [exact H12|]. apply H23. by eapply sealed_single_frame.
      - intros pred s1 s2 u _ Hbody Hg1.
        apply bind_Ok_inv in Hbody as (r1 & s3 & Hr1 & Hbody).
        apply (frame_on_instrs (only block)) in Hbody.
        eapply frame_trans; [by eapply IHg|done]. }
    eapply frame_trans; [by apply Hloop|].
    eapply frame_weaken; [|by eapply remove_trivial_phi_frame]. done.
Qed.

(** C3: for a registered variable and a block of the arena, (1) when the
    block has a local definition recorded, [get_reaching_def] returns it
    and changes nothing; (2) when it has none, is sealed and has exactly
    one predecessor, [get_reaching_def] on the block is [get_reaching_def]
    on that predecessor (two calls deeper), and whenever that returns, the
    phi list of the block has gained no phi: it is a sublist of what it
    was. *)
Theorem get_reaching_def_local_or_single_pred
    (depth fuel : nat) (w : World) (variable : string) (block : nat)
    (d : SSADef) (blk : Block) :
  variables (builder w) !! variable = Some d ->
  h_blocks (ir w) !! block = Some blk ->
  (forall r, current_def d !! b_name blk = Some r ->
     get_reaching_def depth (S fuel) variable block w = Ok (r, w))
  /\ (forall pred,
        current_def d !! b_name blk = None ->
        b_name blk ∈ sealed_blocks (builder w) ->
        b_preds blk = [pred] ->
        get_reaching_def depth (S (S fuel)) variable block w
          = get_reaching_def depth fuel variable pred w
        /\ forall r w', get_reaching_def depth fuel variable pred w = Ok (r, w') ->
             exists blk', h_blocks (ir w') !! block = Some blk'
               /\ b_phis blk' `sublist_of` b_phis blk).
Proof.
  intros Hd Hb.
  assert (Hload : on_ir (load_block block) w = Ok (blk, w)).
  { unfold on_ir, load_block. rewrite Hb. by destruct w. }
  split.
  - intros r Hr. cbn [get_reaching_def].
    rewrite bind_unfold. cbn [get]. rewrite Hd, bind_unfold, Hload, Hr. done.
  - intros pred Hnone Hsealed Hpreds. split.
    + cbn [get_reaching_def].
      rewrite bind_unfold. cbn [get]. rewrite Hd, bind_unfold, Hload, Hnone.
      cbn [get_reaching_def_recursive].
      rewrite bind_unfold, Hload, bind_unfold. cbn [get].
      rewrite bool_decide_eq_true_2 by done. by rewrite Hpreds.
    + intros r w' Hrun.
      destruct (reaching_def_frame depth block fuel) as (Hg & _ & _).
      destruct (Hg variable pred w r w' Hrun) as [_ Hframe].
      { exists blk. by rewrite Hpreds. }
      destruct (Hframe block blk Hb) as (blk' & Hb' & _ & _ & Hl).
      exists blk'. split; [done|]. by apply Hl.
Qed.

(** [linear]: the definition of [i] is local to bb0 and reaches bb1
    through its one predecessor. *)
Lemma get_reaching_def_witness :
  get_reaching_def eq_depth 1 "i" 0 linear = Ok (Some 0%nat, linear)
  /\ get_reaching_def eq_depth 3 "i" 1 linear = get_reaching_def eq_depth 1 "i" 0 linear
  /\ exists blk', h_blocks (ir linear) !! 1%nat = Some blk' /\ b_phis blk' `sublist_of` [].
Proof.
  assert (Hv : exists d, variables (builder linear) !! "i" = Some d
                 /\ current_def d !! "bb0" = Some (Some 0%nat)
                 /\ current_def d !! "bb1" = None).
  { eexists. split; [vm_compute; reflexivity|]. split; vm_compute; reflexivity. }
  destruct Hv as (d & Hd & Hd0 & Hd1).
  assert (Hb0 : h_blocks (ir linear) !! 0%nat = Some (mkBlock "bb0" [0%nat] [] [] [1%nat]))
    by (vm_compute; reflexivity).
  assert (Hb1 : h_blocks (ir linear) !! 1%nat = Some (mkBlock "bb1" [] [] [0%nat] []))
    by (vm_compute; reflexivity).
  destruct (get_reaching_def_local_or_single_pred eq_depth 0 linear "i" 0 d _ Hd Hb0)
    as [Hlocal _].
  destruct (get_reaching_def_local_or_single_pred eq_depth 1 linear "i" 1 d _ Hd Hb1)
    as [_ Hpred].
  destruct (Hpred 0%nat) as [Heq Hphis]; [exact Hd1| |reflexivity|].
  { apply (bool_decide_unpack _). by vm_compute. }
  split; [by apply Hlocal|]. split; [exact Heq|].
  eapply Hphis. by apply Hlocal.
Defined.

(** ** Trivial phis *)

Lemma on_ir_instr_lookup (i : nat) (w : World) :
  on_ir (instr i) w = match h_instrs (ir w) !! i with Some v => Ok (v, w) | None => Stuck end.
Proof. unfold on_ir. rewrite instr_lookup. destruct w. cbn. by destruct (_ !! _). Qed.

Lemma on_ir_same {A} (m : M Heap A) (w : World) (a : A) :
  m (ir w) = Ok (a, ir w) -> on_ir m w = Ok (a, w).
Proof. unfold on_ir. intros ->. by destruct w. Qed.

(** ** The scan of [remove_trivial_phi], declaratively *)

Lemma list_eq_refl (eq : nat -> nat -> result bool) (l : list nat) : list_eq eq l l = Ok true.
Proof. induction l as [|a l IH]; cbn; [done|]. by rewrite bool_decide_eq_true_2, IH. Qed.

(** [a == a] is never false. *)
Lemma py_eq_refl_cases (bs : list Block) (ins : list Instruction) (fuel a : nat) :
  py_eq bs ins fuel a a = Ok true \/ py_eq bs ins fuel a a = Stuck.
Proof.
  revert a. induction fuel as [|fuel IH]; intros a; [by right|].
  cbn [py_eq]. destruct (ins !! a) as [ia|]; [|by right].
  assert (Ha : assignment_eq ia ia = true).
  { unfold assignment_eq. by rewrite !bool_decide_eq_true_2. }
  assert (Hl : forall l, py_list_eq (py_eq bs ins fuel) l l = Ok true).
  { intros l. unfold py_list_eq. rewrite bool_decide_eq_true_2 by done. apply list_eq_refl. }
  assert (Hn : forall t, block_name_eq bs t t = Ok true \/ block_name_eq bs t t = Stuck).
  { intros t. unfold block_name_eq. destruct (bs !! t); [left|by right].
    by rewrite bool_decide_eq_true_2. }
  destruct (i_body ia) as [v|o x y|v|v|c ps|c ps|l|t|c t f|v];
    rewrite ?Ha, ?Hl, ?bool_decide_eq_true_2 by done; try (by left).
  - destruct (IH x) as [-> | ->]; [|by right]. apply IH.
  - apply IH.
  - apply IH.
  - apply Hn.
  - destruct (IH c) as [-> | ->]; [|by right].
    destruct (Hn t) as [-> | ->]; [|by right]. apply Hn.
  - apply IH.
Qed.

Lemma trivial_scan_cons_Some depth x l phi p h :
  trivial_scan depth (x :: l) phi (Some p) h
  = match py_eq (h_blocks h) (h_instrs h) depth x p with
    | Ok true => trivial_scan depth l phi (Some p) h
    | Ok false =>
        match py_eq (h_blocks h) (h_instrs h) depth x phi with
        | Ok true => trivial_scan depth l phi (Some p) h
        | Ok false => Ok (None, h)
        | Raise e => Raise e
        | Stuck => Stuck
        end
    | Raise e => Raise e
    | Stuck => Stuck
    end.
Proof.
  cbn [trivial_scan]. unfold bind, pure, ret.
  destruct (py_eq (h_blocks h) (h_instrs h) depth x p) as [[|]| |]; try done.
  by destruct (py_eq (h_blocks h) (h_instrs h) depth x phi) as [[|]| |].
Qed.

Lemma trivial_scan_cons_None depth x l phi h :
  trivial_scan depth (x :: l) phi None h
  = match py_eq (h_blocks h) (h_instrs h) depth x phi with
    | Ok true => trivial_scan depth l phi None h
    | Ok false => trivial_scan depth l phi (Some x) h
    | Raise e => Raise e
    | Stuck => Stuck
    end.
Proof.
  cbn [trivial_scan]. unfold bind, pure, ret.
  by destruct (py_eq (h_blocks h) (h_instrs h) depth x phi) as [[|]| |].
Qed.

(** The scan once [same] is [p]: it answers "non-trivial" exactly when
    an input equal neither to [p] nor to the phi comes after inputs that
    equal one of the two. *)
Lemma trivial_scan_Some_None depth l phi p h h' :
  trivial_scan depth l phi (Some p) h = Ok (None, h') <->
  h' = h /\ exists l1 q rest,
    l = l1 ++ q :: rest
    /\ Forall (fun x => py_eq (h_blocks h) (h_instrs h) depth x p = Ok true
                        \/ (py_eq (h_blocks h) (h_instrs h) depth x p = Ok false
                            /\ py_eq (h_blocks h) (h_instrs h) depth x phi = Ok true)) l1
    /\ py_eq (h_blocks h) (h_instrs h) depth q p = Ok false
    /\ py_eq (h_blocks h) (h_instrs h) depth q phi = Ok false.
Proof.
  induction l as [|x l IH].
  - cbn [trivial_scan]. split; [done|]. intros (_ & l1 & q & rest & Hl & _). by destruct l1.
  - rewrite trivial_scan_cons_Some.
    destruct (py_eq (h_blocks h) (h_instrs h) depth x p) as [[|]| |] eqn:E1.
    + rewrite IH. split.
      * intros (-> & l1 & q & rest & -> & Hl1 & Hq1 & Hq2). split; [done|].
        exists (x :: l1), q, rest. split; [done|]. split; [|done].
        constructor; [by left|done].
      * intros (-> & l1 & q & rest & Hl & Hl1 & Hq1 & Hq2). split; [done|].
        destruct l1 as [|y l1]; cbn in Hl; injection Hl as -> ->; [congruence|].
        apply Forall_cons in Hl1 as [_ Hl1]. by exists l1, q, rest.
    + destruct (py_eq (h_blocks h) (h_instrs h) depth x phi) as [[|]| |] eqn:E2.
      * rewrite IH. split.
        -- intros (-> & l1 & q & rest & -> & Hl1 & Hq1 & Hq2). split; [done|].
           exists (x :: l1), q, rest. split; [done|]. split; [|done].
           constructor; [by right|done].
        -- intros (-> & l1 & q & rest & Hl & Hl1 & Hq1 & Hq2). split; [done|].
           destruct l1 as [|y l1]; cbn in Hl; injection Hl as -> ->; [congruence|].
           apply Forall_cons in Hl1 as [_ Hl1]. by exists l1, q, rest.
      * split.
        -- intros [= <-]. split; [done|]. by exists [], x, l.
        -- by intros (-> & _).
      * split; [done|]. intros (-> & l1 & q & rest & Hl & Hl1 & Hq1 & Hq2).
        destruct l1 as [|y l1]; cbn in Hl; injection Hl as -> ->; [congruence|].
        apply Forall_cons in Hl1 as [[?|[_ ?]] _]; congruence.
      * split; [done|]. intros (-> & l1 & q & rest & Hl & Hl1 & Hq1 & Hq2).
        destruct l1 as [|y l1]; cbn in Hl; injection Hl as -> ->; [congruence|].
        apply Forall_cons in Hl1 as [[?|[_ ?]] _]; congruence.
    + split; [done|]. intros (-> & l1 & q & rest & Hl & Hl1 & Hq1 & Hq2).
      destruct l1 as [|y l1]; cbn in Hl; injection Hl as -> ->; [congruence|].
      apply Forall_cons in Hl1 as [[?|[? _]] _]; congruence.
    + split; [done|]. intros (-> & l1 & q & rest & Hl & Hl1 & Hq1 & Hq2).
      destruct l1 as [|y l1]; cbn in Hl; injection Hl as -> ->; [congruence|].
      apply Forall_cons in Hl1 as [[?|[? _]] _]; congruence.
Qed.

(** The scan from the start answers "non-trivial" exactly on the phis
    that merge two values. *)
Lemma trivial_scan_None_iff depth l phi h h' :
  trivial_scan depth l phi None h = Ok (None, h') <-> h' = h /\ merges_two depth h phi l.
Proof.
  unfold merges_two. cbv zeta. induction l as [|x l IH].
  - cbn [trivial_scan]. split; [done|].
    intros (_ & l0 & p & l1 & q & rest & Hl & _). by destruct l0.
  - rewrite trivial_scan_cons_None.
    destruct (py_eq (h_blocks h) (h_instrs h) depth x phi) as [[|]| |] eqn:E.
    + rewrite IH. split.
      * intros (-> & l0 & p & l1 & q & rest & -> & H0 & Hp & H1 & Hq1 & Hq2). split; [done|].
        exists (x :: l0), p, l1, q, rest. split; [done|]. split; [by constructor|done].
      * intros (-> & l0 & p & l1 & q & rest & Hl & H0 & Hp & H1 & Hq1 & Hq2). split; [done|].
        destruct l0 as [|y l0]; cbn in Hl; injection Hl as -> ->; [congruence|].
        apply Forall_cons in H0 as [_ H0]. by exists l0, p, l1, q, rest.
    + rewrite trivial_scan_Some_None. split.
      * intros (-> & l1 & q & rest & -> & H1 & Hq1 & Hq2). split; [done|].
        by exists [], x, l1, q, rest.
      * intros (-> & l0 & p & l1 & q & rest & Hl & H0 & Hp & H1 & Hq1 & Hq2). split; [done|].
        destruct l0 as [|y l0]; cbn in Hl; injection Hl as -> ->.
        -- by exists l1, q, rest.
        -- apply Forall_cons in H0 as [? _]. congruence.
    + split; [done|].
      intros (-> & l0 & p & l1 & q & rest & Hl & H0 & Hp & H1 & Hq1 & Hq2).
      destruct l0 as [|y l0]; cbn in Hl; injection Hl as -> ->; [congruence|].
      apply Forall_cons in H0 as [? _]. congruence.
    + split; [done|].
      intros (-> & l0 & p & l1 & q & rest & Hl & H0 & Hp & H1 & Hq1 & Hq2).
      destruct l0 as [|y l0]; cbn in Hl; injection Hl as -> ->; [congruence|].
      apply Forall_cons in H0 as [? _]. congruence.
Qed.

(** A value the scan settles on is not equal to the phi. *)
Lemma trivial_scan_same depth l phi same q h h' :
  trivial_scan depth l phi same h = Ok (Some (Some q), h') ->
  same = Some q \/ py_eq (h_blocks h) (h_instrs h) depth q phi = Ok false.
Proof.
  revert same. induction l as [|x l IH]; intros same; cbn [trivial_scan].
  - intros [[= ->] ->]%ret_Ok_inv. by left.
  - intros (is_same & h1 & H1 & Hrun)%bind_Ok_inv.
    assert (h1 = h) as ->.
    { destruct same; [apply pure_Ok_inv in H1 as [_ ->]|apply ret_Ok_inv in H1 as [_ ->]];
        done. }
    apply bind_Ok_inv in Hrun as (skip & h2 & H2 & Hrun).
    destruct is_same.
    + apply ret_Ok_inv in H2 as [-> ->]. by apply IH in Hrun.
    + apply pure_Ok_inv in H2 as [H2 ->]. destruct skip; [by apply IH in Hrun|].
      destruct same as [s|]; [by apply ret_Ok_inv in Hrun as [? _]|].
      apply IH in Hrun as [[= <-]|Hq]; [by right|by right].
Qed.

Lemma remove_as_trivial_result depth recur phi p same w r w' :
  remove_as_trivial depth recur phi p same w = Ok (r, w') -> r = same.
Proof.
  unfold remove_as_trivial. destruct (i_block p) as [b|]; [|done].
  intros (blk & w1 & _ & Hrun)%bind_Ok_inv.
  apply bind_Ok_inv in Hrun as (l & w2 & _ & Hrun).
  apply bind_Ok_inv in Hrun as (u3 & w3 & _ & Hrun).
  apply bind_Ok_inv in Hrun as (u4 & w4 & _ & Hrun).
  apply bind_Ok_inv in Hrun as (w5 & w6 & [-> ->]%frame_get & Hrun).
  destruct (variables (builder w4) !! i_name p) as [d|]; [|done].
  apply bind_Ok_inv in Hrun as (u7 & w7 & _ & Hrun).
  apply bind_Ok_inv in Hrun as (u8 & w8 & _ & Hrun).
  by apply ret_Ok_inv in Hrun as [-> _].
Qed.

(** C4 (amended): [remove_trivial_phi] returns the phi itself exactly on
    the phis that merge two values ([merges_two]).  On such a phi a run
    changes neither the IR nor the builder, and running twice is running
    once: both runs return the phi and leave the graph as it was. *)
Theorem remove_nontrivial_phi_idempotent
    (depth fuel : nat) (w : World) (phi : nat) (p : Instruction) (inputs : list nat) :
  h_instrs (ir w) !! phi = Some p -> i_body p = Phi inputs ->
  ((exists w', remove_trivial_phi depth (S fuel) phi w = Ok (Some phi, w'))
   <-> merges_two depth (ir w) phi inputs)
  /\ (merges_two depth (ir w) phi inputs ->
      remove_trivial_phi depth (S fuel) phi w = Ok (Some phi, w)
      /\ (remove_trivial_phi depth (S fuel) phi ;;; remove_trivial_phi depth (S fuel) phi) w
         = Ok (Some phi, w)).
Proof.
  intros Hp Hbody.
  assert (Hrun : merges_two depth (ir w) phi inputs ->
                 remove_trivial_phi depth (S fuel) phi w = Ok (Some phi, w)).
  { intros Hm.
    assert (Hscan : trivial_scan depth inputs phi None (ir w) = Ok (None, ir w))
      by (by apply trivial_scan_None_iff).
    cbn [remove_trivial_phi].
    rewrite bind_unfold, on_ir_instr_lookup, Hp, Hbody.
    by rewrite bind_unfold, (on_ir_same _ _ _ Hscan). }
  split; [split|].
  - intros [w' Hr]. cbn [remove_trivial_phi] in Hr.
    rewrite bind_unfold, on_ir_instr_lookup, Hp, Hbody in Hr.
    apply bind_Ok_inv in Hr as (scan & w1 & (h1 & Hscan & ->)%on_ir_Ok_inv & Hr).
    destruct scan as [same|].
    + apply remove_as_trivial_result in Hr. subst same.
      apply trivial_scan_same in Hscan as [[=]|Hne].
      by destruct (py_eq_refl_cases (h_blocks (ir w)) (h_instrs (ir w)) depth phi)
        as [Hrefl|Hrefl]; rewrite Hrefl in Hne.
    + by apply trivial_scan_None_iff in Hscan as [_ Hm].
  - intros Hm. exists w. by apply Hrun.
  - intros Hm. split; [by apply Hrun|]. rewrite bind_unfold, (Hrun Hm). by apply Hrun.
Qed.

(** [merge_of "2"]: the phi of [x = const 1] and [x = const 2] merges
    two values. *)
Lemma remove_nontrivial_phi_idempotent_witness :
  exists w, merge_of "2" fresh_world = Ok (2%nat, w)
    /\ remove_trivial_phi eq_depth 3 2 w = Ok (Some 2%nat, w)
    /\ (remove_trivial_phi eq_depth 3 2 ;;; remove_trivial_phi eq_depth 3 2) w
       = Ok (Some 2%nat, w).
Proof.
  eexists. split; [vm_compute; reflexivity|].
  refine (proj2 (remove_nontrivial_phi_idempotent eq_depth 2 _ 2
            (mkInstruction (Some 2%nat) [3%nat] [0; 1]%nat "x" VOID (Some 2%nat)
               (Phi [0; 1]%nat)) [0; 1]%nat _ _) _);
    [vm_compute; reflexivity|reflexivity|].
  exists [], 0%nat, [], 1%nat, [].
  split; [reflexivity|]. split; [constructor|]. split; [vm_compute; reflexivity|].
  split; [constructor|]. split; vm_compute; reflexivity.
Defined.

Lemma py_eq_const bs ins depth c1 c2 v1 v2 s1 s2 :
  ins !! c1 = Some v1 -> ins !! c2 = Some v2 ->
  i_body v1 = Const s1 -> i_body v2 = Const s2 ->
  py_eq bs ins (S depth) c1 c2 =
    Ok (bool_decide (i_name v1 = i_name v2) && bool_decide (i_type v1 = i_type v2)
        && bool_decide (s1 = s2)).
Proof. intros H1 H2 Hb1 Hb2. cbn [py_eq]. by rewrite H1, H2, Hb1, Hb2. Qed.

Lemma py_eq_const_phi bs ins depth c phi v p s l :
  ins !! c = Some v -> ins !! phi = Some p ->
  i_body v = Const s -> i_body p = Phi l ->
  py_eq bs ins (S depth) c phi = Ok false.
Proof. intros H1 H2 Hb1 Hb2. cbn [py_eq]. by rewrite H1, H2, Hb1, Hb2. Qed.

Lemma trivial_scan_equal_consts depth h phi c1 c2 p v1 v2 s l :
  h_instrs h !! phi = Some p -> i_body p = Phi l ->
  h_instrs h !! c1 = Some v1 -> h_instrs h !! c2 = Some v2 ->
  i_body v1 = Const s -> i_body v2 = Const s ->
  i_name v1 = i_name v2 -> i_type v1 = i_type v2 ->
  trivial_scan (S depth) [c1; c2] phi None h = Ok (Some (Some c1), h).
Proof.
  intros Hp Hl H1 H2 Hb1 Hb2 Hn Ht.
  cbn [trivial_scan]. unfold bind at 1. cbn [ret].
  unfold bind at 1. cbv beta.
  rewrite (py_eq_const_phi _ _ _ _ _ _ _ _ _ H1 Hp Hb1 Hl). cbn [pure].
  unfold bind at 1. cbv beta.
  rewrite (py_eq_const _ _ _ _ _ _ _ _ _ H2 H1 Hb2 Hb1).
  rewrite !bool_decide_eq_true_2 by done. cbn [andb pure].
  unfold bind at 1. cbn [ret]. done.
Qed.

(** With a differing payload the two constants are two values. *)
Lemma trivial_scan_distinct_consts depth h phi c1 c2 p v1 v2 s1 s2 l :
  h_instrs h !! phi = Some p -> i_body p = Phi l ->
  h_instrs h !! c1 = Some v1 -> h_instrs h !! c2 = Some v2 ->
  i_body v1 = Const s1 -> i_body v2 = Const s2 -> s1 <> s2 ->
  trivial_scan (S depth) [c1; c2] phi None h = Ok (None, h).
Proof.
  intros Hp Hl H1 H2 Hb1 Hb2 Hne.
  cbn [trivial_scan]. unfold bind at 1. cbn [ret].
  unfold bind at 1. cbv beta.
  rewrite (py_eq_const_phi _ _ _ _ _ _ _ _ _ H1 Hp Hb1 Hl). cbn [pure].
  unfold bind at 1. cbv beta.
  rewrite (py_eq_const _ _ _ _ _ _ _ _ _ H2 H1 Hb2 Hb1).
  rewrite (bool_decide_eq_false_2 (s2 = s1)) by congruence.
  rewrite andb_false_r. cbn [pure].
  unfold bind at 1. cbv beta.
  rewrite (py_eq_const_phi _ _ _ _ _ _ _ _ _ H2 Hp Hb2 Hl). cbn [pure ret]. done.
Qed.

(** ** Inversion of the instruction-store primitives *)

Lemma load_Ok_inv i ins v ins' : load i ins = Ok (v, ins') -> ins !! i = Some v /\ ins' = ins.
Proof. unfold load. destruct (_ !! _); [by intros [= <- <-]|done]. Qed.

Lemma modify_Ok_inv i f ins (u : unit) ins' :
  modify i f ins = Ok (u, ins') -> exists v, ins !! i = Some v /\ ins' = <[i := f v]> ins.
Proof. unfold modify. destruct (_ !! _) as [v|]; [|done]. intros [= _ <-]. by exists v. Qed.

Lemma contains_Ok_inv bs depth l x ins b ins' :
  contains bs depth l x ins = Ok (b, ins') -> ins' = ins.
Proof. unfold contains. by intros [_ ->]%pure_Ok_inv. Qed.

Lemma without_Ok_inv bs depth l x ins l' ins' :
  without bs depth l x ins = Ok (l', ins') -> py_remove bs ins depth l x = Ok l' /\ ins' = ins.
Proof. unfold without. by intros [? ->]%pure_Ok_inv. Qed.

Lemma index_of_Ok_inv bs depth l x ins i ins' :
  index_of bs depth l x ins = Ok (i, ins') -> ins' = ins.
Proof. unfold index_of. by intros [_ ->]%pure_Ok_inv. Qed.

(** ** Fields that the use-def bookkeeping leaves alone *)

Section Preserved.
Context {X : Type} (proj : Instruction -> X).
Hypothesis proj_users : forall l v, proj (set_users l v) = proj v.
Hypothesis proj_used_vars : forall l v, proj (set_used_vars l v) = proj v.

Lemma same_on_refl ins : same_on proj ins ins.
Proof. split; [done|]. intros k v Hk. by exists v. Qed.

Lemma same_on_trans ins1 ins2 ins3 :
  same_on proj ins1 ins2 -> same_on proj ins2 ins3 -> same_on proj ins1 ins3.
Proof.
  intros [Hl1 H1] [Hl2 H2]. split; [congruence|]. intros k v Hk.
  destruct (H1 k v Hk) as (v1 & Hk1 & Hb1). destruct (H2 k v1 Hk1) as (v2 & Hk2 & Hb2).
  exists v2. split; [done|congruence].
Qed.

Lemma modify_same_on i f ins u ins' :
  (forall v, proj (f v) = proj v) ->
  modify i f ins = Ok (u, ins') -> same_on proj ins ins'.
Proof.
  intros Hf (v & Hv & ->)%modify_Ok_inv. split; [apply length_insert|].
  intros k v0 Hk. destruct (decide (k = i)) as [->|Hne].
  - rewrite list_lookup_insert_eq by (by eapply lookup_lt_Some).
    eexists. split; [done|]. rewrite Hf. congruence.
  - rewrite list_lookup_insert_ne by done. by exists v0.
Qed.

Lemma add_user_same_on bs depth self i ins u ins' :
  add_user bs depth self i ins = Ok (u, ins') -> same_on proj ins ins'.
Proof.
  unfold add_user.
  intros (s & ins1 & [_ ->]%load_Ok_inv & Hrun)%bind_Ok_inv.
  apply bind_Ok_inv in Hrun as (present & ins2 & ->%contains_Ok_inv & Hrun).
  destruct present.
  - apply ret_Ok_inv in Hrun as [_ ->]. apply same_on_refl.
  - eapply modify_same_on; [|exact Hrun]. intros v. apply proj_users.
Qed.

Lemma remove_user_same_on bs depth self i ins u ins' :
  remove_user bs depth self i ins = Ok (u, ins') -> same_on proj ins ins'.
Proof.
  unfold remove_user.
  intros (s & ins1 & [_ ->]%load_Ok_inv & Hrun)%bind_Ok_inv.
  apply bind_Ok_inv in Hrun as (present & ins2 & ->%contains_Ok_inv & Hrun).
  apply bind_Ok_inv in Hrun as (u1 & ins3 & [_ ->]%assert_Ok_inv & Hrun).
  apply bind_Ok_inv in Hrun as (l & ins4 & [_ ->]%without_Ok_inv & Hrun).
  eapply modify_same_on; [|exact Hrun]. intros v. apply proj_users.
Qed.

Lemma add_used_vars_same_on bs depth self vars ins u ins' :
  add_used_vars bs depth self vars ins = Ok (u, ins') -> same_on proj ins ins'.
Proof.
  unfold add_used_vars. apply for_each_Ok_ind.
  - apply same_on_refl.
  - apply same_on_trans.
  - intros var s1 s2 u' _ Hrun.
    apply bind_Ok_inv in Hrun as (s & ins1 & [_ ->]%load_Ok_inv & Hrun).
    apply bind_Ok_inv in Hrun as (present & ins2 & ->%contains_Ok_inv & Hrun).
    apply bind_Ok_inv in Hrun as (u1 & ins3 & H3 & Hrun).
    apply add_user_same_on in Hrun.
    eapply same_on_trans; [|exact Hrun].
    destruct present.
    + apply ret_Ok_inv in H3 as [_ ->]. apply same_on_refl.
    + eapply modify_same_on; [|exact H3]. intros v. apply proj_used_vars.
Qed.

Lemma remove_used_vars_same_on bs depth self vars ins u ins' :
  remove_used_vars bs depth self vars ins = Ok (u, ins') -> same_on proj ins ins'.
Proof.
  unfold remove_used_vars. apply for_each_Ok_ind.
  - apply same_on_refl.
  - apply same_on_trans.
  - intros var s1 s2 u' _ Hrun.
    apply bind_Ok_inv in Hrun as (v & ins1 & [_ ->]%load_Ok_inv & Hrun).
    apply bind_Ok_inv in Hrun as (u1 & ins2 & [_ ->]%assert_Ok_inv & Hrun).
    apply bind_Ok_inv in Hrun as (s & ins3 & [_ ->]%load_Ok_inv & Hrun).
    apply bind_Ok_inv in Hrun as (present & ins4 & ->%contains_Ok_inv & Hrun).
    apply bind_Ok_inv in Hrun as (u2 & ins5 & [_ ->]%assert_Ok_inv & Hrun).
    apply bind_Ok_inv in Hrun as (l & ins6 & [_ ->]%without_Ok_inv & Hrun).
    apply bind_Ok_inv in Hrun as (u3 & ins7 & H7 & Hrun).
    apply remove_user_same_on in Hrun.
    eapply same_on_trans; [|exact Hrun].
    eapply modify_same_on; [|exact H7]. intros v0. apply proj_used_vars.
Qed.

Lemma replace_use_scan_same_on bs depth n self old pos ins u ins' :
  replace_use_scan bs depth n self old pos ins = Ok (u, ins') -> same_on proj ins ins'.
Proof.
  revert pos ins. induction n as [|n IH]; intros pos ins; cbn [replace_use_scan].
  - intros [_ ->]%ret_Ok_inv. apply same_on_refl.
  - intros (s & ins1 & [_ ->]%load_Ok_inv & Hrun)%bind_Ok_inv.
    destruct (i_used_vars s !! pos) as [var|].
    + apply bind_Ok_inv in Hrun as (u1 & ins2 & H2 & Hrun).
      apply IH in Hrun. eapply same_on_trans; [|exact Hrun].
      destruct (bool_decide (var = old)).
      * by eapply remove_used_vars_same_on.
      * apply ret_Ok_inv in H2 as [_ ->]. apply same_on_refl.
    + apply ret_Ok_inv in Hrun as [_ ->]. apply same_on_refl.
Qed.

Lemma base_replace_use_same_on bs depth self old new ins u ins' :
  base_replace_use bs depth self old new ins = Ok (u, ins') -> same_on proj ins ins'.
Proof.
  unfold base_replace_use.
  intros (o & ins1 & [_ ->]%load_Ok_inv & Hrun)%bind_Ok_inv.
  apply bind_Ok_inv in Hrun as (u1 & ins2 & [_ ->]%assert_Ok_inv & Hrun).
  destruct new as [n|]; [|done].
  apply bind_Ok_inv in Hrun as (nw & ins3 & [_ ->]%load_Ok_inv & Hrun).
  apply bind_Ok_inv in Hrun as (u2 & ins4 & [_ ->]%assert_Ok_inv & Hrun).
  apply bind_Ok_inv in Hrun as (s & ins5 & [_ ->]%load_Ok_inv & Hrun).
  apply bind_Ok_inv in Hrun as (u3 & ins6 & [_ ->]%assert_Ok_inv & Hrun).
  apply bind_Ok_inv in Hrun as (u4 & ins7 & H7 & Hrun).
  apply replace_use_scan_same_on in H7. apply add_used_vars_same_on in Hrun.
  by eapply same_on_trans.
Qed.

Hypothesis proj_body : forall p v, proj (set_body p v) = proj v.

Lemma replace_use_same_on bs depth self old new ins u ins' :
  replace_use bs depth self old new ins = Ok (u, ins') -> same_on proj ins ins'.
Proof.
  unfold replace_use.
  intros (s & ins0 & [Hs ->]%load_Ok_inv & Hrun)%bind_Ok_inv.
  assert (Hcont :
    (base_replace_use bs depth self old new ;;;
     match new with
     | None => raise AssertionError
     | Some n =>
     s <- load self ;;
     let swap v := if bool_decide (v = old) then n else v in
     match i_body s with
     | BinOp o x y => modify self (set_body (BinOp o (swap x) (swap y)))
     | Cast _ => modify self (set_body (Cast n))
     | Id _ => modify self (set_body (Id n))
     | Return _ => modify self (set_body (Return n))
     | Cbr _ t f => modify self (set_body (Cbr n t f))
     | FunctionCall c ps => modify self (set_body (FunctionCall c (swap <$> ps)))
     | ProcedureCall c ps => modify self (set_body (ProcedureCall c (swap <$> ps)))
     | Phi l =>
         i <- index_of bs depth l old ;;
         let l1 := list_insert_at i n l in
         modify self (set_body (Phi l1)) ;;;
         l2 <- without bs depth l1 old ;;
         modify self (set_body (Phi l2))
     | Const _ | Ubr _ => stuck
     end end) ins = Ok (u, ins')).
  { destruct (i_body s); try done. }
  clear Hrun.
  apply bind_Ok_inv in Hcont as (u1 & ins1 & H1%base_replace_use_same_on & Hrun).
  eapply same_on_trans; [exact H1|]. destruct new as [n|]; [|done].
  apply bind_Ok_inv in Hrun as (s1 & ins2 & [Hs1 ->]%load_Ok_inv & Hrun).
  destruct (i_body s1) as [ |o x y| | |c ps|c ps|l| |c t f| ]; try done.
  1-5, 7-8: eapply modify_same_on; [|exact Hrun]; intros v; apply proj_body.
  apply bind_Ok_inv in Hrun as (i & ins3 & ->%index_of_Ok_inv & Hrun).
  apply bind_Ok_inv in Hrun as (u3 & ins4 & H4 & Hrun).
  apply bind_Ok_inv in Hrun as (l2 & ins5 & [_ ->]%without_Ok_inv & Hrun).
  eapply same_on_trans; (eapply modify_same_on; [|eassumption]); intros v; apply proj_body.
Qed.

Lemma replace_by_same_on bs depth self value ins u ins' :
  replace_by bs depth self value ins = Ok (u, ins') -> same_on proj ins ins'.
Proof.
  unfold replace_by.
  intros (s & ins0 & [Hs ->]%load_Ok_inv & Hrun)%bind_Ok_inv.
  apply bind_Ok_inv in Hrun as (u1 & ins1 & H1 & Hrun).
  apply bind_Ok_inv in Hrun as (s2 & ins2 & [_ ->]%load_Ok_inv & Hrun).
  apply remove_used_vars_same_on in Hrun.
  eapply same_on_trans; [|exact Hrun].
  revert H1. apply for_each_Ok_ind.
  - apply same_on_refl.
  - apply same_on_trans.
  - intros use s1 s3 u' _. apply replace_use_same_on.
Qed.

End Preserved.

(** [replace_instr(old_instr, new_instr)] writes the [block] field of
    [new_instr] and of no other instruction: [old_instr] leaves the
    list with its field as it was. *)
Lemma replace_instr_block_fields depth self old new h u h' :
  replace_instr depth self old new h = Ok (u, h') ->
  forall k v, k <> new -> h_instrs h !! k = Some v ->
    exists v', h_instrs h' !! k = Some v' /\ i_block v' = i_block v.
Proof.
  unfold replace_instr.
  intros (b & h1 & [_ ->]%load_block_Ok_inv & Hrun)%bind_Ok_inv.
  apply bind_Ok_inv in Hrun as (present & h2 & H2 & Hrun). unfold listed in H2.
  apply on_instrs_Ok_inv in H2 as (ins2 & ->%contains_Ok_inv & ->).
  apply bind_Ok_inv in Hrun as (u3 & h3 & [_ ->]%assert_Ok_inv & Hrun).
  apply bind_Ok_inv in Hrun as (n & h4 & [_ ->]%instr_Ok_inv & Hrun).
  apply bind_Ok_inv in Hrun as (u5 & h5 & [_ ->]%assert_Ok_inv & Hrun).
  apply bind_Ok_inv in Hrun as (u6 & h6 & [_ ->]%assert_Ok_inv & Hrun).
  apply bind_Ok_inv in Hrun as (u7 & h7 & (n0 & Hn0 & ->)%update_Ok_inv & Hrun).
  apply bind_Ok_inv in Hrun as (pos & h8 & (ins8 & ->%index_of_Ok_inv & ->)%on_instrs_Ok_inv & Hrun).
  apply bind_Ok_inv in Hrun as (u9 & h9 & (blk9 & _ & ->)%modify_block_Ok_inv & Hrun).
  apply bind_Ok_inv in Hrun as (u10 & h10 & (ins10 & H10 & ->)%on_instrs_Ok_inv & Hrun).
  apply bind_Ok_inv in Hrun as (b11 & h11 & [_ ->]%load_block_Ok_inv & Hrun).
  apply bind_Ok_inv in Hrun as (l & h12 & (ins12 & [_ ->]%without_Ok_inv & ->)%on_instrs_Ok_inv & Hrun).
  apply modify_block_Ok_inv in Hrun as (blk13 & _ & ->).
  cbn in *. apply (replace_by_same_on i_block) in H10 as [_ H10]; try done.
  intros k v Hne Hk. apply H10. by rewrite list_lookup_insert_ne.
Qed.

Lemma remove_as_trivial_block_fields depth recur phi p same w r w' :
  (forall u w1 r1 w2, recur u w1 = Ok (r1, w2) ->
     same_on i_block (h_instrs (ir w1)) (h_instrs (ir w2))) ->
  remove_as_trivial depth recur phi p same w = Ok (r, w') ->
  same_on i_block (h_instrs (ir w)) (h_instrs (ir w')).
Proof.
  intros Hrec. unfold remove_as_trivial. destruct (i_block p) as [b|]; [|done].
  intros (blk & w1 & [Hb ->]%frame_load_block & Hrun)%bind_Ok_inv.
  apply bind_Ok_inv in Hrun as (l & w2 & H2 & Hrun).
  assert (w2 = w) as ->.
  { apply on_ir_Ok_inv in H2 as (h' & (ins' & H2 & ->)%on_instrs_Ok_inv & ->).
    apply pure_Ok_inv in H2 as [H2 ->]. by destruct w as [[] ?]. }
  apply bind_Ok_inv in Hrun as (u3 & w3 & H3 & Hrun).
  apply on_ir_Ok_inv in H3 as (h3 & (blk3 & _ & ->)%modify_block_Ok_inv & ->).
  apply bind_Ok_inv in Hrun as (u4 & w4 & H4 & Hrun).
  apply on_ir_Ok_inv in H4 as (h4 & (ins4 & H4 & ->)%on_instrs_Ok_inv & ->).
  cbn in H4. apply (replace_by_same_on i_block) in H4; try done.
  apply bind_Ok_inv in Hrun as (w5 & w6 & [-> ->]%frame_get & Hrun).
  cbn [builder ir] in Hrun.
  destruct (variables (builder w) !! i_name p) as [d|]; [|done].
  apply bind_Ok_inv in Hrun as (u7 & w7 & [= _ <-] & Hrun).
  apply bind_Ok_inv in Hrun as (u8 & w8 & H8 & Hrun).
  apply ret_Ok_inv in Hrun as [_ ->].
  apply (for_each_Ok_ind
           (fun w1 w2 => same_on i_block (h_instrs (ir w1)) (h_instrs (ir w2)))) in H8.
  - cbn in H8. by eapply same_on_trans.
  - intros s. apply same_on_refl.
  - intros s1 s2 s3. apply same_on_trans.
  - intros use s1 s2 u _ Hbody.
    apply bind_Ok_inv in Hbody as (vu & s3 & [_ ->]%frame_instr & Hbody).
    destruct (is_phi (i_body vu)).
    + apply bind_Ok_inv in Hbody as (r1 & s4 & Hr & [_ ->]%ret_Ok_inv). by eapply Hrec.
    + apply ret_Ok_inv in Hbody as [_ ->]. apply same_on_refl.
Qed.

(** [remove_trivial_phi] writes no [block] field: the phi it takes out of
    the phi list of its block, and every phi taken out by the recursive
    calls, keeps the field it had. *)
Lemma remove_trivial_phi_block_fields depth fuel phi w r w' :
  remove_trivial_phi depth fuel phi w = Ok (r, w') ->
  same_on i_block (h_instrs (ir w)) (h_instrs (ir w')).
Proof.
  revert phi w r w'. induction fuel as [|fuel IH]; intros phi w r w'; [done|].
  cbn [remove_trivial_phi].
  intros (p & w1 & [_ ->]%frame_instr & Hrun)%bind_Ok_inv.
  destruct (i_body p) as [| | | | | |inputs| | |]; try done.
  apply bind_Ok_inv in Hrun as (scan & w2 & H2 & Hrun).
  assert (w2 = w) as ->.
  { apply on_ir_Ok_inv in H2 as (h' & ->%trivial_scan_state & ->). by destruct w. }
  destruct scan as [same|].
  - eapply remove_as_trivial_block_fields; [|exact Hrun]. intros u w1 r1 w2. apply IH.
  - apply ret_Ok_inv in Hrun as [_ ->]. apply same_on_refl.
Qed.

(** ** What [replace_by] does to operand fields *)

Lemma modify_set_body self body ins u ins' :
  modify self (set_body body) ins = Ok (u, ins') ->
  length ins' = length ins
  /\ forall k v, ins !! k = Some v ->
       exists v', ins' !! k = Some v'
         /\ (k <> self -> i_body v' = i_body v) /\ (k = self -> i_body v' = body).
Proof.
  intros (v0 & Hv0 & ->)%modify_Ok_inv. split; [apply length_insert|].
  intros k v Hk. destruct (decide (k = self)) as [->|Hne].
  - rewrite list_lookup_insert_eq by (by eapply lookup_lt_Some).
    eexists. split; [done|]. split; [done|]. done.
  - rewrite list_lookup_insert_ne by done. exists v. split; [done|]. split; [done|]. done.
Qed.

(** After [use.replace_use(old, new)] the operand fields of [use] are
    redirected (for a [use] that is no phi), and no other object's are
    touched. *)
Lemma replace_use_bodies bs depth self old n ins u ins' :
  replace_use bs depth self old (Some n) ins = Ok (u, ins') ->
  length ins' = length ins
  /\ forall k v, ins !! k = Some v ->
       exists v', ins' !! k = Some v'
         /\ (k <> self -> i_body v' = i_body v)
         /\ (k = self -> is_phi (i_body v) = false -> i_body v' = redirect old n (i_body v)).
Proof.
  unfold replace_use.
  intros (s & ins0 & [Hs ->]%load_Ok_inv & Hrun)%bind_Ok_inv.
  assert (Hcont :
    (base_replace_use bs depth self old (Some n) ;;;
     s <- load self ;;
     let swap v := if bool_decide (v = old) then n else v in
     match i_body s with
     | BinOp o x y => modify self (set_body (BinOp o (swap x) (swap y)))
     | Cast _ => modify self (set_body (Cast n))
     | Id _ => modify self (set_body (Id n))
     | Return _ => modify self (set_body (Return n))
     | Cbr _ t f => modify self (set_body (Cbr n t f))
     | FunctionCall c ps => modify self (set_body (FunctionCall c (swap <$> ps)))
     | ProcedureCall c ps => modify self (set_body (ProcedureCall c (swap <$> ps)))
     | Phi l =>
         i <- index_of bs depth l old ;;
         let l1 := list_insert_at i n l in
         modify self (set_body (Phi l1)) ;;;
         l2 <- without bs depth l1 old ;;
         modify self (set_body (Phi l2))
     | Const _ | Ubr _ => stuck
     end) ins = Ok (u, ins')).
  { destruct (i_body s); try done. }
  clear Hrun.
  apply bind_Ok_inv in Hcont as (u1 & ins1 & H1 & Hrun).
  apply (base_replace_use_same_on i_body) in H1 as [Hl1 H1]; try done.
  apply bind_Ok_inv in Hrun as (s1 & ins2 & [Hs1 ->]%load_Ok_inv & Hrun).
  destruct (H1 self s Hs) as (s1' & Hs1' & Hbody1).
  assert (s1' = s1) as -> by congruence.
  assert (Hfinal : length ins' = length ins1
    /\ forall k v, ins1 !! k = Some v ->
         exists v', ins' !! k = Some v'
           /\ (k <> self -> i_body v' = i_body v)
           /\ (k = self -> is_phi (i_body s1) = false ->
               i_body v' = redirect old n (i_body s1))).
  { destruct (i_body s1) as [ |o x y| | |c ps|c ps|l| |c t f| ] eqn:Hb; try done.
    1-5, 7-8:
      apply modify_set_body in Hrun as [Hl Hm]; split; [done|];
      intros k v Hk; destruct (Hm k v Hk) as (v' & Hk' & Hne & Heq);
      exists v'; split; [done|]; split; [done|]; intros -> _; by rewrite Heq.
    apply bind_Ok_inv in Hrun as (i & ins3 & ->%index_of_Ok_inv & Hrun).
    apply bind_Ok_inv in Hrun as (u3 & ins4 & [Hl4 H4]%modify_set_body & Hrun).
    apply bind_Ok_inv in Hrun as (l2 & ins5 & [_ ->]%without_Ok_inv & Hrun).
    apply modify_set_body in Hrun as [Hl5 H5].
    split; [congruence|]. intros k v Hk.
    destruct (H4 k v Hk) as (v4 & Hk4 & Hne4 & _).
    destruct (H5 k v4 Hk4) as (v5 & Hk5 & Hne5 & _).
    exists v5. split; [done|]. split; [|done].
    intros Hne. rewrite Hne5, Hne4; done. }
  destruct Hfinal as [Hlf Hf]. split; [congruence|].
  intros k v Hk. destruct (H1 k v Hk) as (v1 & Hk1 & Hb1).
  destruct (Hf k v1 Hk1) as (v' & Hk' & Hne & Heq).
  exists v'. split; [done|]. split.
  - intros Hk0. rewrite Hne by done. done.
  - intros -> Hphi. assert (v = s) as -> by congruence.
    rewrite Heq; [by rewrite Hbody1|done|by rewrite Hbody1].
Qed.

Lemma redirect_not_phi old new p : is_phi p = false -> is_phi (redirect old new p) = false.
Proof. by destruct p. Qed.

Lemma redirect_idemp old new p : new <> old -> redirect old new (redirect old new p) = redirect old new p.
Proof.
  intros Hne.
  assert (Hswap : forall v, (if bool_decide ((if bool_decide (v = old) then new else v) = old)
                             then new else (if bool_decide (v = old) then new else v))
                            = (if bool_decide (v = old) then new else v)).
  { intros v. destruct (bool_decide (v = old)) eqn:E; [|by rewrite E].
    by rewrite bool_decide_eq_false_2. }
  destruct p; cbn; try done.
  - by rewrite !Hswap.
  - f_equal. rewrite <- list_fmap_compose. apply list_fmap_ext. intros _ v _. apply Hswap.
  - f_equal. rewrite <- list_fmap_compose. apply list_fmap_ext. intros _ v _. apply Hswap.
Qed.

Lemma redirect_loop bs depth old n l ins u ins' :
  n <> old ->
  for_each l (fun use => replace_use bs depth use old (Some n)) ins = Ok (u, ins') ->
  length ins' = length ins
  /\ forall k v, ins !! k = Some v -> is_phi (i_body v) = false ->
       exists v', ins' !! k = Some v'
         /\ i_body v' = if bool_decide (k ∈ l) then redirect old n (i_body v) else i_body v.
Proof.
  intros Hne. revert ins. induction l as [|use l IH]; intros ins; cbn [for_each].
  - intros [_ ->]%ret_Ok_inv. split; [done|]. intros k v Hk _. exists v. split; [done|].
    rewrite bool_decide_eq_false_2; [done|apply not_elem_of_nil].
  - intros (u1 & ins1 & [Hl1 H1]%replace_use_bodies & [Hl2 H2]%IH)%bind_Ok_inv.
    split; [congruence|]. intros k v Hk Hphi.
    destruct (H1 k v Hk) as (v1 & Hk1 & Hother & Hself).
    destruct (decide (k = use)) as [->|Hku].
    + specialize (Hself eq_refl Hphi).
      destruct (H2 use v1 Hk1) as (v2 & Hk2 & Hb2).
      { rewrite Hself. by apply redirect_not_phi. }
      exists v2. split; [done|].
      rewrite (bool_decide_eq_true_2 (use ∈ use :: l)) by apply list_elem_of_here.
      rewrite Hb2, Hself. destruct (bool_decide (use ∈ l)); [by apply redirect_idemp|done].
    + specialize (Hother Hku).
      destruct (H2 k v1 Hk1) as (v2 & Hk2 & Hb2); [by rewrite Hother|].
      exists v2. split; [done|]. rewrite Hb2, Hother.
      assert (bool_decide (k ∈ use :: l) = bool_decide (k ∈ l)) as ->; [|done].
      apply bool_decide_ext. rewrite elem_of_cons. tauto.
Qed.

(** [old.replace_by(new)]: every user of [old] that is no phi has its
    operand fields redirected to [new]; the operand fields of the
    instructions that are neither users nor phis stay. *)
Lemma replace_by_bodies bs depth old n ins u ins' p :
  n <> old -> ins !! old = Some p ->
  replace_by bs depth old (Some n) ins = Ok (u, ins') ->
  length ins' = length ins
  /\ forall k v, ins !! k = Some v -> is_phi (i_body v) = false ->
       exists v', ins' !! k = Some v'
         /\ i_body v' = if bool_decide (k ∈ i_users p) then redirect old n (i_body v)
                        else i_body v.
Proof.
  intros Hne Hp. unfold replace_by.
  intros (s & ins0 & [Hs ->]%load_Ok_inv & Hrun)%bind_Ok_inv.
  assert (s = p) as -> by congruence.
  apply bind_Ok_inv in Hrun as (u1 & ins1 & [Hl1 H1]%redirect_loop & Hrun); [|done].
  apply bind_Ok_inv in Hrun as (s2 & ins2 & [_ ->]%load_Ok_inv & Hrun).
  apply (remove_used_vars_same_on i_body) in Hrun as [Hl2 H2]; try done.
  split; [congruence|]. intros k v Hk Hphi.
  destruct (H1 k v Hk Hphi) as (v1 & Hk1 & Hb1).
  destruct (H2 k v1 Hk1) as (v2 & Hk2 & Hb2).
  exists v2. split; [done|]. congruence.
Qed.

Lemma remove_as_trivial_effect depth recur phi p n w r w' b blk :
  h_instrs (ir w) !! phi = Some p -> i_block p = Some b ->
  h_blocks (ir w) !! b = Some blk -> n <> phi ->
  (forall u vu, u ∈ i_users p -> u <> phi -> h_instrs (ir w) !! u = Some vu ->
     is_phi (i_body vu) = false) ->
  remove_as_trivial depth recur phi p (Some n) w = Ok (r, w') ->
  r = Some n
  /\ (exists blk', h_blocks (ir w') !! b = Some blk'
        /\ py_remove (h_blocks (ir w)) (h_instrs (ir w)) depth (b_phis blk) phi
           = Ok (b_phis blk'))
  /\ (forall u vu, u ∈ i_users p -> h_instrs (ir w) !! u = Some vu ->
        is_phi (i_body vu) = false ->
        exists vu', h_instrs (ir w') !! u = Some vu'
          /\ i_body vu' = redirect phi n (i_body vu)).
Proof.
  intros Hp Hblock Hb Hne Husers. unfold remove_as_trivial. rewrite Hblock.
  intros (blk0 & w1 & [Hb0 ->]%frame_load_block & Hrun)%bind_Ok_inv.
  assert (blk0 = blk) as -> by congruence.
  apply bind_Ok_inv in Hrun as (l & w2 & H2 & Hrun).
  apply on_ir_Ok_inv in H2 as (h2 & (ins2 & [Hl ->]%without_Ok_inv & ->)%on_instrs_Ok_inv & ->).
  apply bind_Ok_inv in Hrun as (u3 & w3 & H3 & Hrun).
  apply on_ir_Ok_inv in H3 as (h3 & (blk3 & Hb3 & ->)%modify_block_Ok_inv & ->).
  cbn [ir h_instrs h_blocks builder] in *.
  assert (blk3 = blk) as -> by congruence.
  apply bind_Ok_inv in Hrun as (u4 & w4 & H4 & Hrun).
  apply on_ir_Ok_inv in H4 as (h4 & (ins4 & H4 & ->)%on_instrs_Ok_inv & ->).
  cbn [ir h_instrs h_blocks builder] in *.
  apply (replace_by_bodies _ _ _ _ _ _ _ p) in H4 as [Hlen H4]; [|done|done].
  apply bind_Ok_inv in Hrun as (w5 & w6 & [-> ->]%frame_get & Hrun).
  cbn [ir h_instrs h_blocks builder] in *.
  destruct (variables (builder w) !! i_name p) as [d|]; [|done].
  apply bind_Ok_inv in Hrun as (u7 & w7 & [= _ <-] & Hrun).
  apply bind_Ok_inv in Hrun as (u8 & w8 & H8 & [-> ->]%ret_Ok_inv).
  match type of H8 with for_each _ _ ?w0 = _ => set (w7 := w0) in * end.
  assert (Hloop : w7 = w7 -> w8 = w7).
  { eapply (for_each_Ok_ind (fun s s' => s = w7 -> s' = w7)); [| | |exact H8].
    - done.
    - intros s1 s2 s3 H12 H23 E. by apply H23, H12.
    - intros use s1 s2 u [Huse Hnphi]%list_elem_of_filter Hbody ->.
      apply bind_Ok_inv in Hbody as (vu' & s3 & [Hvu' ->]%frame_instr & Hbody).
      cbn [w7 ir h_instrs] in Hvu'.
      assert (Hlt : (use < length (h_instrs (ir w)))%nat).
      { rewrite <- Hlen. by eapply lookup_lt_Some. }
      destruct (lookup_lt_is_Some_2 _ _ Hlt) as [vu Hvu].
      pose proof (Husers use vu Hnphi Huse Hvu) as Hphi.
      destruct (H4 use vu Hvu Hphi) as (v' & Hv' & Hbody').
      assert (v' = vu') as -> by congruence.
      assert (Hnot : is_phi (i_body vu') = false).
      { rewrite Hbody'. destruct (bool_decide _); [by apply redirect_not_phi|done]. }
      rewrite Hnot in Hbody. by apply ret_Ok_inv in Hbody as [_ ->]. }
  rewrite (Hloop eq_refl). clear Hloop H8.
  split; [done|]. split.
  - exists (set_phis l blk). cbn [w7 ir h_blocks].
    rewrite list_lookup_insert_eq by (by eapply lookup_lt_Some). done.
  - intros u vu Hu Hvu Hphi. cbn [w7 ir h_instrs].
    destruct (H4 u vu Hvu Hphi) as (v' & Hv' & Hbody').
    exists v'. split; [done|]. by rewrite Hbody', bool_decide_eq_true_2.
Qed.

(** A phi whose inputs are two distinct [Const] instructions with the
    same name, type and payload (whatever their [ssa_id]s): the scan
    judges it trivial with [same] the first input, and
    [remove_trivial_phi] is the removal of the phi with that [same].
    When the users of the phi are no phis and the call returns, it returns
    the first input, the block's phi list is what [phis.remove(phi)] makes
    of it, and every instruction listed in [phi.users] has its operand
    fields redirected to the first input. *)
Lemma remove_trivial_phi_structural
    (depth fuel : nat) (w : World) (phi c1 c2 : nat) (p v1 v2 : Instruction) (s : string) :
  h_instrs (ir w) !! phi = Some p -> i_body p = Phi [c1; c2] ->
  h_instrs (ir w) !! c1 = Some v1 -> h_instrs (ir w) !! c2 = Some v2 ->
  c1 <> c2 ->
  i_body v1 = Const s -> i_body v2 = Const s ->
  i_name v1 = i_name v2 -> i_type v1 = i_type v2 ->
  trivial_scan (S depth) [c1; c2] phi None (ir w) = Ok (Some (Some c1), ir w)
  /\ remove_trivial_phi (S depth) (S fuel) phi w
     = remove_as_trivial (S depth) (remove_trivial_phi (S depth) fuel) phi p (Some c1) w
  /\ forall b blk r w',
       i_block p = Some b -> h_blocks (ir w) !! b = Some blk ->
       (forall u vu, u ∈ i_users p -> u <> phi -> h_instrs (ir w) !! u = Some vu ->
          is_phi (i_body vu) = false) ->
       remove_trivial_phi (S depth) (S fuel) phi w = Ok (r, w') ->
       r = Some c1
       /\ (exists blk', h_blocks (ir w') !! b = Some blk'
             /\ py_remove (h_blocks (ir w)) (h_instrs (ir w)) (S depth) (b_phis blk) phi
                = Ok (b_phis blk'))
       /\ (forall u vu, u ∈ i_users p -> h_instrs (ir w) !! u = Some vu ->
             is_phi (i_body vu) = false ->
             exists vu', h_instrs (ir w') !! u = Some vu'
               /\ i_body vu' = redirect phi c1 (i_body vu)).
Proof.
  intros Hp Hbody H1 H2 Hdistinct Hb1 Hb2 Hn Ht.
  assert (Hscan := trivial_scan_equal_consts depth (ir w) phi c1 c2 p v1 v2 s _
                     Hp Hbody H1 H2 Hb1 Hb2 Hn Ht).
  assert (Heq : remove_trivial_phi (S depth) (S fuel) phi w
     = remove_as_trivial (S depth) (remove_trivial_phi (S depth) fuel) phi p (Some c1) w).
  { cbn [remove_trivial_phi].
    rewrite bind_unfold, on_ir_instr_lookup, Hp, Hbody.
    by rewrite bind_unfold, (on_ir_same _ _ _ Hscan). }
  split; [exact Hscan|]. split; [exact Heq|].
  intros b blk r w' Hblock Hblk Husers Hrun. rewrite Heq in Hrun.
  eapply remove_as_trivial_effect; try done.
  intros ->. rewrite Hp in H1. injection H1 as <-. rewrite Hbody in Hb1. done.
Qed.

(** [merge_of "1"]: two blocks define [x = const 1]; the phi of the two
    is removed and [l = id x] reads the first constant. *)
Lemma remove_trivial_phi_structural_witness :
  trivial_scan eq_depth [0; 1]%nat 2 None (ir merged) = Ok (Some (Some 0%nat), ir merged)
  /\ remove_trivial_phi eq_depth 3 2 merged = Ok (Some 0%nat, merged_then_removed)
  /\ (exists blk', h_blocks (ir merged_then_removed) !! 2%nat = Some blk'
        /\ py_remove (h_blocks (ir merged)) (h_instrs (ir merged)) eq_depth [2%nat] 2
           = Ok (b_phis blk'))
  /\ (exists vu', h_instrs (ir merged_then_removed) !! 3%nat = Some vu'
        /\ i_body vu' = Id 0).
Proof.
  destruct (remove_trivial_phi_structural 31 2 merged 2 0 1
              (mkInstruction (Some 2%nat) [3%nat] [0%nat] "x" VOID (Some 2%nat) (Phi [0; 1]%nat))
              (mkInstruction (Some 0%nat) [2%nat] [] "x" I32 (Some 0%nat) (Const "1"))
              (mkInstruction (Some 1%nat) [2%nat] [] "x" I32 (Some 1%nat) (Const "1"))
              "1")
    as (Hscan & _ & Heff); try (vm_compute; reflexivity); [lia|].
  assert (Hrun : remove_trivial_phi eq_depth 3 2 merged = Ok (Some 0%nat, merged_then_removed))
    by (vm_compute; reflexivity).
  destruct (Heff 2%nat (mkBlock "bb3" [3%nat] [2%nat] [] []) (Some 0%nat) merged_then_removed)
    as (_ & Hphis & Husers); try (vm_compute; reflexivity).
  { intros u vu ->%list_elem_of_singleton _ Hvu. vm_compute in Hvu.
    injection Hvu as <-. reflexivity. }
  split; [exact Hscan|]. split; [exact Hrun|]. split; [exact Hphis|].
  apply (Husers 3%nat (mkInstruction (Some 2%nat) [] [2%nat] "l" I32 (Some 0%nat) (Id 2)));
    [apply list_elem_of_here|vm_compute; reflexivity|reflexivity].
Defined.

(** The scan on a phi of two [Const] inputs: the phi is trivial, with
    [same] the first input, exactly when the two agree on name, type and
    payload; their [ssa_id]s are not read, nor is it asked whether they
    are one object. *)
Lemma trivial_scan_two_consts depth h phi c1 c2 p v1 v2 s1 s2 l :
  h_instrs h !! phi = Some p -> i_body p = Phi l ->
  h_instrs h !! c1 = Some v1 -> h_instrs h !! c2 = Some v2 ->
  i_body v1 = Const s1 -> i_body v2 = Const s2 ->
  trivial_scan (S depth) [c1; c2] phi None h
  = Ok (if bool_decide (i_name v1 = i_name v2) && bool_decide (i_type v1 = i_type v2)
           && bool_decide (s1 = s2)
        then Some (Some c1) else None, h).
Proof.
  intros Hp Hl H1 H2 Hb1 Hb2.
  rewrite trivial_scan_cons_None, (py_eq_const_phi _ _ _ _ _ _ _ _ _ H1 Hp Hb1 Hl).
  rewrite trivial_scan_cons_Some, (py_eq_const _ _ _ _ _ _ _ _ _ H2 H1 Hb2 Hb1).
  rewrite (py_eq_const_phi _ _ _ _ _ _ _ _ _ H2 Hp Hb2 Hl).
  assert (Hsym : bool_decide (i_name v2 = i_name v1) && bool_decide (i_type v2 = i_type v1)
                 && bool_decide (s2 = s1)
                 = bool_decide (i_name v1 = i_name v2) && bool_decide (i_type v1 = i_type v2)
                   && bool_decide (s1 = s2)).
  { f_equal; [f_equal|]; apply bool_decide_ext; split; congruence. }
  rewrite Hsym. clear Hsym.
  destruct (bool_decide (i_name v1 = i_name v2) && _ && _); reflexivity.
Qed.

(** C10 (the code at two failing inputs).  [equal_readers]: the phi of
    two equal constants is judged trivial and leaves the phi list of its
    block, the call returning the first constant; but of its two readers
    [l = id x] only the first was entered in [phi.users] (the second is
    [==] to it), so only the first is redirected: the second still reads
    the phi.  [twin_phis]: the phi is judged trivial, and it is the other,
    equal phi that [phis.remove(phi)] takes out of the list; the phi
    stays listed. *)
Theorem remove_trivial_phi_misses_equal_reader :
  (exists w0 w, equal_readers fresh_world = Ok (2%nat, w0)
     /\ users_of (ir w0) 2 = Some [3%nat]
     /\ body_of (ir w0) 3 = Some (Id 2) /\ body_of (ir w0) 4 = Some (Id 2)
     /\ remove_trivial_phi eq_depth 3 2 w0 = Ok (Some 0%nat, w)
     /\ phis_of (ir w) 2 = Some []
     /\ body_of (ir w) 3 = Some (Id 0)
     /\ body_of (ir w) 4 = Some (Id 2))
  /\ (exists w0 w, twin_phis fresh_world = Ok (2%nat, w0)
        /\ phis_of (ir w0) 0 = Some [1; 2]%nat
        /\ remove_trivial_phi eq_depth 3 2 w0 = Ok (Some 0%nat, w)
        /\ phis_of (ir w) 0 = Some [2%nat]).
Proof.
  split; do 2 eexists; (split; [vm_compute; reflexivity|]);
    repeat split; vm_compute; reflexivity.
Qed.

(** C4 (as stated, refuted): on [lone_phi] the first run removes the phi
    as trivial; the second run judges it trivial again and raises
    [ValueError] at [phi.block.phis.remove(phi)], the phi being in that
    list no more.  On [twin_phis] the second run returns and changes the
    graph: the first run removed the other, equal phi from the list, the
    second removes the phi itself. *)
Lemma remove_trivial_phi_not_idempotent :
  (phi <- lone_phi ;;
   remove_trivial_phi eq_depth 3 phi ;;; remove_trivial_phi eq_depth 3 phi) fresh_world
  = Raise ValueError
  /\ (exists w, (phi <- lone_phi ;; remove_trivial_phi eq_depth 3 phi) fresh_world
                = Ok (Some 0%nat, w)
        /\ phis_of (ir w) 0 = Some [])
  /\ (exists w1 w2,
        (phi <- twin_phis ;; remove_trivial_phi eq_depth 3 phi) fresh_world
        = Ok (Some 0%nat, w1)
        /\ (phi <- twin_phis ;;
            remove_trivial_phi eq_depth 3 phi ;;; remove_trivial_phi eq_depth 3 phi)
             fresh_world = Ok (Some 0%nat, w2)
        /\ phis_of (ir w1) 0 = Some [2%nat]
        /\ phis_of (ir w2) 0 = Some []).
Proof.
  split; [vm_compute; reflexivity|]. split.
  - eexists. split; vm_compute; reflexivity.
  - do 2 eexists. split; [vm_compute; reflexivity|].
    split; [vm_compute; reflexivity|]. split; vm_compute; reflexivity.
Qed.

(** ** The recursion of [DIA.run_pass], on every heap *)

Lemma py_find_lt bs ins depth l x i : py_find bs ins depth l x = Ok (Some i) -> (i < length l)%nat.
Proof.
  revert i. induction l as [|el l IH]; intros i; cbn; [done|].
  destruct (item_eq _ _ _ _ _) as [[|]| |]; try done.
  - intros [= <-]. lia.
  - destruct (py_find _ _ _ _ _) as [[j|]| |]; try done.
    intros [= <-]. specialize (IH j eq_refl). lia.
Qed.

Lemma py_remove_length bs ins depth l x l' :
  py_remove bs ins depth l x = Ok l' -> S (length l') = length l.
Proof.
  unfold py_remove. destruct (py_find _ _ _ _ _) as [[i|]| |] eqn:Hf; try done.
  intros [= <-]. apply py_find_lt in Hf. rewrite length_delete by (by apply lookup_lt_is_Some_2).
  lia.
Qed.

Lemma remove_user_used_vars bs depth self i ins u ins' :
  remove_user bs depth self i ins = Ok (u, ins') ->
  forall k, i_used_vars <$> ins' !! k = i_used_vars <$> ins !! k.
Proof.
  unfold remove_user.
  intros (s & ins1 & [_ ->]%load_Ok_inv & Hrun)%bind_Ok_inv.
  apply bind_Ok_inv in Hrun as (present & ins2 & ->%contains_Ok_inv & Hrun).
  apply bind_Ok_inv in Hrun as (u1 & ins3 & [_ ->]%assert_Ok_inv & Hrun).
  apply bind_Ok_inv in Hrun as (l & ins4 & [_ ->]%without_Ok_inv & Hrun).
  apply modify_Ok_inv in Hrun as (v & Hv & ->). intros k.
  destruct (decide (k = self)) as [->|Hne].
  - rewrite list_lookup_insert_eq by (by eapply lookup_lt_Some). by rewrite Hv.
  - by rewrite list_lookup_insert_ne.
Qed.

(** [remove_used_vars] takes one item off [self.used_vars] per argument. *)
Lemma remove_used_vars_length bs depth self vars ins u ins' v :
  ins !! self = Some v ->
  remove_used_vars bs depth self vars ins = Ok (u, ins') ->
  exists v', ins' !! self = Some v'
    /\ (length (i_used_vars v') + length vars = length (i_used_vars v))%nat.
Proof.
  unfold remove_used_vars. revert ins v.
  induction vars as [|var vars IH]; intros ins v Hv; cbn [for_each].
  - intros [_ ->]%ret_Ok_inv. exists v. split; [done|]. cbn. lia.
  - intros (u0 & ins0 & Hstep & Hrest)%bind_Ok_inv.
    apply bind_Ok_inv in Hstep as (vv & ins1 & [_ ->]%load_Ok_inv & Hstep).
    apply bind_Ok_inv in Hstep as (u1 & ins2 & [_ ->]%assert_Ok_inv & Hstep).
    apply bind_Ok_inv in Hstep as (s & ins3 & [Hs ->]%load_Ok_inv & Hstep).
    assert (s = v) as -> by congruence.
    apply bind_Ok_inv in Hstep as (present & ins4 & ->%contains_Ok_inv & Hstep).
    apply bind_Ok_inv in Hstep as (u2 & ins5 & [_ ->]%assert_Ok_inv & Hstep).
    apply bind_Ok_inv in Hstep as (l & ins6 & [Hl ->]%without_Ok_inv & Hstep).
    apply py_remove_length in Hl.
    apply bind_Ok_inv in Hstep as (u3 & ins7 & (v0 & Hv0 & ->)%modify_Ok_inv & Hstep).
    assert (v0 = v) as -> by congruence.
    pose proof (remove_user_used_vars _ _ _ _ _ _ _ Hstep self) as Hsame.
    rewrite list_lookup_insert_eq in Hsame by (by eapply lookup_lt_Some).
    destruct (ins0 !! self) as [v1|] eqn:Hv1; [|done].
    cbn in Hsame. injection Hsame as Hsame.
    destruct (IH ins0 v1 Hv1 Hrest) as (v' & Hv' & Hlen).
    exists v'. split; [done|]. cbn [length]. rewrite Hsame in Hlen. lia.
Qed.

(** After [block.remove_instr(instr)] the list [instr.used_vars] is empty. *)
Lemma remove_instr_empties_used_vars depth b i h u h' :
  remove_instr depth b i h = Ok (u, h') ->
  exists v', h_instrs h' !! i = Some v' /\ i_used_vars v' = [].
Proof.
  unfold remove_instr.
  intros (blk & h1 & [_ ->]%load_block_Ok_inv & Hrun)%bind_Ok_inv.
  apply bind_Ok_inv in Hrun as (present & h2 & H2 & Hrun).
  assert (h2 = h) as ->.
  { unfold listed in H2.
    apply on_instrs_Ok_inv in H2 as (ins' & ->%contains_Ok_inv & ->). by destruct h. }
  apply bind_Ok_inv in Hrun as (u1 & h3 & [_ ->]%assert_Ok_inv & Hrun).
  apply bind_Ok_inv in Hrun as (v & h4 & [Hv ->]%instr_Ok_inv & Hrun).
  apply bind_Ok_inv in Hrun as (u2 & h5 & [_ ->]%assert_Ok_inv & Hrun).
  apply bind_Ok_inv in Hrun as (u3 & h6 & (v0 & Hv0 & ->)%update_Ok_inv & Hrun).
  assert (v0 = v) as -> by congruence.
  apply bind_Ok_inv in Hrun as (u4 & h7 & (ins7 & H7 & ->)%on_instrs_Ok_inv & Hrun).
  cbn [h_instrs h_blocks] in *.
  eapply remove_used_vars_length in H7 as (v' & Hv' & Hlen);
    [|apply list_lookup_insert_eq; by eapply lookup_lt_Some].
  cbn in Hlen.
  apply bind_Ok_inv in Hrun as (blk2 & h8 & [_ ->]%load_block_Ok_inv & Hrun).
  apply bind_Ok_inv in Hrun as (l & h9 & (ins9 & [_ ->]%without_Ok_inv & ->)%on_instrs_Ok_inv & Hrun).
  apply modify_block_Ok_inv in Hrun as (blk3 & _ & ->). cbn.
  exists v'. split; [done|]. apply nil_length_inv. lia.
Qed.

(** So the recursive call of [remove_dead_instrs], which walks that very
    list, looks at nothing, after any successful removal. *)
Lemma dia_recursion_is_idle depth fuel b i h u h' :
  remove_instr depth b i h = Ok (u, h') ->
  remove_dead_instrs depth (S fuel) (UsedVarsOf i) 0 h' = Ok (tt, h').
Proof.
  intros (v' & Hv' & Hnil)%remove_instr_empties_used_vars.
  cbn [remove_dead_instrs read_source].
  rewrite bind_unfold, bind_unfold, instr_lookup, Hv'. cbn [ret]. by rewrite Hnil.
Qed.

(** ** The value table, on every input *)

(** The fingerprint's operand list is sorted whatever the commutativity
    test says: the parameter that decides receives the type. *)
Lemma Value_init_sorts_whatever ins opcode ty flag ps :
  Value_init ins opcode (PyType ty) (PyBool flag) ps
  = match py_sorted_by_str ins ps with
    | Ok l => Ok (mkValue opcode (PyBool flag) l)
    | Raise e => Raise e
    | Stuck => Stuck
    end.
Proof. reflexivity. Qed.

Lemma to_int_proper (n : Z) :
  Z.to_int n <> Decimal.Pos Decimal.Nil /\ Z.to_int n <> Decimal.Neg Decimal.Nil.
Proof.
  destruct n as [|p|p]; cbn; split; try discriminate;
    intros [= H]; by apply (DecimalPos.Unsigned.to_uint_nonnil p).
Qed.

(** [str] tells integers apart. *)
Lemma py_str_inj (a b : Z) : py_str a = py_str b -> a = b.
Proof.
  unfold py_str. intros H. apply DecimalZ.to_int_inj.
  assert (Some (Z.to_int a) = Some (Z.to_int b)) as [= ->]; [|done].
  destruct (to_int_proper a) as [Ha1 Ha2], (to_int_proper b) as [Hb1 Hb2].
  rewrite <- (NilZero.isi _ Ha1 Ha2), <- (NilZero.isi _ Hb1 Hb2). by rewrite H.
Qed.

Lemma ltb_asym (s t : string) : String.ltb s t = true -> String.ltb t s = false.
Proof.
  unfold String.ltb. rewrite (String.compare_antisym t s).
  by destruct (String.compare s t).
Qed.

Lemma ltb_total (s t : string) : String.ltb s t = false -> String.ltb t s = false -> s = t.
Proof.
  unfold String.ltb. rewrite (String.compare_antisym t s).
  destruct (String.compare s t) eqn:E; try done. intros _ _. by apply String.compare_eq_iff.
Qed.

(** Sorting by [str] forgets the order of two value numbers. *)
Lemma sort_two_numbers (a b : Z) :
  sort_by_key [(py_str a, VNum a); (py_str b, VNum b)]
  = sort_by_key [(py_str b, VNum b); (py_str a, VNum a)].
Proof.
  cbn. destruct (String.ltb (py_str b) (py_str a)) eqn:E1.
  - by rewrite (ltb_asym _ _ E1).
  - destruct (String.ltb (py_str a) (py_str b)) eqn:E2; [done|].
    by rewrite (py_str_inj a b (ltb_total _ _ E2 E1)).
Qed.

(** The [Value] that [run_pass] builds from the operand list of a
    [BinOp], the two value numbers taken in one order and in the other:
    the same object for every operator, [SUB] and the other operators that
    are not commutative included. *)
Lemma swapped_operands_same_Value ins name ty (o : Op) (a b : Z) :
  Value_init ins name (PyType ty) (PyBool (OpM.is_commutative o)) [VOp o; VNum a; VNum b]
  = Value_init ins name (PyType ty) (PyBool (OpM.is_commutative o)) [VOp o; VNum b; VNum a].
Proof.
  rewrite !Value_init_sorts_whatever. unfold py_sorted_by_str.
  cbn [map_r vparam_str zip zip_with].
  pose proof (sort_two_numbers a b) as H.
  unfold sort_by_key in *. cbn [foldr] in *. by rewrite H.
Qed.

(** A hit under value number 0 counts as a miss, and 0 is the first number
    a new [LVN] hands out. *)
Lemma found_zero : found (Some (LVN_init + 1)) = None.
Proof. reflexivity. Qed.

(** ** [int(str(n))] *)







(** ** [wrap], beyond its definition *)








(** ** Operand indices *)

Lemma map_r_Ok {A B} (f : A -> result B) (l : list A) (g : A -> B) :
  (forall a, a ∈ l -> f a = Ok (g a)) -> map_r f l = Ok (g <$> l).
Proof.
  induction l as [|a l IH]; intros H; cbn; [done|].
  rewrite (H a) by apply list_elem_of_here. rewrite IH; [done|].
  intros b Hb. apply H. by apply list_elem_of_further.
Qed.







(** ** Value numbering and call results *)



